(** * Gomoku / Renju: board, rule engine, game state machine, save files

    A shallow embedding of [board.c], [game.c] and [io.c].

    Conventions of the embedding.
    - Every C integer is a [Z].  A value stored in an [unsigned char]
      is reduced with [uchar] at the place where the C program converts
      it (arguments of [board_get]/[board_set], [x++], [y--], ...).
    - The grid is the flat, row-major byte array that [board_create]
      allocates: cell [grid[y][x]] is the byte at offset [y * size + x].
    - The program reads the grid at coordinates that it never checks.
      An access whose offset falls outside the allocation reads memory
      the program does not own.  Its contents are a parameter of the
      model, [beyond]: [beyond i] is the byte found at offset [i] from
      the start of the grid, for offsets past the end of the allocation.
    - [exit( code )] is the result [Exit code]. *)

From Stdlib Require Import ZArith List Bool String Ascii Lia.
From stdpp Require Import base list list_numbers.
Import ListNotations.
Local Open Scope Z_scope.

(** ** Constants of [board.h], [game.h], [board.c] and [game.c] *)

Definition EMPTY_INTERSECTION : Z := 0.
Definition BLACK_STONE : Z := 1.
Definition WHITE_STONE : Z := 2.
Definition BOARD_SIZE_15 : Z := 15.
Definition BOARD_SIZE_17 : Z := 17.
Definition BOARD_SIZE_19 : Z := 19.

Definition GAME_FREESTYLE : Z := 0.
Definition GAME_RENJU : Z := 1.
Definition GAME_STATE_PLAYING : Z := 0.
Definition GAME_STATE_FORBIDDEN : Z := 1.
Definition GAME_STATE_STOPPED : Z := 2.
Definition GAME_STATE_FINISHED : Z := 3.

Definition LOWEST_TWO_DIGITS : Z := 10.
Definition MAX_STRING_LENGTH : Z := 3.
Definition INITIAL_NUM_MOVES : Z := 16.
Definition NEEDED_CONNECTIONS : Z := 5.
Definition ALLOWED_OPEN_FOURS : Z := 1.

(** Modelled from the spec: [error-codes.h] is not part of the source
    tree.  Its codes are kept symbolic; the spec lists them as distinct
    error kinds and the code compares them only for equality. *)
Inductive error_code : Set :=
| SUCCESS
| BOARD_SIZE_ERR
| STONE_TYPE_ERR
| COORDINATE_ERR
| FORMAL_COORDINATE_ERR
| RESUME_ERR
| FILE_INPUT_ERR.

(** The result of a function that may call [exit]. *)
Inductive outcome (A : Type) : Type :=
| Ret (a : A)
| Exit (code : error_code).
Arguments Ret {A} a.
Arguments Exit {A} code.

Definition obind {A B : Type} (m : outcome A) (k : A -> outcome B) : outcome B :=
  match m with
  | Ret a => k a
  | Exit code => Exit code
  end.

Notation "'let!' x ':=' m 'in' k" := (obind m (fun x => k))
  (at level 10, x name, m at level 100, k at level 200).

(** Conversion to [unsigned char]. *)
Definition uchar (z : Z) : Z := z mod 256.

(** ** The data model *)

(** [struct board]: [size] and the [size * size] bytes of [grid]. *)
Record board : Set := mkBoard { size : Z; grid : list Z }.

(** [struct move]. *)
Record move : Set := mkMove { move_x : Z; move_y : Z; move_stone : Z }.

(** [struct game].  [moves] holds the [moves_count] entries of the C
    array that have been written; [moves_count] is its length. *)
Record game : Set := mkGame {
  gboard : board;
  type : Z;
  stone : Z;
  state : Z;
  winner : Z;
  moves : list move;
  moves_capacity : Z
}.

Definition moves_count (g : game) : Z := Z.of_nat (length (moves g)).

Definition with_board (g : game) (b : board) : game :=
  mkGame b (type g) (stone g) (state g) (winner g) (moves g) (moves_capacity g).
Definition with_stone (g : game) (s : Z) : game :=
  mkGame (gboard g) (type g) s (state g) (winner g) (moves g) (moves_capacity g).
Definition with_state (g : game) (s : Z) : game :=
  mkGame (gboard g) (type g) (stone g) s (winner g) (moves g) (moves_capacity g).
Definition with_winner (g : game) (w : Z) : game :=
  mkGame (gboard g) (type g) (stone g) (state g) w (moves g) (moves_capacity g).
Definition with_moves (g : game) (ms : list move) (cap : Z) : game :=
  mkGame (gboard g) (type g) (stone g) (state g) (winner g) ms cap.

(** ** board.c *)

(** [board_create]: exits unless the size is 15, 17 or 19; every
    intersection starts empty. *)
Definition board_create (sz : Z) : outcome board :=
  if negb (sz =? BOARD_SIZE_15) && negb (sz =? BOARD_SIZE_17) && negb (sz =? BOARD_SIZE_19)
  then Exit BOARD_SIZE_ERR
  else Ret (mkBoard sz (replicate (Z.to_nat (sz * sz)) EMPTY_INTERSECTION)).

(** [grid[y][x] = st], with [x] and [y] of type [unsigned char], for
    an intersection of the board.  A store past the end of the
    allocation does not touch the grid; the program writes the byte
    behind the grid, which the model does not record, so what is
    proved of a store is proved for intersections of the board. *)
Definition store (b : board) (x y st : Z) : board :=
  mkBoard (size b) (<[Z.to_nat (uchar y * size b + uchar x) := st]> (grid b)).

Section Memory.

(** The bytes that follow the grid allocation. *)
Variable beyond : Z -> Z.

(** The byte at offset [i] from the start of the grid. *)
Definition grid_at (b : board) (i : Z) : Z :=
  match grid b !! Z.to_nat i with
  | Some v => v
  | None => beyond i
  end.

(** [board_get]: [grid[y][x]], with [x] and [y] converted to the
    parameter type [unsigned char]; no bounds check. *)
Definition board_get (b : board) (x y : Z) : Z :=
  grid_at b (uchar y * size b + uchar x).

(** [board_set]: exits on a value that is not a stone, otherwise stores
    at [grid[y][x]]. *)
Definition board_set (b : board) (x y st : Z) : outcome board :=
  if negb (st =? BLACK_STONE) && negb (st =? WHITE_STONE)
  then Exit STONE_TYPE_ERR
  else Ret (store b x y st).

(** [board_is_full]: the two nested loops over [grid[i][j]]. *)
Definition board_is_full (b : board) : bool :=
  forallb (fun i =>
    forallb (fun j => negb (grid_at b (i * size b + j) =? EMPTY_INTERSECTION))
            (seqZ 0 (size b)))
          (seqZ 0 (size b)).

(** ** game.c: the scans of the rule engine *)

(** All scans share one loop body.  The loop control decides which
    cells are visited and does not depend on the board, so each loop is
    split into the list of cells it visits, in order, and the body run
    over that list:
<<
        if ( board_get( g->board, cx, cy ) == g->stone ) {
            connections++;
            if ( connections == need ) return true;
        } else connections = 0;
>>
    [count_line] returns whether the loop left through [return true]
    and the value of [connections] when the loop was left. *)
Fixpoint count_line (b : board) (st need : Z) (cells : list (Z * Z))
         (connections : Z) : bool * Z :=
  match cells with
  | [] => (false, connections)
  | (cx, cy) :: rest =>
      if board_get b cx cy =? st then
        let connections := connections + 1 in
        if connections =? need then (true, connections)
        else count_line b st need rest connections
      else count_line b st need rest 0
  end.

(** [for ( int i = 0; i < size; i++ )] reading [( x, i )]. *)
Definition column_cells (sz x : Z) : list (Z * Z) :=
  map (fun i => (x, i)) (seqZ 0 sz).

(** [for ( int i = 0; i < size; i++ )] reading [( i, y )]. *)
Definition row_cells (sz y : Z) : list (Z * Z) :=
  map (fun i => (i, y)) (seqZ 0 sz).

(** An [unsigned char] counter changes at most 256 times before a loop
    of the program ends; the loops below are unrolled that far. *)
Definition loop_bound : nat := 256.

(** [while ( y > 0 && x > 0 ) { y--; x--; }] *)
Fixpoint diag_down_top (fuel : nat) (x y : Z) : Z * Z :=
  match fuel with
  | O => (x, y)
  | S fuel =>
      if (0 <? y) && (0 <? x)
      then diag_down_top fuel (uchar (x - 1)) (uchar (y - 1))
      else (x, y)
  end.

(** [while ( y < size && x < size ) { ...( x, y )...; y++; x++; }] *)
Fixpoint diag_down_walk (fuel : nat) (sz x y : Z) : list (Z * Z) :=
  match fuel with
  | O => []
  | S fuel =>
      if (y <? sz) && (x <? sz)
      then (x, y) :: diag_down_walk fuel sz (uchar (x + 1)) (uchar (y + 1))
      else []
  end.

Definition diag_down_cells (sz x y : Z) : list (Z * Z) :=
  let '(x0, y0) := diag_down_top loop_bound x y in
  diag_down_walk loop_bound sz x0 y0.

(** [while ( y < size && x > 0 ) { y++; x--; }] *)
Fixpoint diag_up_bottom (fuel : nat) (sz x y : Z) : Z * Z :=
  match fuel with
  | O => (x, y)
  | S fuel =>
      if (y <? sz) && (0 <? x)
      then diag_up_bottom fuel sz (uchar (x - 1)) (uchar (y + 1))
      else (x, y)
  end.

(** [while ( y >= 0 && x < size ) { ...( x, y )...; y--; x++; }]
    with [y] an [unsigned char]. *)
Fixpoint diag_up_walk (fuel : nat) (sz x y : Z) : list (Z * Z) :=
  match fuel with
  | O => []
  | S fuel =>
      if (0 <=? y) && (x <? sz)
      then (x, y) :: diag_up_walk fuel sz (uchar (x + 1)) (uchar (y - 1))
      else []
  end.

Definition diag_up_cells (sz x y : Z) : list (Z * Z) :=
  let '(x0, y0) := diag_up_bottom loop_bound sz x y in
  diag_up_walk loop_bound sz x0 y0.

Definition verticalWin (g : game) (x : Z) : bool :=
  fst (count_line (gboard g) (stone g) NEEDED_CONNECTIONS
                  (column_cells (size (gboard g)) x) 0).

Definition horizontalWin (g : game) (y : Z) : bool :=
  fst (count_line (gboard g) (stone g) NEEDED_CONNECTIONS
                  (row_cells (size (gboard g)) y) 0).

Definition diagonalDownWin (g : game) (x y : Z) : bool :=
  fst (count_line (gboard g) (stone g) NEEDED_CONNECTIONS
                  (diag_down_cells (size (gboard g)) x y) 0).

Definition diagonalUpWin (g : game) (x y : Z) : bool :=
  fst (count_line (gboard g) (stone g) NEEDED_CONNECTIONS
                  (diag_up_cells (size (gboard g)) x y) 0).

(** The condition tested by [doubleOpenFours] and [game_place_stone]. *)
Definition line_win (g : game) (x y : Z) : bool :=
  verticalWin g x || horizontalWin g y || diagonalDownWin g x y
  || diagonalUpWin g x y.

(** The loop body of the four open-four scans:
<<
        if ( board_get( g->board, cx, cy ) == g->stone ) {
            connections++;
            if ( connections == NEEDED_CONNECTIONS - 1 ) {
                if ( board_get( <after> ) == EMPTY_INTERSECTION &&
                     board_get( <before> ) == EMPTY_INTERSECTION )
                    openFours++;
            }
        } else connections = 0;
>>
    [flank cx cy connections] gives the two cells [<after>] and
    [<before>] that the scan reads. *)
Fixpoint count_fours (b : board) (st : Z)
         (flank : Z -> Z -> Z -> (Z * Z) * (Z * Z))
         (cells : list (Z * Z)) (connections openFours : Z) : Z :=
  match cells with
  | [] => openFours
  | (cx, cy) :: rest =>
      if board_get b cx cy =? st then
        let connections := connections + 1 in
        if connections =? NEEDED_CONNECTIONS - 1 then
          let '((ax, ay), (px, py)) := flank cx cy connections in
          if (board_get b ax ay =? EMPTY_INTERSECTION)
             && (board_get b px py =? EMPTY_INTERSECTION)
          then count_fours b st flank rest connections (openFours + 1)
          else count_fours b st flank rest connections openFours
        else count_fours b st flank rest connections openFours
      else count_fours b st flank rest 0 openFours
  end.

(** Vertical scan, at cell [( x, i )]:
    [( x + 1, i )] and [( x - connections, i )]. *)
Definition flank_vertical (cx cy c : Z) : (Z * Z) * (Z * Z) :=
  ((cx + 1, cy), (cx - c, cy)).

(** Horizontal scan, at cell [( j, y )]:
    [( j, y + 1 )] and [( j, y - connections )]. *)
Definition flank_horizontal (cx cy c : Z) : (Z * Z) * (Z * Z) :=
  ((cx, cy + 1), (cx, cy - c)).

(** Diagonal down, at cell [( boardX, boardY )]:
    [( boardX + 1, boardY + 1 )] and
    [( boardX - connections, boardY - connections )]. *)
Definition flank_diag_down (cx cy c : Z) : (Z * Z) * (Z * Z) :=
  ((cx + 1, cy + 1), (cx - c, cy - c)).

(** Diagonal up, at cell [( boardX, boardY )]:
    [( boardX + 1, boardY - 1 )] and
    [( boardX - connections, boardY + connections )]. *)
Definition flank_diag_up (cx cy c : Z) : (Z * Z) * (Z * Z) :=
  ((cx + 1, cy - 1), (cx - c, cy + c)).

(** The value of [openFours] after the four scans of the [else] branch
    of [doubleOpenFours]; [connections] restarts at 0 before each. *)
Definition open_fours (g : game) (x y : Z) : Z :=
  let b := gboard g in
  let sz := size b in
  let openFours := 0 in
  let openFours :=
    count_fours b (stone g) flank_vertical (column_cells sz x) 0 openFours in
  let openFours :=
    count_fours b (stone g) flank_horizontal (row_cells sz y) 0 openFours in
  let openFours :=
    count_fours b (stone g) flank_diag_down (diag_down_cells sz x y) 0 openFours in
  count_fours b (stone g) flank_diag_up (diag_up_cells sz x y) 0 openFours.

Definition doubleOpenFours (g : game) (x y : Z) : game :=
  if line_win g x y then
    with_state (with_winner g (stone g)) GAME_STATE_FINISHED
  else if ALLOWED_OPEN_FOURS <? open_fours g x y then
    with_winner (with_state g GAME_STATE_FORBIDDEN) WHITE_STONE
  else g.

(** [overline]: [connections] is set to 0 before the vertical and the
    horizontal scan only; the two diagonal scans start from the value
    the preceding scan left. *)
Definition overline (g : game) (x y : Z) : bool :=
  let b := gboard g in
  let sz := size b in
  let need := NEEDED_CONNECTIONS + 1 in
  let '(hit, _) := count_line b (stone g) need (column_cells sz x) 0 in
  if hit then true else
  let '(hit, connections) := count_line b (stone g) need (row_cells sz y) 0 in
  if hit then true else
  let '(hit, connections) :=
    count_line b (stone g) need (diag_down_cells sz x y) connections in
  if hit then true else
  fst (count_line b (stone g) need (diag_up_cells sz x y) connections).

(** ** game.c: the public operations *)

Definition game_create (board_size game_type : Z) : outcome game :=
  let! b := board_create board_size in
  Ret (mkGame b game_type BLACK_STONE GAME_STATE_PLAYING EMPTY_INTERSECTION
              [] INITIAL_NUM_MOVES).

(** The array update of [game_place_stone]: the capacity doubles when
    the array is full, then the move is stored and counted. *)
Definition record_move (g : game) (playerMove : move) : game :=
  let cap := if moves_capacity g <=? moves_count g
             then moves_capacity g * 2 else moves_capacity g in
  with_moves g (moves g ++ [playerMove]) cap.

(** The rule evaluation of [game_place_stone], from the test of the
    game type to the end; [g] already holds the move and the stone. *)
Definition apply_rules (g : game) (x y : Z) : game :=
  if (type g =? GAME_RENJU) && (stone g =? BLACK_STONE) then
    let g := doubleOpenFours g x y in
    if (winner g =? BLACK_STONE) && overline g x y then
      with_state (with_winner g WHITE_STONE) GAME_STATE_FORBIDDEN
    else with_stone g WHITE_STONE
  else if line_win g x y then
    with_state (with_winner g (stone g)) GAME_STATE_FINISHED
  else if board_is_full (gboard g) then
    with_state g GAME_STATE_FINISHED
  else
    with_stone g (if stone g =? BLACK_STONE then WHITE_STONE else BLACK_STONE).

(** [game_place_stone]; [x] and [y] are [unsigned char] values.  The
    messages it prints are not modelled. *)
Definition game_place_stone (g : game) (x y : Z) : outcome (bool * game) :=
  if negb (board_get (gboard g) x y =? EMPTY_INTERSECTION) then Ret (false, g)
  else
    let playerMove := mkMove x y (stone g) in
    let g := record_move g playerMove in
    let! b := board_set (gboard g) (move_x playerMove) (move_y playerMove)
                        (move_stone playerMove) in
    Ret (true, apply_rules (with_board g b) x y).

(** ** The grid reads of the rule engine *)

(** The same loops, returning the coordinates that [board_get]
    receives, in the order of the calls. *)
Definition coord (x y : Z) : Z * Z := (uchar x, uchar y).

Fixpoint count_line_reads (b : board) (st need : Z) (cells : list (Z * Z))
         (connections : Z) : list (Z * Z) :=
  match cells with
  | [] => []
  | (cx, cy) :: rest =>
      coord cx cy ::
      if board_get b cx cy =? st then
        let connections := connections + 1 in
        if connections =? need then []
        else count_line_reads b st need rest connections
      else count_line_reads b st need rest 0
  end.

Fixpoint count_fours_reads (b : board) (st : Z)
         (flank : Z -> Z -> Z -> (Z * Z) * (Z * Z))
         (cells : list (Z * Z)) (connections : Z) : list (Z * Z) :=
  match cells with
  | [] => []
  | (cx, cy) :: rest =>
      coord cx cy ::
      if board_get b cx cy =? st then
        let connections := connections + 1 in
        if connections =? NEEDED_CONNECTIONS - 1 then
          let '((ax, ay), (px, py)) := flank cx cy connections in
          coord ax ay ::
          (if board_get b ax ay =? EMPTY_INTERSECTION then [coord px py] else [])
          ++ count_fours_reads b st flank rest connections
        else count_fours_reads b st flank rest connections
      else count_fours_reads b st flank rest 0
  end.

Definition line_win_reads (g : game) (x y : Z) : list (Z * Z) :=
  let b := gboard g in
  let sz := size b in
  count_line_reads b (stone g) NEEDED_CONNECTIONS (column_cells sz x) 0 ++
  if verticalWin g x then [] else
  count_line_reads b (stone g) NEEDED_CONNECTIONS (row_cells sz y) 0 ++
  if horizontalWin g y then [] else
  count_line_reads b (stone g) NEEDED_CONNECTIONS (diag_down_cells sz x y) 0 ++
  if diagonalDownWin g x y then [] else
  count_line_reads b (stone g) NEEDED_CONNECTIONS (diag_up_cells sz x y) 0.

Definition open_fours_reads (g : game) (x y : Z) : list (Z * Z) :=
  let b := gboard g in
  let sz := size b in
  count_fours_reads b (stone g) flank_vertical (column_cells sz x) 0 ++
  count_fours_reads b (stone g) flank_horizontal (row_cells sz y) 0 ++
  count_fours_reads b (stone g) flank_diag_down (diag_down_cells sz x y) 0 ++
  count_fours_reads b (stone g) flank_diag_up (diag_up_cells sz x y) 0.

Definition doubleOpenFours_reads (g : game) (x y : Z) : list (Z * Z) :=
  line_win_reads g x y ++
  if line_win g x y then [] else open_fours_reads g x y.

Definition overline_reads (g : game) (x y : Z) : list (Z * Z) :=
  let b := gboard g in
  let sz := size b in
  let need := NEEDED_CONNECTIONS + 1 in
  count_line_reads b (stone g) need (column_cells sz x) 0 ++
  let '(hit, _) := count_line b (stone g) need (column_cells sz x) 0 in
  if hit then [] else
  count_line_reads b (stone g) need (row_cells sz y) 0 ++
  let '(hit, connections) := count_line b (stone g) need (row_cells sz y) 0 in
  if hit then [] else
  count_line_reads b (stone g) need (diag_down_cells sz x y) connections ++
  let '(hit, connections) :=
    count_line b (stone g) need (diag_down_cells sz x y) connections in
  if hit then [] else
  count_line_reads b (stone g) need (diag_up_cells sz x y) connections.

(** The reads of [apply_rules]. *)
Definition rule_reads (g : game) (x y : Z) : list (Z * Z) :=
  if (type g =? GAME_RENJU) && (stone g =? BLACK_STONE) then
    doubleOpenFours_reads g x y ++
    let g := doubleOpenFours g x y in
    if winner g =? BLACK_STONE then overline_reads g x y else []
  else line_win_reads g x y.

(** The reads of a call of [game_place_stone]: the test of the
    intersection, then the rule evaluation. *)
Definition game_place_stone_reads (g : game) (x y : Z) : list (Z * Z) :=
  coord x y ::
  if negb (board_get (gboard g) x y =? EMPTY_INTERSECTION) then []
  else
    let playerMove := mkMove x y (stone g) in
    let g := record_move g playerMove in
    match board_set (gboard g) (move_x playerMove) (move_y playerMove)
                    (move_stone playerMove) with
    | Exit _ => []
    | Ret b => rule_reads (with_board g b) x y
    end.

End Memory.

(** ** Characters, strings and buffers *)

(** A [char] buffer, and the memory that follows it, is a [string]
    whose characters are the bytes in memory order; the C string it
    holds ends before the first NUL. *)
Definition ord (c : ascii) : Z := Z.of_N (N_of_ascii c).
Definition chr (z : Z) : ascii := ascii_of_N (Z.to_N (uchar z)).
Definition NUL : ascii := chr 0.

Fixpoint c_str (mem : string) : string :=
  match mem with
  | EmptyString => EmptyString
  | String c rest => if ord c =? 0 then EmptyString else String c (c_str rest)
  end.

Definition strlen (mem : string) : Z := Z.of_nat (String.length (c_str mem)).

(** [buf[i] = c]; a store past the modelled memory is dropped. *)
Fixpoint poke (i : nat) (c : ascii) (buf : string) : string :=
  match buf, i with
  | EmptyString, _ => EmptyString
  | String _ rest, O => String c rest
  | String d rest, S i => String d (poke i c rest)
  end.

Definition isspace (c : ascii) : bool :=
  (ord c =? 32) || ((9 <=? ord c) && (ord c <=? 13)).

Definition isdigit (c : ascii) : bool :=
  (48 <=? ord c) && (ord c <=? 57).

Fixpoint skip_space (s : string) : string :=
  match s with
  | String c rest => if isspace c then skip_space rest else s
  | EmptyString => s
  end.

(** The value of the longest prefix of decimal digits, continuing
    from [acc]. *)
Fixpoint digits_value (s : string) (acc : Z) : Z :=
  match s with
  | String c rest =>
      if isdigit c then digits_value rest (acc * 10 + (ord c - 48)) else acc
  | EmptyString => acc
  end.

Definition starts_with_digit (s : string) : bool :=
  match s with
  | String c _ => isdigit c
  | EmptyString => false
  end.

(** The conversion [%d] of [scanf]: white space is skipped, a sign is
    accepted, at least one digit is required, and the conversion stops
    at the first character that is not a digit.  The value is not
    reduced to the range of [int]: a text long enough to leave that
    range is rejected by its length wherever the result is used. *)
Definition scan_d (s : string) : option Z :=
  match skip_space s with
  | String c rest =>
      if ord c =? 45 then
        if starts_with_digit rest then Some (- digits_value rest 0) else None
      else if ord c =? 43 then
        if starts_with_digit rest then Some (digits_value rest 0) else None
      else if isdigit c then Some (digits_value (String c rest) 0)
      else None
  | EmptyString => None
  end.

(** [sscanf( text, "%c%d", x, &row )]: [Some (c, row)] exactly when
    the call returns 2. *)
Definition sscanf_c_d (text : string) : option (ascii * Z) :=
  match text with
  | EmptyString => None
  | String c rest =>
      match scan_d rest with
      | Some row => Some (c, row)
      | None => None
      end
  end.

(** ** board.c: coordinate conversion *)

(** [board_formal_coord]: returns the code and the buffer.  Three bytes
    of the buffer are written when the row has two digits, and
    [formal_coord[3]] is left as it was. *)
Definition board_formal_coord (b : board) (x y : Z) (formal_coord : string)
  : error_code * string :=
  if (size b <=? x) || (size b <=? y) || (x <? 0) || (y <? 0)
  then (COORDINATE_ERR, formal_coord)
  else
    let x := uchar (x + ord "A") in
    let formal_coord := poke 0 (chr x) formal_coord in
    let y := uchar (size b - y) in
    if y <? LOWEST_TWO_DIGITS then
      let y := uchar (y + ord "0") in
      let formal_coord := poke 1 (chr y) formal_coord in
      (SUCCESS, poke 2 NUL formal_coord)
    else
      let formal_coord := poke 1 "1"%char formal_coord in
      (SUCCESS, poke 2 (chr (y - LOWEST_TWO_DIGITS + ord "0")) formal_coord).

(** [board_coord]: [Some (x, y)] is the result [SUCCESS] with the two
    values stored through the pointers, [None] is
    [FORMAL_COORDINATE_ERR]. *)
Definition board_coord (b : board) (formal_coord : string) : option (Z * Z) :=
  let text := c_str formal_coord in
  match sscanf_c_d text with
  | None => None
  | Some (c, row) =>
      let x := ord c in
      if (x <? ord "A") || (ord "A" + size b <=? x)
         || (row <? 1) || (size b <? row)
         || (MAX_STRING_LENGTH <? strlen text)
      then None
      else Some (uchar (x - ord "A"), uchar (size b - row))
  end.

(** ** io.c *)

(** A save file, as the sequence of fields that [fscanf] extracts:
    the magic word, four numbers and the coordinate words.  The record
    stands for the files in which [fscanf] finds all of them:
    [game_import] does not test the result of the four [%d]
    conversions, and what it does with a number that is missing, or
    with a word that overruns the four bytes it is read into, is not
    modelled (see [scanned]). *)
Record save_file : Set := mkSave {
  sv_magic : string;
  sv_size : Z;
  sv_type : Z;
  sv_state : Z;
  sv_winner : Z;
  sv_coords : list string
}.

(** The loop of [game_export].  [formal_coord] is declared in the loop
    body and never initialised, so each iteration finds in it what the
    previous one left; the word written to the file is the C string
    found in the buffer. *)
Fixpoint export_moves (b : board) (ms : list move) (formal_coord : string)
  : list string :=
  match ms with
  | [] => []
  | m :: rest =>
      let '(_, formal_coord) :=
        board_formal_coord b (move_x m) (move_y m) formal_coord in
      c_str formal_coord :: export_moves b rest formal_coord
  end.

(** [game_export]; [stack] is the content of the four bytes of
    [formal_coord], and of the memory behind them, when the loop
    starts. *)
Definition game_export (stack : string) (g : game) : save_file :=
  mkSave "GA" (size (gboard g)) (type g) (state g) (winner g)
         (export_moves (gboard g) (moves g) stack).

Section Replay.

Variable beyond : Z -> Z.

(** The loop of [game_import]: every word must be a coordinate of the
    board; the result of [game_place_stone] is not looked at. *)
Fixpoint import_moves (g : game) (words : list string) : outcome game :=
  match words with
  | [] => Ret g
  | w :: rest =>
      match board_coord (gboard g) w with
      | None => Exit FILE_INPUT_ERR
      | Some (x, y) =>
          let! r := game_place_stone beyond g x y in
          import_moves (snd r) rest
      end
  end.

Definition game_import (f : save_file) : outcome game :=
  if negb (String.eqb (sv_magic f) "GA") then Exit FILE_INPUT_ERR else
  let size := sv_size f in
  if negb (size =? BOARD_SIZE_15) && negb (size =? BOARD_SIZE_17)
     && negb (size =? BOARD_SIZE_19) then Exit FILE_INPUT_ERR else
  let type := sv_type f in
  if negb (type =? GAME_FREESTYLE) && negb (type =? GAME_RENJU)
  then Exit FILE_INPUT_ERR else
  let state := sv_state f in
  if negb (state =? GAME_STATE_FORBIDDEN) && negb (state =? GAME_STATE_STOPPED)
     && negb (state =? GAME_STATE_FINISHED) then Exit FILE_INPUT_ERR else
  let winner := sv_winner f in
  if negb (winner =? EMPTY_INTERSECTION) && negb (winner =? BLACK_STONE)
     && negb (winner =? WHITE_STONE) then Exit FILE_INPUT_ERR else
  let! importGame := game_create size type in
  let importGame := with_winner (with_state importGame state) winner in
  import_moves importGame (sv_coords f).

(** ** Play *)

(** The interactive driver ([game_loop], [game_update]) places a stone
    only while the state is [GAME_STATE_PLAYING], at a coordinate that
    [board_coord] accepted, and asks again when the placement is
    refused.  [play] runs a list of accepted placements that way. *)
Fixpoint play (g : game) (ps : list (Z * Z)) : option game :=
  match ps with
  | [] => Some g
  | (x, y) :: rest =>
      if state g =? GAME_STATE_PLAYING then
        match game_place_stone beyond g x y with
        | Ret (true, g') => play g' rest
        | _ => None
        end
      else None
  end.

(** The loop of [game_replay]: the moves are placed one after the
    other without a look at the state. *)
Fixpoint place_all (g : game) (ps : list (Z * Z)) : outcome game :=
  match ps with
  | [] => Ret g
  | (x, y) :: rest =>
      let! r := game_place_stone beyond g x y in
      place_all (snd r) rest
  end.

(** End of input in [game_update]: the game is stopped. *)
Definition stop (g : game) : game := with_state g GAME_STATE_STOPPED.

End Replay.

(** ** Vocabulary of the properties *)

(** The game in which the move is recorded and the stone stored. *)
Definition stone_placed (g : game) (x y : Z) : game :=
  with_board (record_move g (mkMove x y (stone g)))
             (store (gboard g) x y (stone g)).

(** A board as [board_create] makes it and [board_set] keeps it. *)
Definition valid_size (sz : Z) : Prop := sz = 15 \/ sz = 17 \/ sz = 19.

Definition well_formed (b : board) : Prop :=
  valid_size (size b) /\ length (grid b) = Z.to_nat (size b * size b).

Definition on_board (b : board) (x y : Z) : Prop :=
  0 <= x < size b /\ 0 <= y < size b.

(** The intersection [(x, y)] is on the board and holds [st]. *)
Definition cell_is (b : board) (x y st : Z) : bool :=
  (0 <=? x) && (x <? size b) && (0 <=? y) && (y <? size b) &&
  match grid b !! Z.to_nat (y * size b + x) with
  | Some v => v =? st
  | None => false
  end.

(** The four axes, with the step of their scan. *)
Inductive axis : Set := Vertical | Horizontal | DiagonalDown | DiagonalUp.

Definition axes : list axis := [Vertical; Horizontal; DiagonalDown; DiagonalUp].

Definition axis_step (a : axis) : Z * Z :=
  match a with
  | Vertical => (0, 1)
  | Horizontal => (1, 0)
  | DiagonalDown => (1, 1)
  | DiagonalUp => (1, -1)
  end.

Definition axis_cells (a : axis) (sz x y : Z) : list (Z * Z) :=
  match a with
  | Vertical => column_cells sz x
  | Horizontal => row_cells sz y
  | DiagonalDown => diag_down_cells sz x y
  | DiagonalUp => diag_up_cells sz x y
  end.

(** [n] consecutive intersections from [(x0, y0)] along axis [a]. *)
Definition segment (a : axis) (x0 y0 n : Z) : list (Z * Z) :=
  map (fun j => (x0 + j * fst (axis_step a), y0 + j * snd (axis_step a)))
      (seqZ 0 n).

(** The [n] intersections of the segment are on the board and hold [st]. *)
Definition run_at (b : board) (st n : Z) (a : axis) (x0 y0 : Z) : bool :=
  forallb (fun p => cell_is b (fst p) (snd p) st) (segment a x0 y0 n).

(** [(x, y)] is the intersection number [k] of the segment. *)
Definition segment_start (a : axis) (x y k : Z) : Z * Z :=
  (x - k * fst (axis_step a), y - k * snd (axis_step a)).

(** Some axis has [n] consecutive [st] stones, one of them [(x, y)]. *)
Definition has_run (b : board) (st n x y : Z) : bool :=
  existsb (fun a =>
    existsb (fun k =>
      run_at b st n a (fst (segment_start a x y k)) (snd (segment_start a x y k)))
      (seqZ 0 n)) axes.

(** The open four as the spec words it: four consecutive [st] stones
    from [(x0, y0)] along [a], and the intersection just beyond each
    end of the run is on the board and empty. *)
Definition spec_open_four (b : board) (st : Z) (a : axis) (x0 y0 : Z) : bool :=
  run_at b st 4 a x0 y0
  && cell_is b (x0 - fst (axis_step a)) (y0 - snd (axis_step a))
             EMPTY_INTERSECTION
  && cell_is b (x0 + 4 * fst (axis_step a)) (y0 + 4 * snd (axis_step a))
             EMPTY_INTERSECTION.

(** The number of stones on the board. *)
Definition count_stones (b : board) : nat :=
  length (List.filter (fun v => negb (v =? EMPTY_INTERSECTION)) (grid b)).

(** A coordinate pair, as [board_get] receives it, that is not on a
    board of size [sz]. *)
Definition off_board (sz : Z) (p : Z * Z) : bool :=
  negb ((0 <=? fst p) && (fst p <? sz) && (0 <=? snd p) && (snd p <? sz)).

(** The two halves of the move-log invariant. *)
Definition log_counts_stones (g : game) : Prop :=
  length (moves g) = count_stones (gboard g).

Definition log_alternates (g : game) : Prop :=
  forall (i : nat) (m : move),
    moves g !! i = Some m ->
    move_stone m = if Nat.even i then BLACK_STONE else WHITE_STONE.

(** Games that the interactive driver can produce: every placement is
    made on the board while the state is [GAME_STATE_PLAYING]; the
    memory behind the grid may differ from one call to the next. *)
Inductive played : game -> Prop :=
| played_new (board_size game_type : Z) (g : game) :
    game_create board_size game_type = Ret g -> played g
| played_place (beyond : Z -> Z) (g : game) (x y : Z) (r : bool * game) :
    played g ->
    state g = GAME_STATE_PLAYING ->
    on_board (gboard g) x y ->
    game_place_stone beyond g x y = Ret r ->
    played (snd r).

(** Games produced by calls of [game_place_stone] in any state. *)
Inductive placed : game -> Prop :=
| placed_new (board_size game_type : Z) (g : game) :
    game_create board_size game_type = Ret g -> placed g
| placed_place (beyond : Z -> Z) (g : game) (x y : Z) (r : bool * game) :
    placed g ->
    on_board (gboard g) x y ->
    game_place_stone beyond g x y = Ret r ->
    placed (snd r).

(** What a round trip through a save file has to preserve. *)
Definition same_position (g g' : game) : Prop :=
  gboard g = gboard g' /\ type g = type g' /\ state g = state g'
  /\ winner g = winner g'.

(** Sublists of consecutive elements, as a test. *)
Definition cell_eqb (p q : Z * Z) : bool :=
  (fst p =? fst q) && (snd p =? snd q).

Fixpoint is_prefix (s l : list (Z * Z)) : bool :=
  match s, l with
  | [], _ => true
  | p :: s', q :: l' => cell_eqb p q && is_prefix s' l'
  | _ :: _, [] => false
  end.

Fixpoint is_infix (s l : list (Z * Z)) : bool :=
  is_prefix s l ||
  match l with
  | [] => false
  | _ :: l' => is_infix s l'
  end.

(** On a board of size [sz], every segment of [n] intersections of the
    board through [(x, y)] is met, in order and without a gap, by the
    scan of its axis. *)
Definition scan_covers_at (sz n : Z) (a : axis) (x y k : Z) : bool :=
  let '(x0, y0) := segment_start a x y k in
  let seg := segment a x0 y0 n in
  implb (forallb (fun p => (0 <=? fst p) && (fst p <? sz)
                           && (0 <=? snd p) && (snd p <? sz)) seg)
        (is_infix seg (axis_cells a sz x y)).

Definition scan_covers (sz n : Z) : bool :=
  forallb (fun x =>
    forallb (fun y =>
      forallb (fun a =>
        forallb (fun k => scan_covers_at sz n a x y k) (seqZ 0 n)) axes)
      (seqZ 0 sz)) (seqZ 0 sz).

(** The colour that moves next. *)
Definition other_stone (st : Z) : Z :=
  if st =? BLACK_STONE then WHITE_STONE else BLACK_STONE.


(** What every game of the driver satisfies. *)
Definition turn_of (n : nat) : Z :=
  if Nat.even n then BLACK_STONE else WHITE_STONE.

Definition driver_invariant (g : game) : Prop :=
  well_formed (gboard g)
  /\ log_counts_stones g
  /\ log_alternates g
  /\ (stone g = BLACK_STONE \/ stone g = WHITE_STONE)
  /\ (state g = GAME_STATE_PLAYING -> stone g = turn_of (length (moves g))).

(** Every pair of the list is on a board of size [sz]. *)
Definition all_on_board (sz : Z) (ps : list (Z * Z)) : bool :=
  forallb (fun p => (0 <=? fst p) && (fst p <? sz)
                    && (0 <=? snd p) && (snd p <? sz)) ps.

(** Every intersection of the board survives the conversion to text
    in the buffer [buf] and back. *)
Definition round_trip_ok (b : board) (buf : string) : bool :=
  forallb (fun x =>
    forallb (fun y =>
      match board_formal_coord b x y buf with
      | (SUCCESS, out) =>
          match board_coord b out with
          | Some (x', y') => (x' =? x) && (y' =? y)
          | None => false
          end
      | _ => false
      end) (seqZ 0 (size b))) (seqZ 0 (size b)).

(** Some axis of the board holds [n] consecutive [st] stones, from
    some intersection on. *)
Definition any_run (b : board) (st n : Z) : bool :=
  existsb (fun p =>
    existsb (fun a => run_at b st n a (fst p) (snd p)) axes)
    (flat_map (fun y => map (fun x => (x, y)) (seqZ 0 (size b)))
              (seqZ 0 (size b))).

Definition on_boardb (sz : Z) (p : Z * Z) : bool :=
  (0 <=? fst p) && (fst p <? sz) && (0 <=? snd p) && (snd p <? sz).

(** The sublists of [n] consecutive elements (shorter at the end). *)
Fixpoint windows (n : nat) (l : list (Z * Z)) : list (list (Z * Z)) :=
  match l with
  | [] => []
  | _ :: rest => firstn n l :: windows n rest
  end.

Fixpoint cells_eqb (l m : list (Z * Z)) : bool :=
  match l, m with
  | [], [] => true
  | p :: l', q :: m' => cell_eqb p q && cells_eqb l' m'
  | _, _ => false
  end.

(** On a board of size [sz], a scan through [(x, y)] visits
    intersections of the board and places whose offset lies behind
    the grid, and [n] intersections of the board that it visits in a
    row are [n] neighbours on the axis. *)
Definition scan_on_axis_at (sz n : Z) (a : axis) (x y : Z) : bool :=
  let path := axis_cells a sz x y in
  forallb (fun p => on_boardb sz p
                    || (sz * sz <=? uchar (snd p) * sz + uchar (fst p))) path
  && forallb (fun w =>
       implb (forallb (on_boardb sz) w && (Z.of_nat (length w) =? n))
             (cells_eqb w (segment a (fst (hd (0, 0) w)) (snd (hd (0, 0) w)) n)))
       (windows (Z.to_nat n) path).

Definition scan_on_axis (sz n : Z) : bool :=
  forallb (fun x =>
    forallb (fun y =>
      forallb (fun a => scan_on_axis_at sz n a x y) axes)
      (seqZ 0 sz)) (seqZ 0 sz).

(** A [formal_coord] array whose fourth byte is zero. *)
Definition terminated (buf : string) : Prop :=
  exists (c0 c1 c2 : ascii) (rest : string),
    buf = String c0 (String c1 (String c2 (String NUL rest))).

(** The intersections of the moves of a log. *)
Definition coords_of (ms : list move) : list (Z * Z) :=
  map (fun m => (move_x m, move_y m)) ms.

(** The game that reaches [game_export]: the end of the input stops a
    game that is still being played. *)
Definition finished_or_stopped (g : game) : game :=
  if state g =? GAME_STATE_PLAYING then stop g else g.

(** Two games that differ in state, winner and move log at most. *)
Definition shadow (g1 g2 : game) : Prop :=
  gboard g1 = gboard g2 /\ type g1 = type g2 /\ stone g1 = stone g2.

(** The states and winners that play can produce. *)
Definition sane (g : game) : Prop :=
  (stone g = BLACK_STONE \/ stone g = WHITE_STONE)
  /\ ((state g = GAME_STATE_PLAYING /\ winner g = EMPTY_INTERSECTION)
      \/ (state g = GAME_STATE_FORBIDDEN /\ winner g = WHITE_STONE)
      \/ (state g = GAME_STATE_FINISHED
          /\ (winner g = EMPTY_INTERSECTION \/ winner g = BLACK_STONE
              \/ winner g = WHITE_STONE))).

(** ** Concrete games *)

(** Memory behind the grid that holds zeros only. *)
Definition zero_memory : Z -> Z := fun _ => 0.

(** Memory behind the grid whose first byte is 1. *)
Definition one_then_zero (sz : Z) : Z -> Z :=
  fun i => if i =? sz * sz then 1 else 0.

(** A [formal_coord] array that holds four zero bytes. *)
Definition zero_stack : string :=
  String NUL (String NUL (String NUL (String NUL EmptyString))).

(** The game that [game_create] returns for a valid size. *)
Definition new_game (sz ty : Z) : game :=
  mkGame (mkBoard sz (replicate (Z.to_nat (sz * sz)) EMPTY_INTERSECTION))
         ty BLACK_STONE GAME_STATE_PLAYING EMPTY_INTERSECTION
         [] INITIAL_NUM_MOVES.

(** Black completes a column and a row of four at (7, 6); both runs
    have empty ends; White holds (8, 8). *)
Definition double_four_opening : list (Z * Z) :=
  [(7, 5); (8, 8); (7, 7); (1, 1); (7, 8); (3, 1); (5, 6); (5, 1);
   (6, 6); (9, 1); (8, 6); (11, 1)].

(** A Renju game that Black wins with five stones on row 8. *)
Definition black_wins_row_8 : list (Z * Z) :=
  [(12, 0); (0, 12); (13, 1); (2, 12); (12, 2); (4, 12); (13, 2);
   (6, 12); (14, 2); (8, 12); (3, 8); (10, 12); (4, 8); (12, 12);
   (5, 8); (14, 12); (6, 8); (1, 10); (7, 8)].

(** Black wins with five stones on row 0. *)
Definition black_wins_row_0 : list (Z * Z) :=
  [(0, 0); (0, 1); (1, 0); (1, 1); (2, 0); (2, 1); (3, 0); (3, 1); (4, 0)].

(** Black has three stones on the diagonal that leaves the board at
    (0, 15) and is about to add (4, 11). *)
Definition diagonal_three : list (Z * Z) :=
  [(1, 14); (0, 0); (2, 13); (2, 0); (3, 12); (4, 0)].

(** A position without three equal stones in a row on any axis: Black
    holds the intersections with [(x + 2 * y) mod 4 < 2]. *)
Definition black_cell (p : Z * Z) : bool := (fst p + 2 * snd p) mod 4 <? 2.

Definition all_cells (sz : Z) : list (Z * Z) :=
  flat_map (fun y => map (fun x => (x, y)) (seqZ 0 sz)) (seqZ 0 sz).

Fixpoint interleave (a b : list (Z * Z)) : list (Z * Z) :=
  match a with
  | [] => b
  | p :: a' =>
      p :: match b with
           | [] => a'
           | q :: b' => q :: interleave a' b'
           end
  end.

(** All 225 intersections, Black and White in turn; the last one,
    (13, 14), is Black's. *)
Definition drawn_game : list (Z * Z) :=
  interleave (List.filter black_cell (all_cells 15))
             (List.filter (fun p => negb (black_cell p)) (all_cells 15)).

Definition drawn_game_but_last : list (Z * Z) := removelast drawn_game.

(** Black holds (0,0) (1,0) (2,0) (4,0) (5,0) and is about to fill
    the gap at (3,0). *)
Definition gap_on_row_0 : list (Z * Z) :=
  [(0, 0); (0, 5); (1, 0); (2, 5); (2, 0); (4, 5); (4, 0); (6, 5);
   (5, 0); (8, 5)].

Definition gap_on_row_0_game : game :=
  default (new_game 15 GAME_RENJU)
          (play zero_memory (new_game 15 GAME_RENJU) gap_on_row_0).

(** The game after Black's first stone at (7, 7). *)
Definition one_stone_game : game :=
  with_stone (stone_placed (new_game 15 GAME_FREESTYLE) 7 7) WHITE_STONE.

(** Black holds three stones on each diagonal through (7, 7), with
    both ends of each line empty; White's stones lie on row 0. *)
Definition diagonal_cross_opening : list (Z * Z) :=
  [(5, 5); (0, 0); (6, 6); (2, 0); (8, 8); (4, 0); (5, 9); (6, 0);
   (6, 8); (8, 0); (8, 6); (10, 0)].

(** Black holds (14, 4) at the end of row 4 and four stones on the
    diagonal that starts at (3, 0), and is about to add (7, 4). *)
Definition carried_count_opening : list (Z * Z) :=
  [(14, 4); (0, 10); (3, 0); (2, 10); (4, 1); (4, 10); (5, 2); (6, 10);
   (6, 3); (8, 10)].

(** ** game.c: the interactive loop, resume and replay *)

(** The standard input is the list of the words that
    [scanf( "%s", formal_coord )] returns, in order; the end of the
    list is the end of the input.  A word of more than
    [MAX_STRING_LENGTH] characters overruns [formal_coord]; the
    properties of the loop are stated for inputs whose words fit. *)
Definition fits (word : string) : Prop :=
  Z.of_nat (String.length word) <= MAX_STRING_LENGTH.

Section Driver.

Variable beyond : Z -> Z.

(** The [while] loop of [game_update]: words are read until
    [game_place_stone] accepts one, and the end of the input stops the
    game.  The result is the value returned, the game and the input
    that is left.  The prompts are not modelled.  [currentMove] is
    the slot behind the log; the colour and the coordinates stored
    there are taken to be read back as written, also when the log is
    full and the slot lies behind the array, and [game_place_stone]
    writes the slot again when it accepts the move. *)
Fixpoint game_update_read (g : game) (input : list string)
  : outcome (bool * game * list string) :=
  match input with
  | [] => Ret (false, with_state g GAME_STATE_STOPPED, [])
  | formal_coord :: input =>
      match board_coord (gboard g) formal_coord with
      | Some (x, y) =>
          let! r := game_place_stone beyond g x y in
          if fst r then Ret (true, snd r, input)
          else game_update_read (snd r) input
      | None => game_update_read g input
      end
  end.

Definition game_update (g : game) (input : list string)
  : outcome (bool * game * list string) :=
  if negb (state g =? GAME_STATE_PLAYING) then Ret (false, g, input)
  else game_update_read g input.

(** [do { ... } while ( game_update( g ) )], unrolled [fuel] times. *)
Fixpoint game_loop_run (fuel : nat) (g : game) (input : list string)
  : outcome (game * list string) :=
  match fuel with
  | O => Ret (g, input)
  | S fuel =>
      let! r := game_update g input in
      if fst (fst r) then game_loop_run fuel (snd (fst r)) (snd r)
      else Ret (snd (fst r), snd r)
  end.

(** [game_loop]: every turn of the loop but the last uses up a word,
    so one turn more than there are words is enough. *)
Definition game_loop (g : game) (input : list string)
  : outcome (game * list string) :=
  game_loop_run (S (length input)) g input.

(** The line that [game_loop] prints after the loop, without its
    newline; the boards it prints are not modelled. *)
Definition game_loop_report (g : game) : string :=
  if state g =? GAME_STATE_FINISHED then
    if winner g =? BLACK_STONE
    then "Game concluded, black won."
    else "Game concluded, white won."
  else if state g =? GAME_STATE_FORBIDDEN then
    "Game concluded, black made a forbidden move, white won."
  else "".

(** [game_resume]. *)
Definition game_resume (g : game) (input : list string)
  : outcome (game * list string) :=
  if negb (state g =? GAME_STATE_STOPPED)
     || (negb (type g =? GAME_FREESTYLE) && negb (type g =? GAME_RENJU))
  then Exit RESUME_ERR
  else game_loop (with_state g GAME_STATE_PLAYING) input.

(** [game_replay]: the game it builds; what it prints and the pauses
    are not modelled. *)
Definition game_replay (g : game) : outcome game :=
  let! replayGame := game_create (size (gboard g)) (type g) in
  let replayGame := with_winner replayGame (winner g) in
  let replayGame := with_state replayGame (state g) in
  place_all beyond replayGame
            (map (fun m => (move_x m, move_y m)) (moves g)).

(** The interactive loop as one loop over the input: a game that is not
    being played leaves the input alone, the end of the input stops
    the game, a word that is no coordinate is skipped, and any other
    word is handed to [game_place_stone]. *)
Fixpoint drive (g : game) (input : list string) : outcome (game * list string) :=
  match input with
  | [] =>
      Ret (if state g =? GAME_STATE_PLAYING
           then with_state g GAME_STATE_STOPPED else g, [])
  | word :: rest =>
      if negb (state g =? GAME_STATE_PLAYING) then Ret (g, input)
      else
        match board_coord (gboard g) word with
        | Some (x, y) =>
            let! r := game_place_stone beyond g x y in
            drive (snd r) rest
        | None => drive g rest
        end
  end.

End Driver.

(** ** gomoku.c: the command line *)

(** Modelled from the spec: [error-codes.h] is not part of the source
    tree; [ARGUMENT_ERR] is the code that [main] exits with on a bad
    command line, kept symbolic beside the codes above. *)
Inductive exit_status : Set :=
| Status (code : error_code)
| ARGUMENT_ERR.

(** The three variables that the loop over [argv] sets. *)
Record arguments : Set := mkArguments {
  exportPath : option string;
  importPath : option string;
  boardSize : Z
}.

Inductive parsed : Set :=
| Parsed (a : arguments)
| Stopped (s : exit_status).

(** [atoi]: the number that [%d] would read, 0 when there is none.
    The model is exact on every text; the C function is defined for
    the texts whose number an [int] holds (see [int_holds]), and only
    for these does a property of the program follow. *)
Definition atoi (s : string) : Z :=
  match scan_d (c_str s) with
  | Some v => v
  | None => 0
  end.

(** The [for] loop of [main] over the pairs of a key and its value;
    [boardSize] is an [unsigned char]. *)
Fixpoint parse_arguments (args : list string) (a : arguments) : parsed :=
  match args with
  | keyArgument :: value :: args =>
      if String.eqb (c_str keyArgument) "-o" then
        parse_arguments args (mkArguments (Some value) (importPath a) (boardSize a))
      else if String.eqb (c_str keyArgument) "-r" then
        if negb (boardSize a =? 0) then Stopped ARGUMENT_ERR
        else parse_arguments args
               (mkArguments (exportPath a) (Some value) (boardSize a))
      else if String.eqb (c_str keyArgument) "-b" then
        let boardSize := uchar (atoi value) in
        if boardSize =? 0 then Stopped ARGUMENT_ERR
        else if negb (boardSize =? BOARD_SIZE_15)
                && negb (boardSize =? BOARD_SIZE_17)
                && negb (boardSize =? BOARD_SIZE_19)
        then Stopped (Status BOARD_SIZE_ERR)
        else
          match importPath a with
          | Some _ => Stopped ARGUMENT_ERR
          | None =>
              parse_arguments args
                (mkArguments (exportPath a) (importPath a) boardSize)
          end
      else Stopped ARGUMENT_ERR
  | _ => Parsed a
  end.

(** The first part of [main] in gomoku.c, for [argv] with the name of
    the program in front. *)
Definition gomoku_arguments (argv : list string) : parsed :=
  let argc := Z.of_nat (length argv) in
  if (argc =? 1) || (argc =? 3) || (argc =? 5)
  then parse_arguments (tl argv) (mkArguments None None 0)
  else Stopped ARGUMENT_ERR.

(** One of the four stones of an open four on axis [a], in the words
    of the spec, is [(x, y)]. *)
Definition open_four_through (b : board) (st : Z) (a : axis) (x y : Z) : bool :=
  existsb (fun j =>
    spec_open_four b st a (x - j * fst (axis_step a))
                   (y - j * snd (axis_step a)))
    (seqZ 0 4).


(** The index of the slot [&g->moves[ g->moves_count ]] that
    [game_update] takes as [currentMove] and stores the colour and the
    coordinates into, and the test that an index lies in the array
    that [moves] points to. *)
Definition currentMove_index (g : game) : Z := moves_count g.

Definition in_moves_array (g : game) (i : Z) : bool :=
  (0 <=? i) && (i <? moves_capacity g).

(** ** board.c: the display *)

(** What [board_print] shows at an intersection: ["+"], a black disc
    or, for every other byte, a white circle. *)
Inductive glyph : Set := Cross | BlackDisc | WhiteCircle.

Definition glyph_of (v : Z) : glyph :=
  if v =? EMPTY_INTERSECTION then Cross
  else if v =? BLACK_STONE then BlackDisc
  else WhiteCircle.

Section Display.

Variable beyond : Z -> Z.

(** The lines of the two nested loops of [board_print]: the row number
    printed with [%2d] and the intersections [grid[i][j]] of the row,
    without the dashes between them.  Clearing the terminal is not
    modelled. *)
Definition board_print_rows (b : board) : list (Z * list glyph) :=
  map (fun i =>
         (size b - i,
          map (fun j => glyph_of (grid_at beyond b (i * size b + j)))
              (seqZ 0 (size b))))
      (seqZ 0 (size b)).

End Display.

(** The last line of [board_print]: the letters of the loop over [ch]
    and the letter printed after the loop, without the spaces. *)
Definition board_print_letters (b : board) : list ascii :=
  map (fun k => chr (ord "A" + k)) (seqZ 0 (size b - 1))
  ++ [chr (ord "A" + Z.max 0 (size b - 1))].

(** The log and the board tell the same story: the moves of the log
    lie at distinct intersections of the board, and these are the
    intersections that do not read as empty. *)
Definition logged (beyond : Z -> Z) (g : game) : Prop :=
  well_formed (gboard g)
  /\ (stone g = BLACK_STONE \/ stone g = WHITE_STONE)
  /\ NoDup (coords_of (moves g))
  /\ (forall p : Z * Z,
        In p (coords_of (moves g)) -> on_board (gboard g) (fst p) (snd p))
  /\ (forall x y : Z,
        on_board (gboard g) x y ->
        (board_get beyond (gboard g) x y <> EMPTY_INTERSECTION
         <-> In (x, y) (coords_of (moves g)))).

(** Two contents of the memory behind the grid that the rule engine
    cannot tell apart: each byte reads as empty, as a black stone or
    as a white stone in the one exactly when it does in the other.
    The engine compares what it reads with these three values only. *)
Definition same_view (beyond beyond' : Z -> Z) : Prop :=
  forall i v : Z,
    v = EMPTY_INTERSECTION \/ v = BLACK_STONE \/ v = WHITE_STONE ->
    (beyond i = v <-> beyond' i = v).

(** Memory behind the grid in which every byte is [v]. *)
Definition constant_memory (v : Z) : Z -> Z := fun _ => v.

(** Games that the programs reach: a game of [game_create]; the game
    of [game_import] and of [game_replay] before the first move, in
    which the state and the winner are set from outside; a game that
    the end of the input has stopped; a game that [game_resume]
    brings back into play; and, in a game that satisfies [gate], a
    call of [game_place_stone] at an intersection of the board.  The
    memory behind the grid may differ from one call to the next. *)
Inductive session (gate : game -> Prop) : game -> Prop :=
| session_new (board_size game_type : Z) (g : game) :
    game_create board_size game_type = Ret g -> session gate g
| session_import (board_size game_type st w : Z) (g : game) :
    game_create board_size game_type = Ret g ->
    session gate (with_winner (with_state g st) w)
| session_stop (g : game) :
    session gate g -> state g = GAME_STATE_PLAYING ->
    session gate (with_state g GAME_STATE_STOPPED)
| session_resume (g : game) :
    session gate g -> state g = GAME_STATE_STOPPED ->
    session gate (with_state g GAME_STATE_PLAYING)
| session_place (beyond : Z -> Z) (g : game) (x y : Z) (r : bool * game) :
    session gate g -> gate g ->
    on_board (gboard g) x y ->
    game_place_stone beyond g x y = Ret r ->
    session gate (snd r).

(** The three gates: none; the colour to move is the one whose turn
    it is by the length of the log; the game is not decided. *)
Definition any_state (g : game) : Prop := True.

Definition in_turn (g : game) : Prop :=
  stone g = turn_of (length (moves g)).

Definition undecided (g : game) : Prop :=
  state g = GAME_STATE_PLAYING \/ state g = GAME_STATE_STOPPED.

(** A number that every C [int] holds. *)
Definition int_holds (v : Z) : Prop := -32767 <= v <= 32767.


(** ** Checks by computation *)

(** On a board of size [sz], the scans of the column, the row and the
    falling diagonal through [(x, y)] visit intersections of the board
    only, the scan of the rising diagonal does so exactly when
    [x + y = sz - 1], and each of the four visits [(x, y)]. *)
Definition scans_check_at (sz x y : Z) : bool :=
  forallb (on_boardb sz) (column_cells sz x)
  && forallb (on_boardb sz) (row_cells sz y)
  && forallb (on_boardb sz) (diag_down_cells sz x y)
  && Bool.eqb (forallb (on_boardb sz) (diag_up_cells sz x y))
              (x + y =? sz - 1)
  && forallb (fun a => existsb (cell_eqb (x, y)) (axis_cells a sz x y)) axes.

Definition scans_check (sz : Z) : bool :=
  forallb (fun x => forallb (fun y => scans_check_at sz x y) (seqZ 0 sz))
          (seqZ 0 sz).

(** * Properties *)

(** ** Arithmetic of [unsigned char] and of the grid *)

Lemma uchar_small (z : Z) : 0 <= z < 256 -> uchar z = z.
Proof. intros H. unfold uchar. apply Z.mod_small. exact H. Qed.

Lemma valid_size_bounds (sz : Z) : valid_size sz -> 15 <= sz <= 19.
Proof. unfold valid_size. lia. Qed.

Lemma offset_on_board (b : board) (x y : Z) :
  well_formed b -> on_board b x y ->
  (Z.to_nat (uchar y * size b + uchar x) < length (grid b))%nat
  /\ uchar y * size b + uchar x = y * size b + x.
Proof.
  intros [Hsz Hlen] [Hx Hy].
  apply valid_size_bounds in Hsz.
  rewrite !uchar_small by lia.
  split; [|reflexivity].
  rewrite Hlen. apply Z2Nat.inj_lt; nia.
Qed.

Lemma cell_is_on_board (b : board) (x y st : Z) :
  cell_is b x y st = true ->
  on_board b x y /\ grid b !! Z.to_nat (y * size b + x) = Some st.
Proof.
  unfold cell_is, on_board. intros H.
  repeat (apply andb_prop in H; destruct H as [H ?]).
  destruct (grid b !! Z.to_nat (y * size b + x)) as [v|] eqn:E; [|discriminate].
  repeat split; try lia.
  f_equal. lia.
Qed.

Section Reading.

Variable beyond : Z -> Z.

(** On the board, [board_get] returns the content of the
    intersection, whatever lies behind the grid. *)
Lemma board_get_cell_is (b : board) (x y st : Z) :
  well_formed b -> cell_is b x y st = true -> board_get beyond b x y = st.
Proof.
  intros Hwf H. apply cell_is_on_board in H as [Hon Hl].
  destruct (offset_on_board b x y Hwf Hon) as [_ Heq].
  unfold board_get, grid_at. rewrite Heq, Hl. reflexivity.
Qed.

Lemma board_get_lookup (b : board) (x y : Z) :
  well_formed b -> on_board b x y ->
  grid b !! Z.to_nat (y * size b + x) = Some (board_get beyond b x y).
Proof.
  intros Hwf Hon.
  destruct (offset_on_board b x y Hwf Hon) as [Hlt Heq].
  unfold board_get, grid_at. rewrite Heq in *.
  destruct (grid b !! Z.to_nat (y * size b + x)) as [v|] eqn:E; [reflexivity|].
  apply lookup_ge_None in E. lia.
Qed.

(** ** Refused and accepted placements *)

Lemma place_on_occupied (g : game) (x y : Z) :
  board_get beyond (gboard g) x y <> EMPTY_INTERSECTION ->
  game_place_stone beyond g x y = Ret (false, g).
Proof.
  intros H. unfold game_place_stone.
  destruct (board_get beyond (gboard g) x y =? EMPTY_INTERSECTION) eqn:E;
    [apply Z.eqb_eq in E; contradiction | reflexivity].
Qed.

Lemma place_on_empty (g : game) (x y : Z) :
  board_get beyond (gboard g) x y = EMPTY_INTERSECTION ->
  stone g = BLACK_STONE \/ stone g = WHITE_STONE ->
  game_place_stone beyond g x y
  = Ret (true, apply_rules beyond (stone_placed g x y) x y).
Proof.
  intros He Hst. unfold game_place_stone, stone_placed. rewrite He. simpl.
  unfold board_set.
  destruct Hst as [-> | ->]; reflexivity.
Qed.

End Reading.

(** ** The move log *)

Lemma count_stones_insert (l : list Z) (i : nat) (v : Z) :
  l !! i = Some EMPTY_INTERSECTION -> v <> EMPTY_INTERSECTION ->
  length (List.filter (fun v => negb (v =? EMPTY_INTERSECTION)) (<[i:=v]> l))
  = S (length (List.filter (fun v => negb (v =? EMPTY_INTERSECTION)) l)).
Proof.
  revert i. induction l as [|a l IH]; intros i Hl Hv; [discriminate|].
  destruct i as [|i]; simpl in *.
  - injection Hl as ->.
    destruct (v =? EMPTY_INTERSECTION) eqn:E; [apply Z.eqb_eq in E; contradiction|].
    reflexivity.
  - destruct (negb (a =? EMPTY_INTERSECTION)); simpl; rewrite IH; auto.
Qed.

Lemma store_well_formed (b : board) (x y st : Z) :
  well_formed b -> well_formed (store b x y st).
Proof.
  intros [Hsz Hlen]. split; simpl; [exact Hsz|].
  rewrite length_insert. exact Hlen.
Qed.

Lemma board_create_well_formed (sz : Z) (b : board) :
  board_create sz = Ret b -> well_formed b /\ count_stones b = O.
Proof.
  unfold board_create, BOARD_SIZE_15, BOARD_SIZE_17, BOARD_SIZE_19.
  destruct (sz =? 15) eqn:E15; simpl;
    [|destruct (sz =? 17) eqn:E17; simpl;
      [|destruct (sz =? 19) eqn:E19; simpl; [|discriminate]]];
    intros [= <-]; unfold well_formed, valid_size, count_stones; simpl;
    rewrite length_replicate;
    (split; [split; [lia | reflexivity]|]);
    (induction (Z.to_nat (sz * sz)); simpl; auto).
Qed.

Section Rules.

Variable beyond : Z -> Z.

Lemma doubleOpenFours_frame (g : game) (x y : Z) :
  gboard (doubleOpenFours beyond g x y) = gboard g
  /\ moves (doubleOpenFours beyond g x y) = moves g
  /\ stone (doubleOpenFours beyond g x y) = stone g
  /\ type (doubleOpenFours beyond g x y) = type g.
Proof.
  unfold doubleOpenFours.
  destruct (line_win beyond g x y); [repeat split|].
  destruct (ALLOWED_OPEN_FOURS <? open_fours beyond g x y); repeat split.
Qed.

(** The rule evaluation touches neither the board nor the log. *)
Lemma apply_rules_frame (g : game) (x y : Z) :
  gboard (apply_rules beyond g x y) = gboard g
  /\ moves (apply_rules beyond g x y) = moves g
  /\ type (apply_rules beyond g x y) = type g.
Proof.
  unfold apply_rules.
  destruct ((type g =? GAME_RENJU) && (stone g =? BLACK_STONE)).
  - destruct (doubleOpenFours_frame g x y) as (Hb & Hm & _ & Ht).
    destruct ((winner (doubleOpenFours beyond g x y) =? BLACK_STONE)
              && overline beyond (doubleOpenFours beyond g x y) x y);
      simpl; auto.
  - destruct (line_win beyond g x y); [simpl; auto|].
    destruct (board_is_full beyond (gboard g)); simpl; auto.
Qed.

(** A game that is still being played after the rule evaluation has
    passed the turn to the other colour. *)
Lemma apply_rules_turn (g : game) (x y : Z) :
  stone g = BLACK_STONE \/ stone g = WHITE_STONE ->
  (stone (apply_rules beyond g x y) = BLACK_STONE
   \/ stone (apply_rules beyond g x y) = WHITE_STONE)
  /\ (state (apply_rules beyond g x y) = GAME_STATE_PLAYING ->
      stone (apply_rules beyond g x y) = other_stone (stone g)).
Proof.
  intros Hst. unfold apply_rules.
  destruct ((type g =? GAME_RENJU) && (stone g =? BLACK_STONE)) eqn:Hrb.
  - apply andb_prop in Hrb as [_ Hb]. apply Z.eqb_eq in Hb.
    destruct (doubleOpenFours_frame g x y) as (_ & _ & Hs & _).
    destruct ((winner (doubleOpenFours beyond g x y) =? BLACK_STONE)
              && overline beyond (doubleOpenFours beyond g x y) x y); simpl.
    + rewrite Hs, Hb. split; [left; reflexivity | discriminate].
    + split; [right; reflexivity|]. intros _. rewrite Hb. reflexivity.
  - destruct (line_win beyond g x y); simpl;
      [split; [exact Hst | discriminate]|].
    destruct (board_is_full beyond (gboard g)); simpl;
      [split; [exact Hst | discriminate]|].
    split; [|reflexivity].
    unfold BLACK_STONE, WHITE_STONE in *.
    destruct Hst as [-> | ->]; simpl; auto.
Qed.

End Rules.

Lemma new_game_invariant (board_size game_type : Z) (g : game) :
  game_create board_size game_type = Ret g -> driver_invariant g.
Proof.
  unfold game_create. destruct (board_create board_size) as [b|] eqn:E;
    simpl; [|discriminate].
  intros [= <-]. apply board_create_well_formed in E as [Hwf Hc].
  repeat split; simpl; try (apply Hwf).
  - unfold log_counts_stones. simpl. symmetry. exact Hc.
  - intros i m Hl. discriminate.
  - left. reflexivity.
Qed.

Lemma turn_of_succ (n : nat) :
  other_stone (turn_of n) = turn_of (S n).
Proof.
  unfold turn_of, other_stone. rewrite Nat.even_succ, <- Nat.negb_even.
  destruct (Nat.even n); reflexivity.
Qed.

Lemma place_keeps_invariant (beyond : Z -> Z) (g : game) (x y : Z)
      (r : bool * game) :
  driver_invariant g ->
  state g = GAME_STATE_PLAYING ->
  on_board (gboard g) x y ->
  game_place_stone beyond g x y = Ret r ->
  driver_invariant (snd r).
Proof.
  intros (Hwf & Hcnt & Halt & Hst & Hturn) Hplay Hon Hr.
  destruct (Z.eq_dec (board_get beyond (gboard g) x y) EMPTY_INTERSECTION)
    as [He|Hne].
  2:{ rewrite place_on_occupied in Hr by exact Hne.
      injection Hr as <-. simpl.
      exact (conj Hwf (conj Hcnt (conj Halt (conj Hst Hturn)))). }
  rewrite place_on_empty in Hr by assumption.
  injection Hr as <-. simpl.
  destruct (apply_rules_frame beyond (stone_placed g x y) x y) as (Hb & Hm & _).
  assert (Hst' : stone (stone_placed g x y) = BLACK_STONE
                 \/ stone (stone_placed g x y) = WHITE_STONE) by exact Hst.
  destruct (apply_rules_turn beyond (stone_placed g x y) x y Hst') as (Hs1 & Hs2).
  change (gboard (stone_placed g x y))
    with (store (gboard g) x y (stone g)) in Hb.
  change (moves (stone_placed g x y))
    with (moves g ++ [mkMove x y (stone g)]) in Hm.
  change (stone (stone_placed g x y)) with (stone g) in Hs2.
  pose proof (board_get_lookup beyond (gboard g) x y Hwf Hon) as Hl.
  rewrite He in Hl.
  destruct (offset_on_board (gboard g) x y Hwf Hon) as [_ Hoff].
  unfold driver_invariant, log_counts_stones, log_alternates.
  rewrite Hb, Hm.
  split; [apply store_well_formed; exact Hwf|].
  split.
  { rewrite length_app. unfold count_stones, store. simpl.
    rewrite Hoff, count_stones_insert; [| exact Hl |].
    - unfold log_counts_stones, count_stones in Hcnt. lia.
    - unfold BLACK_STONE, WHITE_STONE, EMPTY_INTERSECTION in *. lia. }
  split.
  { intros i m Hi.
    destruct (Nat.lt_ge_cases i (length (moves g))) as [Hlt|Hge].
    - rewrite lookup_app_l in Hi by exact Hlt. apply Halt. exact Hi.
    - rewrite lookup_app_r in Hi by exact Hge.
      destruct (i - length (moves g))%nat as [|n] eqn:Ei;
        [|destruct n; discriminate].
      injection Hi as <-. simpl.
      assert (i = length (moves g)) as -> by lia.
      apply Hturn. exact Hplay. }
  split; [exact Hs1|].
  intros Hp. rewrite (Hs2 Hp), (Hturn Hplay), length_app. simpl.
  rewrite Nat.add_1_r. apply turn_of_succ.
Qed.

Lemma played_invariant (g : game) : played g -> driver_invariant g.
Proof.
  induction 1 as [sz ty g Hc | beyond g x y r Hp IH Hs Hon Hr].
  - eapply new_game_invariant. exact Hc.
  - eapply place_keeps_invariant; eassumption.
Qed.


Lemma place_keeps_size (beyond : Z -> Z) (g : game) (x y : Z)
      (r : bool * game) :
  game_place_stone beyond g x y = Ret r ->
  size (gboard (snd r)) = size (gboard g).
Proof.
  unfold game_place_stone.
  destruct (negb (board_get beyond (gboard g) x y =? EMPTY_INTERSECTION));
    [intros [= <-]; reflexivity|].
  unfold board_set. simpl.
  destruct (negb (stone g =? BLACK_STONE) && negb (stone g =? WHITE_STONE));
    [discriminate|].
  simpl. intros [= <-]. simpl.
  destruct (apply_rules_frame beyond
              (with_board (record_move g (mkMove x y (stone g)))
                          (store (gboard g) x y (stone g))) x y) as (-> & _).
  reflexivity.
Qed.

Lemma place_all_placed (beyond : Z -> Z) (ps : list (Z * Z)) :
  forall g g' : game,
    placed g ->
    all_on_board (size (gboard g)) ps = true ->
    place_all beyond g ps = Ret g' ->
    placed g'.
Proof.
  induction ps as [|[x y] ps IH]; intros g g' Hg Hb Hr; simpl in *.
  - injection Hr as <-. exact Hg.
  - apply andb_prop in Hb as [Hxy Hb].
    destruct (game_place_stone beyond g x y) as [r|] eqn:E; [|discriminate].
    simpl in Hr.
    apply (IH (snd r)); [| rewrite (place_keeps_size _ _ _ _ _ E); exact Hb
                         | exact Hr].
    eapply placed_place; [exact Hg | | exact E].
    unfold on_board. simpl in Hxy.
    repeat (apply andb_prop in Hxy; destruct Hxy as [Hxy ?]). lia.
Qed.

(** C9, as stated, fails.  [game_place_stone] does not look at the
    state: after Black has won with (4, 0), a further call places a
    second Black stone in a row, and the move at index 9 is Black's. *)
Lemma move_log_alternation_lost_after_win :
  ~ (forall g : game, placed g -> log_counts_stones g /\ log_alternates g).
Proof.
  intros H.
  destruct (place_all zero_memory (new_game 15 GAME_FREESTYLE)
                      (black_wins_row_0 ++ [(10, 10)])) as [g'|] eqn:E;
    [|vm_compute in E; discriminate].
  assert (Hg : placed g').
  { apply (place_all_placed zero_memory (black_wins_row_0 ++ [(10, 10)])
                            (new_game 15 GAME_FREESTYLE)).
    - apply (placed_new 15 GAME_FREESTYLE). reflexivity.
    - vm_compute. reflexivity.
    - exact E. }
  destruct (H _ Hg) as [_ Ha].
  vm_compute in E. injection E as <-.
  specialize (Ha 9%nat (mkMove 10 10 BLACK_STONE) eq_refl).
  discriminate.
Qed.

(** ** Occupied intersections *)

(** C7.  A placement on an intersection that already holds a stone is
    refused: the call returns false and the game it returns is the game
    it received, so the grid, the move log and its count, the state,
    the winner and the colour to move are unchanged. *)
Theorem occupied_cell_rejected (beyond : Z -> Z) (g : game) (x y st : Z) :
  well_formed (gboard g) ->
  st <> EMPTY_INTERSECTION ->
  cell_is (gboard g) x y st = true ->
  game_place_stone beyond g x y = Ret (false, g).
Proof.
  intros Hwf Hst Hc. apply place_on_occupied.
  rewrite (board_get_cell_is beyond _ _ _ _ Hwf Hc). exact Hst.
Qed.

(** ** Double four *)

(** C1 fails on the code.  Renju, 15x15: Black has (7,5) (7,7) (7,8)
    and (5,6) (6,6) (8,6), White has (8,8) among others, and Black
    plays (7,6).  The column 7 now holds four Black stones with (7,4)
    and (7,9) empty, the row 6 holds four with (4,6) and (9,6) empty,
    and there is no five.  The vertical scan tests (8,8) and (3,8)
    instead of the ends of the column, finds the White stone, and
    counts one open four only: the game goes on. *)
Theorem double_open_four_missed :
  exists g g' : game,
    play zero_memory (new_game 15 GAME_RENJU) double_four_opening = Some g
    /\ stone g = BLACK_STONE
    /\ game_place_stone zero_memory g 7 6 = Ret (true, g')
    /\ spec_open_four (gboard g') BLACK_STONE Vertical 7 5 = true
    /\ spec_open_four (gboard g') BLACK_STONE Horizontal 5 6 = true
    /\ has_run (gboard g') BLACK_STONE 5 7 6 = false
    /\ open_fours zero_memory (stone_placed g 7 6) 7 6 = 1
    /\ state g' = GAME_STATE_PLAYING
    /\ winner g' = EMPTY_INTERSECTION.
Proof.
  eexists. eexists.
  split; [vm_compute; reflexivity|].
  split; [reflexivity|].
  split; [vm_compute; reflexivity|].
  repeat split; vm_compute; reflexivity.
Qed.

(** With (13,1) in place of (8,8) for White, the same placement is
    found forbidden. *)
Lemma double_open_four_found :
  exists g g' : game,
    play zero_memory (new_game 15 GAME_RENJU)
         ((7, 5) :: (13, 1) :: tl (tl double_four_opening)) = Some g
    /\ game_place_stone zero_memory g 7 6 = Ret (true, g')
    /\ state g' = GAME_STATE_FORBIDDEN
    /\ winner g' = WHITE_STONE.
Proof.
  eexists. eexists.
  split; [vm_compute; reflexivity|].
  split; [vm_compute; reflexivity|].
  split; reflexivity.
Qed.

(** ** Save files *)

(** C2 fails on the code.  Renju, 15x15, the game [black_wins_row_8]:
    Black wins, the file says so, and [game_import] starts its replay
    with [winner] already set to Black.  At Black's fifth move, (14,2),
    [overline] is therefore consulted; it counts the three stones that
    end row 2 and carries the count into the diagonal (12,0) (13,1)
    (14,2), reaches six and reports an overline.  The colour to move
    stays Black, every later stone is placed with the wrong colour, and
    the imported game is won by White. *)
Theorem import_of_export_differs :
  exists g g' : game,
    play zero_memory (new_game 15 GAME_RENJU) black_wins_row_8 = Some g
    /\ state g = GAME_STATE_FINISHED
    /\ winner g = BLACK_STONE
    /\ game_import zero_memory (game_export zero_stack g) = Ret g'
    /\ winner g' = WHITE_STONE
    /\ cell_is (gboard g) 7 8 BLACK_STONE = true
    /\ cell_is (gboard g') 7 8 WHITE_STONE = true.
Proof.
  eexists. eexists.
  split; [vm_compute; reflexivity|].
  split; [reflexivity|].
  split; [reflexivity|].
  split; [vm_compute; reflexivity|].
  repeat split; vm_compute; reflexivity.
Qed.

Lemma round_trip_fails :
  ~ (forall (beyond : Z -> Z) (stack : string) (ps : list (Z * Z)) (g : game),
        play beyond (new_game 15 GAME_RENJU) ps = Some g ->
        state g <> GAME_STATE_PLAYING ->
        exists g', game_import beyond (game_export stack g) = Ret g'
                   /\ same_position g g').
Proof.
  intros H.
  destruct (play zero_memory (new_game 15 GAME_RENJU) black_wins_row_8)
    as [g|] eqn:Hplay; [|vm_compute in Hplay; discriminate].
  destruct (H zero_memory zero_stack _ g Hplay)
    as (g' & Himp & _ & _ & _ & Hsame);
    vm_compute in Hplay; injection Hplay as <-.
  - discriminate.
  - vm_compute in Himp. injection Himp as <-. discriminate.
Qed.

(** ** Lines of five *)

(** C3 fails on the code.  Freestyle, 15x15: Black has (1,14) (2,13)
    (3,12) and plays (4,11).  The scan of the rising diagonal starts
    at (0,15), one row below the board, which is the first byte behind
    the grid.  When that byte is 1, it is counted as a Black stone and
    the fourth stone on the board is taken for the fifth of a line. *)
Theorem four_in_row_wins_with_stray_byte :
  exists g g' : game,
    play (one_then_zero 15) (new_game 15 GAME_FREESTYLE) diagonal_three = Some g
    /\ stone g = BLACK_STONE
    /\ game_place_stone (one_then_zero 15) g 4 11 = Ret (true, g')
    /\ has_run (gboard g') BLACK_STONE 5 4 11 = false
    /\ any_run (gboard g') BLACK_STONE 5 = false
    /\ state g' = GAME_STATE_FINISHED
    /\ winner g' = BLACK_STONE.
Proof.
  eexists. eexists.
  split; [vm_compute; reflexivity|].
  split; [reflexivity|].
  split; [vm_compute; reflexivity|].
  repeat split; vm_compute; reflexivity.
Qed.

(** The same placement with zeros behind the grid is no win. *)
Lemma four_in_row_no_win_with_zero_bytes :
  exists g g' : game,
    play zero_memory (new_game 15 GAME_FREESTYLE) diagonal_three = Some g
    /\ game_place_stone zero_memory g 4 11 = Ret (true, g')
    /\ state g' = GAME_STATE_PLAYING
    /\ winner g' = EMPTY_INTERSECTION.
Proof.
  eexists. eexists.
  split; [vm_compute; reflexivity|].
  split; [vm_compute; reflexivity|].
  split; reflexivity.
Qed.

(** ** Full boards *)

(** C5 fails on the code.  Renju, 15x15, the game [drawn_game]: its
    225th stone is Black's and fills the board, no line of five exists,
    and the state stays [GAME_STATE_PLAYING]: the branch of
    [game_place_stone] for Black in Renju never tests
    [board_is_full]. *)
Theorem renju_full_board_not_drawn :
  exists g g' : game,
    play zero_memory (new_game 15 GAME_RENJU) drawn_game_but_last = Some g
    /\ stone g = BLACK_STONE
    /\ game_place_stone zero_memory g 13 14 = Ret (true, g')
    /\ board_is_full zero_memory (gboard g') = true
    /\ has_run (gboard g') BLACK_STONE 5 13 14 = false
    /\ line_win zero_memory (stone_placed g 13 14) 13 14 = false
    /\ state g' = GAME_STATE_PLAYING
    /\ winner g' = EMPTY_INTERSECTION.
Proof.
  eexists. eexists.
  split; [vm_compute; reflexivity|].
  split; [reflexivity|].
  split; [vm_compute; reflexivity|].
  repeat split; vm_compute; reflexivity.
Qed.

(** The same game in Freestyle ends as a draw. *)
Lemma freestyle_full_board_drawn :
  exists g g' : game,
    play zero_memory (new_game 15 GAME_FREESTYLE) drawn_game_but_last = Some g
    /\ game_place_stone zero_memory g 13 14 = Ret (true, g')
    /\ state g' = GAME_STATE_FINISHED
    /\ winner g' = EMPTY_INTERSECTION.
Proof.
  eexists. eexists.
  split; [vm_compute; reflexivity|].
  split; [vm_compute; reflexivity|].
  split; reflexivity.
Qed.

(** ** Coordinates *)

Local Open Scope string_scope.

(** C6 fails on the code.  Size 15, (0, 0), which is row 15: the
    conversion writes 'A', '1', '5' and no terminator.  With a
    [formal_coord] array that held "zzzz", the string it leaves is
    "A15z", and [board_coord] rejects it. *)
Theorem formal_coord_unterminated :
  board_formal_coord (gboard (new_game 15 GAME_FREESTYLE)) 0 0 "zzzz"
  = (SUCCESS, "A15z")
  /\ board_coord (gboard (new_game 15 GAME_FREESTYLE)) "A15z" = None.
Proof. split; reflexivity. Qed.

(** C8 fails on the code.  Size 15: "A5x" is a letter, a row number
    and a character that is not a digit, three characters in all.
    [%d] stops in front of the 'x', [sscanf] returns 2, and the text is
    accepted as (0, 10). *)
Theorem coordinate_with_trailing_letter_accepted :
  board_coord (gboard (new_game 15 GAME_FREESTYLE)) "A5x" = Some (0, 10)%Z.
Proof. reflexivity. Qed.

Lemma coordinate_with_sign_or_space_accepted :
  board_coord (gboard (new_game 15 GAME_FREESTYLE)) "A+5" = Some (0, 10)%Z
  /\ board_coord (gboard (new_game 15 GAME_FREESTYLE)) "A 5" = Some (0, 10)%Z.
Proof. split; reflexivity. Qed.

Local Close Scope string_scope.

(** ** Reads outside the grid *)

(** C10 fails on the code.  The first move of any 15x15 game, at
    (0, 0): the scan of the rising diagonal reads (0, 0), decrements
    the [unsigned char] row to 255 and reads (1, 255), whatever the
    memory behind the grid holds. *)
Theorem first_move_reads_off_board (beyond : Z -> Z) (game_type : Z) :
  existsb (off_board 15)
          (game_place_stone_reads beyond (new_game 15 game_type) 0 0) = true
  /\ nth 47 (game_place_stone_reads beyond (new_game 15 GAME_FREESTYLE) 0 0)
          (0, 0) = (1, 255).
Proof.
  split.
  - unfold game_place_stone_reads.
    change (board_get beyond (gboard (new_game 15 game_type)) 0 0)
      with EMPTY_INTERSECTION.
    cbn [negb Z.eqb EMPTY_INTERSECTION].
    unfold rule_reads, board_set. cbn [stone new_game move_stone].
    change (negb (BLACK_STONE =? BLACK_STONE) && negb (BLACK_STONE =? WHITE_STONE))
      with false. cbv iota.
    destruct ((type _ =? GAME_RENJU) && (stone _ =? BLACK_STONE)).
    + unfold doubleOpenFours_reads. vm_compute. reflexivity.
    + vm_compute. reflexivity.
  - vm_compute. reflexivity.
Qed.

(** ** Scans and runs *)

Lemma cell_eqb_eq (p q : Z * Z) : cell_eqb p q = true -> p = q.
Proof.
  destruct p as [a b], q as [c d]. unfold cell_eqb. simpl. intros H.
  apply andb_prop in H as [H1 H2].
  apply Z.eqb_eq in H1, H2. congruence.
Qed.

Lemma is_prefix_spec (s l : list (Z * Z)) :
  is_prefix s l = true -> exists post, l = s ++ post.
Proof.
  revert l. induction s as [|p s IH]; intros l H.
  - exists l. reflexivity.
  - destruct l as [|q l]; simpl in H; [discriminate|].
    apply andb_prop in H as [Hpq Hs].
    apply cell_eqb_eq in Hpq as ->.
    destruct (IH l Hs) as [post ->]. exists post. reflexivity.
Qed.

Lemma is_infix_spec (s l : list (Z * Z)) :
  is_infix s l = true -> exists pre post, l = pre ++ s ++ post.
Proof.
  induction l as [|q l IH]; simpl; intros H.
  - rewrite orb_false_r in H. apply is_prefix_spec in H as [post ->].
    exists [], post. reflexivity.
  - apply orb_prop in H as [H|H].
    + apply is_prefix_spec in H as [post ->]. exists [], post. reflexivity.
    + destruct (IH H) as (pre & post & ->). exists (q :: pre), post. reflexivity.
Qed.

Lemma in_seqZ (k n : Z) : 0 <= k < n -> In k (seqZ 0 n).
Proof. intros H. apply list_elem_of_In, elem_of_seqZ. lia. Qed.

Lemma in_axes (a : axis) : In a axes.
Proof. destruct a; simpl; auto. Qed.

Lemma scan_covers_spec (sz n : Z) (a : axis) (x y k : Z) :
  scan_covers sz n = true ->
  0 <= x < sz -> 0 <= y < sz -> 0 <= k < n ->
  (forall p,
      In p (segment a (fst (segment_start a x y k))
                    (snd (segment_start a x y k)) n) ->
      0 <= fst p < sz /\ 0 <= snd p < sz) ->
  exists pre post,
    axis_cells a sz x y
    = pre ++ segment a (fst (segment_start a x y k))
                     (snd (segment_start a x y k)) n ++ post.
Proof.
  intros H Hx Hy Hk Hseg. unfold scan_covers in H.
  rewrite List.forallb_forall in H. specialize (H x (in_seqZ _ _ Hx)).
  rewrite List.forallb_forall in H. specialize (H y (in_seqZ _ _ Hy)).
  rewrite List.forallb_forall in H. specialize (H a (in_axes a)).
  rewrite List.forallb_forall in H. specialize (H k (in_seqZ _ _ Hk)).
  unfold scan_covers_at in H. simpl in H.
  apply is_infix_spec.
  destruct (is_infix _ _); [reflexivity|].
  rewrite implb_false_r in H. apply negb_true_iff in H.
  exfalso. apply not_true_iff_false in H. apply H.
  apply List.forallb_forall. intros p Hp.
  destruct (Hseg p Hp) as [Hpx Hpy].
  apply andb_true_intro; split; [|apply Z.ltb_lt; lia].
  apply andb_true_intro; split; [|apply Z.leb_le; lia].
  apply andb_true_intro; split; [apply Z.leb_le | apply Z.ltb_lt]; lia.
Qed.

(** The six facts are checked by running the loops on every
    intersection of the three boards. *)
Lemma scan_covers_boards (sz : Z) :
  valid_size sz -> scan_covers sz 5 = true /\ scan_covers sz 6 = true.
Proof.
  intros [-> | [-> | ->]]; split; vm_compute; reflexivity.
Qed.

Lemma segment_length (a : axis) (x0 y0 n : Z) :
  length (segment a x0 y0 n) = Z.to_nat n.
Proof. unfold segment. rewrite List.length_map. apply length_seqZ. Qed.

Section Counting.

Variable beyond : Z -> Z.

Lemma count_line_block (b : board) (st need : Z) (blk post : list (Z * Z)) :
  forall c : Z,
    0 <= c < need ->
    (forall p, In p blk -> board_get beyond b (fst p) (snd p) = st) ->
    need - c <= Z.of_nat (length blk) ->
    fst (count_line beyond b st need (blk ++ post) c) = true.
Proof.
  induction blk as [|[cx cy] blk IH]; intros c Hc Hall Hlen; simpl in *.
  - lia.
  - pose proof (Hall (cx, cy) (or_introl eq_refl)) as Hh. simpl in Hh.
    rewrite Hh, Z.eqb_refl.
    destruct (c + 1 =? need) eqn:E; [reflexivity|].
    apply Z.eqb_neq in E.
    apply IH; [lia | intros p Hp; apply Hall; right; exact Hp | lia].
Qed.

(** A scan that meets [need] stones in a row reports them, from any
    count below [need]. *)
Lemma count_line_hit (b : board) (st need : Z) (pre blk post : list (Z * Z)) :
  forall c : Z,
    0 <= c < need ->
    (forall p, In p blk -> board_get beyond b (fst p) (snd p) = st) ->
    need <= Z.of_nat (length blk) ->
    fst (count_line beyond b st need (pre ++ blk ++ post) c) = true.
Proof.
  induction pre as [|[cx cy] pre IH]; intros c Hc Hall Hlen; simpl.
  - apply count_line_block; [exact Hc | exact Hall | lia].
  - destruct (board_get beyond b cx cy =? st).
    + destruct (c + 1 =? need) eqn:E; [reflexivity|].
      apply Z.eqb_neq in E. apply IH; [lia | exact Hall | exact Hlen].
    + apply IH; [lia | exact Hall | exact Hlen].
Qed.

(** A scan that reports nothing ends with a count below [need]. *)
Lemma count_line_miss (b : board) (st need : Z) (cells : list (Z * Z)) :
  forall c : Z,
    0 <= c < need ->
    fst (count_line beyond b st need cells c) = false ->
    0 <= snd (count_line beyond b st need cells c) < need.
Proof.
  induction cells as [|[cx cy] cells IH]; intros c Hc H; simpl in *.
  - exact Hc.
  - destruct (board_get beyond b cx cy =? st).
    + destruct (c + 1 =? need) eqn:E; [discriminate|].
      apply Z.eqb_neq in E. apply IH; [lia | exact H].
    + apply IH; [lia | exact H].
Qed.

Lemma run_at_cells (b : board) (st n : Z) (a : axis) (x0 y0 : Z) :
  well_formed b ->
  run_at b st n a x0 y0 = true ->
  forall p, In p (segment a x0 y0 n) ->
    board_get beyond b (fst p) (snd p) = st
    /\ 0 <= fst p < size b /\ 0 <= snd p < size b.
Proof.
  intros Hwf H p Hp. unfold run_at in H.
  rewrite List.forallb_forall in H. specialize (H p Hp).
  split; [apply board_get_cell_is; assumption|].
  apply cell_is_on_board in H as [[? ?] _]. split; assumption.
Qed.

(** The scan of an axis reports a run of [n] stones through
    [(x, y)], for [need] up to [n]. *)
Lemma axis_scan_hits (b : board) (st n need : Z) (a : axis) (x y k c : Z) :
  well_formed b -> on_board b x y ->
  n = 5 \/ n = 6 -> 0 <= k < n -> 0 <= c < need -> need <= n ->
  run_at b st n a (fst (segment_start a x y k))
         (snd (segment_start a x y k)) = true ->
  fst (count_line beyond b st need (axis_cells a (size b) x y) c) = true.
Proof.
  intros Hwf [Hx Hy] Hn Hk Hc Hneed Hrun.
  pose proof (run_at_cells _ _ _ _ _ _ Hwf Hrun) as Hcells.
  destruct (scan_covers_boards (size b) (proj1 Hwf)) as [H5 H6].
  assert (Hcov : scan_covers (size b) n = true)
    by (destruct Hn as [-> | ->]; assumption).
  destruct (scan_covers_spec (size b) n a x y k Hcov Hx Hy Hk)
    as (pre & post & ->).
  { intros p Hp. apply (Hcells p Hp). }
  apply count_line_hit; [exact Hc | intros p Hp; apply (Hcells p Hp) |].
  rewrite segment_length. lia.
Qed.

Lemma has_run_axis (b : board) (st n x y : Z) :
  has_run b st n x y = true ->
  exists a k, 0 <= k < n
    /\ run_at b st n a (fst (segment_start a x y k))
              (snd (segment_start a x y k)) = true.
Proof.
  unfold has_run. intros H.
  apply List.existsb_exists in H as (a & _ & H).
  apply List.existsb_exists in H as (k & Hk & H).
  apply list_elem_of_In, elem_of_seqZ in Hk.
  exists a, k. split; [lia | exact H].
Qed.

Lemma line_win_axis (g : game) (x y : Z) (a : axis) :
  fst (count_line beyond (gboard g) (stone g) NEEDED_CONNECTIONS
                  (axis_cells a (size (gboard g)) x y) 0) = true ->
  line_win beyond g x y = true.
Proof.
  intros H. unfold line_win, verticalWin, horizontalWin, diagonalDownWin,
              diagonalUpWin.
  destruct a; simpl in H; rewrite H; rewrite ?orb_true_r; reflexivity.
Qed.

Lemma overline_axis (g : game) (x y : Z) (a : axis) :
  (forall c, 0 <= c < NEEDED_CONNECTIONS + 1 ->
     fst (count_line beyond (gboard g) (stone g) (NEEDED_CONNECTIONS + 1)
                     (axis_cells a (size (gboard g)) x y) c) = true) ->
  overline beyond g x y = true.
Proof.
  intros H. unfold overline.
  assert (H0 : 0 <= 0 < NEEDED_CONNECTIONS + 1) by (unfold NEEDED_CONNECTIONS; lia).
  destruct (count_line beyond (gboard g) (stone g) (NEEDED_CONNECTIONS + 1)
              (column_cells (size (gboard g)) x) 0) as [h1 c1] eqn:E1.
  destruct h1; [reflexivity|].
  assert (a <> Vertical) as Hv.
  { intros ->. specialize (H 0 H0). simpl in H. rewrite E1 in H. discriminate. }
  destruct (count_line beyond (gboard g) (stone g) (NEEDED_CONNECTIONS + 1)
              (row_cells (size (gboard g)) y) 0) as [h2 c2] eqn:E2.
  destruct h2; [reflexivity|].
  assert (a <> Horizontal) as Hh.
  { intros ->. specialize (H 0 H0). simpl in H. rewrite E2 in H. discriminate. }
  assert (Hc2 : 0 <= c2 < NEEDED_CONNECTIONS + 1).
  { pose proof (count_line_miss (gboard g) (stone g) (NEEDED_CONNECTIONS + 1)
                  (row_cells (size (gboard g)) y) 0 H0) as Hm.
    rewrite E2 in Hm. apply Hm. reflexivity. }
  destruct (count_line beyond (gboard g) (stone g) (NEEDED_CONNECTIONS + 1)
              (diag_down_cells (size (gboard g)) x y) c2) as [h3 c3] eqn:E3.
  destruct h3; [reflexivity|].
  assert (a <> DiagonalDown) as Hd.
  { intros ->. specialize (H c2 Hc2). simpl in H. rewrite E3 in H. discriminate. }
  assert (Hc3 : 0 <= c3 < NEEDED_CONNECTIONS + 1).
  { pose proof (count_line_miss (gboard g) (stone g) (NEEDED_CONNECTIONS + 1)
                  (diag_down_cells (size (gboard g)) x y) c2 Hc2) as Hm.
    rewrite E3 in Hm. apply Hm. reflexivity. }
  destruct a; try contradiction.
  apply (H c3 Hc3).
Qed.

Lemma overline_same_board (g g' : game) (x y : Z) :
  gboard g' = gboard g -> stone g' = stone g ->
  overline beyond g' x y = overline beyond g x y.
Proof. intros Hb Hs. unfold overline. rewrite Hb, Hs. reflexivity. Qed.

(** A line of five through the stone just placed is found by
    [line_win], whatever lies behind the grid. *)
Lemma five_found (g : game) (x y : Z) :
  well_formed (gboard g) -> on_board (gboard g) x y ->
  has_run (gboard g) (stone g) 5 x y = true ->
  line_win beyond g x y = true.
Proof.
  intros Hwf Hon H. apply has_run_axis in H as (a & k & Hk & Hrun).
  apply (line_win_axis g x y a).
  apply (axis_scan_hits _ _ 5 _ a x y k); auto; unfold NEEDED_CONNECTIONS; lia.
Qed.

(** A line of six through the stone just placed is found by
    [line_win] and by [overline]. *)
Lemma six_found (g : game) (x y : Z) :
  well_formed (gboard g) -> on_board (gboard g) x y ->
  has_run (gboard g) (stone g) 6 x y = true ->
  line_win beyond g x y = true /\ overline beyond g x y = true.
Proof.
  intros Hwf Hon H. apply has_run_axis in H as (a & k & Hk & Hrun). split.
  - apply (line_win_axis g x y a).
    apply (axis_scan_hits _ _ 6 _ a x y k); auto; unfold NEEDED_CONNECTIONS; lia.
  - apply (overline_axis g x y a). intros c Hc.
    apply (axis_scan_hits _ _ 6 _ a x y k); auto; unfold NEEDED_CONNECTIONS; lia.
Qed.

End Counting.

(** ** Overline *)

(** The part of C4 that holds on the code.  Renju, Black to move on
    an empty intersection; [gp] is the
    game with the stone on the board and [g'] the game that
    [game_place_stone] returns.
    - If the stone completes six Black stones in a row on an axis, the
      result is [GAME_STATE_FORBIDDEN] with White as the winner.
    - If the line-win check fires and [overline] fires, the result is
      [GAME_STATE_FORBIDDEN] with White as the winner; if [overline]
      does not fire, it stays [GAME_STATE_FINISHED] with Black.
    - If the line-win check does not fire, in a game whose winner was
      not already Black, [overline] plays no part: the result is what
      the double-four step left, with White to move. *)
Theorem overline_is_forbidden (beyond : Z -> Z) (g : game) (x y : Z) :
  well_formed (gboard g) ->
  type g = GAME_RENJU ->
  stone g = BLACK_STONE ->
  cell_is (gboard g) x y EMPTY_INTERSECTION = true ->
  let gp := stone_placed g x y in
  let g' := apply_rules beyond gp x y in
  game_place_stone beyond g x y = Ret (true, g')
  /\ (has_run (gboard gp) BLACK_STONE 6 x y = true ->
      state g' = GAME_STATE_FORBIDDEN /\ winner g' = WHITE_STONE)
  /\ (line_win beyond gp x y = true -> overline beyond gp x y = true ->
      state g' = GAME_STATE_FORBIDDEN /\ winner g' = WHITE_STONE)
  /\ (line_win beyond gp x y = true -> overline beyond gp x y = false ->
      state g' = GAME_STATE_FINISHED /\ winner g' = BLACK_STONE)
  /\ (winner g <> BLACK_STONE -> line_win beyond gp x y = false ->
      g' = with_stone (doubleOpenFours beyond gp x y) WHITE_STONE
      /\ winner g' <> BLACK_STONE).
Proof.
  intros Hwf Hty Hst Hcell gp g'.
  assert (Hon : on_board (gboard g) x y) by (apply (cell_is_on_board _ _ _ _ Hcell)).
  assert (Hget : board_get beyond (gboard g) x y = EMPTY_INTERSECTION)
    by (apply board_get_cell_is; assumption).
  assert (Hwf' : well_formed (gboard gp)) by (apply store_well_formed; exact Hwf).
  assert (Hon' : on_board (gboard gp) x y) by exact Hon.
  assert (Hst' : stone gp = BLACK_STONE) by exact Hst.
  assert (Hty' : type gp = GAME_RENJU) by exact Hty.
  assert (Hw' : winner gp = winner g) by reflexivity.
  split; [apply place_on_empty; [exact Hget | left; exact Hst]|].
  assert (Hfire : line_win beyond gp x y = true -> overline beyond gp x y = true ->
                  state g' = GAME_STATE_FORBIDDEN /\ winner g' = WHITE_STONE).
  { intros Hl Ho. subst g'. unfold apply_rules.
    rewrite Hty', Hst'. simpl.
    rewrite (overline_same_board beyond gp (doubleOpenFours beyond gp x y))
      by apply doubleOpenFours_frame.
    unfold doubleOpenFours. rewrite Hl, Hst', Ho. simpl. split; reflexivity. }
  split; [|split; [exact Hfire|split]].
  - intros H6. rewrite <- Hst' in H6.
    destruct (six_found beyond gp x y Hwf' Hon' H6) as [Hl Ho].
    exact (Hfire Hl Ho).
  - intros Hl Ho. subst g'. unfold apply_rules.
    rewrite Hty', Hst'. simpl.
    rewrite (overline_same_board beyond gp (doubleOpenFours beyond gp x y))
      by apply doubleOpenFours_frame.
    unfold doubleOpenFours. rewrite Hl, Hst', Ho. simpl. split; reflexivity.
  - intros Hw Hl. subst g'. unfold apply_rules.
    rewrite Hty', Hst'. simpl.
    assert (Hd : winner (doubleOpenFours beyond gp x y) <> BLACK_STONE).
    { unfold doubleOpenFours. rewrite Hl.
      destruct (ALLOWED_OPEN_FOURS <? open_fours beyond gp x y); simpl.
      - discriminate.
      - exact Hw. }
    apply Z.eqb_neq in Hd. rewrite Hd. simpl.
    split; [reflexivity | apply Z.eqb_neq; exact Hd].
Qed.

Lemma overline_is_forbidden_witness :
  play zero_memory (new_game 15 GAME_RENJU) gap_on_row_0
  = Some gap_on_row_0_game
  /\ exists g' : game,
      game_place_stone zero_memory gap_on_row_0_game 3 0 = Ret (true, g')
      /\ state g' = GAME_STATE_FORBIDDEN /\ winner g' = WHITE_STONE.
Proof.
  split; [vm_compute; reflexivity|].
  assert (Hwf : well_formed (gboard gap_on_row_0_game)).
  { split; [left; reflexivity | reflexivity]. }
  destruct (overline_is_forbidden zero_memory gap_on_row_0_game 3 0 Hwf
              eq_refl eq_refl eq_refl) as (Hplace & Hsix & _).
  eexists. split; [exact Hplace|].
  apply Hsix. vm_compute. reflexivity.
Defined.

Lemma occupied_cell_rejected_witness :
  game_place_stone zero_memory (new_game 15 GAME_FREESTYLE) 7 7
  = Ret (true, one_stone_game)
  /\ game_place_stone zero_memory one_stone_game 7 7
     = Ret (false, one_stone_game).
Proof.
  split; [vm_compute; reflexivity|].
  apply (occupied_cell_rejected zero_memory one_stone_game 7 7 BLACK_STONE).
  - split; [left; reflexivity | reflexivity].
  - discriminate.
  - reflexivity.
Defined.

(** ** More on lines of five and full boards *)

Section Outcomes.

Variable beyond : Z -> Z.

(** The half of C3 that holds on the code: outside the Renju rules
    for Black, a placement that completes five stones in a row on an
    axis ends the game at once with that colour as the winner,
    whatever lies behind the grid. *)
Lemma five_in_row_wins (g : game) (x y : Z) :
  well_formed (gboard g) ->
  stone g = BLACK_STONE \/ stone g = WHITE_STONE ->
  type g = GAME_FREESTYLE \/ (type g = GAME_RENJU /\ stone g = WHITE_STONE) ->
  cell_is (gboard g) x y EMPTY_INTERSECTION = true ->
  has_run (gboard (stone_placed g x y)) (stone g) 5 x y = true ->
  exists g' : game,
    game_place_stone beyond g x y = Ret (true, g')
    /\ state g' = GAME_STATE_FINISHED /\ winner g' = stone g.
Proof.
  intros Hwf Hst Hty Hcell H5.
  assert (Hon : on_board (gboard g) x y) by (apply (cell_is_on_board _ _ _ _ Hcell)).
  assert (Hget : board_get beyond (gboard g) x y = EMPTY_INTERSECTION)
    by (apply board_get_cell_is; assumption).
  exists (apply_rules beyond (stone_placed g x y) x y).
  split; [apply place_on_empty; assumption|].
  assert (Hl : line_win beyond (stone_placed g x y) x y = true).
  { apply five_found; [apply store_well_formed; exact Hwf | exact Hon | exact H5]. }
  unfold apply_rules. rewrite Hl.
  change (type (stone_placed g x y)) with (type g).
  change (stone (stone_placed g x y)) with (stone g).
  replace ((type g =? GAME_RENJU) && (stone g =? BLACK_STONE)) with false.
  - split; reflexivity.
  - destruct Hty as [-> | [-> ->]]; reflexivity.
Qed.

(** Outside the Renju rules for Black, a placement that fills the
    board without a line win ends the game and leaves the winner
    field as it was. *)
Lemma full_board_draw (g : game) (x y : Z) :
  stone g = BLACK_STONE \/ stone g = WHITE_STONE ->
  type g = GAME_FREESTYLE \/ (type g = GAME_RENJU /\ stone g = WHITE_STONE) ->
  board_get beyond (gboard g) x y = EMPTY_INTERSECTION ->
  line_win beyond (stone_placed g x y) x y = false ->
  board_is_full beyond (gboard (stone_placed g x y)) = true ->
  exists g' : game,
    game_place_stone beyond g x y = Ret (true, g')
    /\ state g' = GAME_STATE_FINISHED /\ winner g' = winner g.
Proof.
  intros Hst Hty Hget Hl Hfull.
  exists (apply_rules beyond (stone_placed g x y) x y).
  split; [apply place_on_empty; assumption|].
  unfold apply_rules. rewrite Hl, Hfull.
  change (type (stone_placed g x y)) with (type g).
  change (stone (stone_placed g x y)) with (stone g).
  replace ((type g =? GAME_RENJU) && (stone g =? BLACK_STONE)) with false.
  - split; reflexivity.
  - destruct Hty as [-> | [-> ->]]; reflexivity.
Qed.

(** For Black in Renju no placement ends in a draw: a game that was
    being played is afterwards still being played, finished with Black
    as the winner, or forbidden. *)
Lemma renju_black_never_draws (g : game) (x y : Z) (g' : game) :
  type g = GAME_RENJU -> stone g = BLACK_STONE ->
  state g = GAME_STATE_PLAYING ->
  game_place_stone beyond g x y = Ret (true, g') ->
  state g' = GAME_STATE_PLAYING
  \/ (state g' = GAME_STATE_FINISHED /\ winner g' = BLACK_STONE)
  \/ (state g' = GAME_STATE_FORBIDDEN /\ winner g' = WHITE_STONE).
Proof.
  intros Hty Hst Hplay. unfold game_place_stone.
  destruct (negb (board_get beyond (gboard g) x y =? EMPTY_INTERSECTION));
    [discriminate|].
  unfold board_set. rewrite Hst. simpl. intros [= <-].
  unfold apply_rules. simpl. rewrite Hty, Hst. simpl.
  unfold doubleOpenFours.
  destruct (line_win beyond _ x y); simpl; rewrite ?Hst; simpl.
  - destruct (overline beyond _ x y); simpl; rewrite ?Hst; auto.
  - destruct (ALLOWED_OPEN_FOURS <? open_fours beyond _ x y); simpl; auto.
    destruct ((winner g =? BLACK_STONE) && overline beyond _ x y); simpl; auto.
Qed.

End Outcomes.

(** ** Coordinates that are terminated *)

(** What C6 asks for holds when [formal_coord[3]] was zero before the
    call: the text is then terminated for every row. *)
Lemma formal_coord_round_trip_terminated (b : board) (x y : Z)
      (c0 c1 c2 : ascii) (rest : string) :
  valid_size (size b) -> on_board b x y ->
  exists out : string,
    board_formal_coord b x y (String c0 (String c1 (String c2 (String NUL rest))))
    = (SUCCESS, out)
    /\ board_coord b out = Some (x, y).
Proof.
  intros Hsz [Hx Hy].
  assert (H : round_trip_ok b (String c0 (String c1 (String c2 (String NUL rest))))
              = true).
  { destruct b as [sz gr]. simpl in Hsz.
    destruct Hsz as [-> | [-> | ->]]; vm_compute; reflexivity. }
  unfold round_trip_ok in H.
  rewrite List.forallb_forall in H. specialize (H x (in_seqZ _ _ Hx)).
  rewrite List.forallb_forall in H. specialize (H y (in_seqZ _ _ Hy)).
  destruct (board_formal_coord b x y _) as [[] out]; try discriminate.
  exists out. split; [reflexivity|].
  destruct (board_coord b out) as [[x' y']|]; [|discriminate].
  apply andb_prop in H as [H1 H2]. apply Z.eqb_eq in H1, H2. congruence.
Qed.

(** ** The loops run to their end *)

(** The unrolled loops stop because their condition fails, not because
    the bound is reached: [x] is an [unsigned char] and moves towards
    0, or towards the size of the board. *)
Lemma diag_down_top_exits (fuel : nat) :
  forall x y : Z,
    0 <= x < Z.of_nat fuel -> x < 256 ->
    (0 <? snd (diag_down_top fuel x y)) && (0 <? fst (diag_down_top fuel x y))
    = false.
Proof.
  induction fuel as [|fuel IH]; intros x y Hx Hx'; [lia|].
  simpl. destruct ((0 <? y) && (0 <? x)) eqn:E; [|exact E].
  apply andb_prop in E as [_ E]. apply Z.ltb_lt in E.
  rewrite (uchar_small (x - 1)) by lia.
  apply IH; lia.
Qed.

Lemma diag_up_bottom_exits (fuel : nat) (sz : Z) :
  forall x y : Z,
    0 <= x < Z.of_nat fuel -> x < 256 ->
    (snd (diag_up_bottom fuel sz x y) <? sz)
    && (0 <? fst (diag_up_bottom fuel sz x y)) = false.
Proof.
  induction fuel as [|fuel IH]; intros x y Hx Hx'; [lia|].
  simpl. destruct ((y <? sz) && (0 <? x)) eqn:E; [|exact E].
  apply andb_prop in E as [_ E]. apply Z.ltb_lt in E.
  rewrite (uchar_small (x - 1)) by lia.
  apply IH; lia.
Qed.

Lemma diag_down_walk_complete (fuel : nat) (sz : Z) :
  forall x y : Z,
    sz <= 255 -> 0 <= x -> sz - x <= Z.of_nat fuel ->
    diag_down_walk (S fuel) sz x y = diag_down_walk fuel sz x y.
Proof.
  induction fuel as [|fuel IH]; intros x y Hsz Hx Hf.
  - simpl. replace (x <? sz) with false by (symmetry; apply Z.ltb_ge; lia).
    rewrite andb_false_r. reflexivity.
  - change (diag_down_walk (S (S fuel)) sz x y)
      with (if (y <? sz) && (x <? sz)
            then (x, y) :: diag_down_walk (S fuel) sz (uchar (x + 1)) (uchar (y + 1))
            else []).
    change (diag_down_walk (S fuel) sz x y)
      with (if (y <? sz) && (x <? sz)
            then (x, y) :: diag_down_walk fuel sz (uchar (x + 1)) (uchar (y + 1))
            else []).
    destruct ((y <? sz) && (x <? sz)) eqn:E; [|reflexivity].
    apply andb_prop in E as [_ E]. apply Z.ltb_lt in E.
    rewrite (uchar_small (x + 1)) by lia.
    rewrite IH by lia. reflexivity.
Qed.

Lemma diag_up_walk_complete (fuel : nat) (sz : Z) :
  forall x y : Z,
    sz <= 255 -> 0 <= x -> sz - x <= Z.of_nat fuel ->
    diag_up_walk (S fuel) sz x y = diag_up_walk fuel sz x y.
Proof.
  induction fuel as [|fuel IH]; intros x y Hsz Hx Hf.
  - simpl. replace (x <? sz) with false by (symmetry; apply Z.ltb_ge; lia).
    rewrite andb_false_r. reflexivity.
  - change (diag_up_walk (S (S fuel)) sz x y)
      with (if (0 <=? y) && (x <? sz)
            then (x, y) :: diag_up_walk (S fuel) sz (uchar (x + 1)) (uchar (y - 1))
            else []).
    change (diag_up_walk (S fuel) sz x y)
      with (if (0 <=? y) && (x <? sz)
            then (x, y) :: diag_up_walk fuel sz (uchar (x + 1)) (uchar (y - 1))
            else []).
    destruct ((0 <=? y) && (x <? sz)) eqn:E; [|reflexivity].
    apply andb_prop in E as [_ E]. apply Z.ltb_lt in E.
    rewrite (uchar_small (x + 1)) by lia.
    rewrite IH by lia. reflexivity.
Qed.

(** Renju: Black completes four stones in column 0 at (0, 3).  The
    vertical scan of [doubleOpenFours] finds (1, 3) empty and then
    reads [x - connections], which is 252 as an [unsigned char]. *)
Lemma flank_read_underflows :
  exists g : game,
    play zero_memory (new_game 15 GAME_RENJU)
         [(0, 0); (5, 5); (0, 1); (7, 5); (0, 2); (9, 5)] = Some g
    /\ In (252, 3) (game_place_stone_reads zero_memory g 0 3).
Proof.
  eexists. split; [vm_compute; reflexivity|].
  vm_compute. tauto.
Qed.

(** ** No line of five, no win, when nothing behind the grid looks
    like a stone *)

Lemma cells_eqb_eq (l m : list (Z * Z)) : cells_eqb l m = true -> l = m.
Proof.
  revert m. induction l as [|p l IH]; intros [|q m] H; simpl in H;
    try discriminate; [reflexivity|].
  apply andb_prop in H as [H1 H2].
  apply cell_eqb_eq in H1 as ->. rewrite (IH m H2). reflexivity.
Qed.

Lemma in_windows (n : nat) (pre blk post : list (Z * Z)) :
  length blk = n -> (0 < n)%nat ->
  In blk (windows n (pre ++ blk ++ post)).
Proof.
  intros Hlen Hn. induction pre as [|p pre IH]; simpl.
  - destruct blk as [|q blk]; [simpl in Hlen; lia|].
    simpl. left. destruct n as [|n]; [lia|]. simpl. f_equal.
    simpl in Hlen. injection Hlen as Hlen.
    rewrite <- Hlen. rewrite firstn_app, Nat.sub_diag, firstn_all. simpl.
    apply app_nil_r.
  - right. exact IH.
Qed.

Lemma scan_on_axis_boards (sz : Z) : valid_size sz -> scan_on_axis sz 5 = true.
Proof. intros [-> | [-> | ->]]; vm_compute; reflexivity. Qed.

Section CleanMemory.

Variable beyond : Z -> Z.

(** A scan that reports a hit has met [need] stones in a row. *)
Lemma count_line_true_block (b : board) (st need : Z) (cells : list (Z * Z)) :
  forall (done run : list (Z * Z)) (c : Z),
    Z.of_nat (length run) = c ->
    (forall p, In p run -> board_get beyond b (fst p) (snd p) = st) ->
    fst (count_line beyond b st need cells c) = true ->
    exists pre blk post,
      done ++ run ++ cells = pre ++ blk ++ post
      /\ Z.of_nat (length blk) = need
      /\ (forall p, In p blk -> board_get beyond b (fst p) (snd p) = st).
Proof.
  induction cells as [|[cx cy] cells IH]; intros done run c Hc Hrun H;
    simpl in H; [discriminate|].
  destruct (board_get beyond b cx cy =? st) eqn:Eg.
  - apply Z.eqb_eq in Eg.
    assert (Hrun' : forall p, In p (run ++ [(cx, cy)]) ->
                              board_get beyond b (fst p) (snd p) = st).
    { intros p Hp. apply in_app_or in Hp as [Hp | [<- | []]];
        [apply Hrun; exact Hp | exact Eg]. }
    destruct (c + 1 =? need) eqn:En.
    + apply Z.eqb_eq in En.
      exists done, (run ++ [(cx, cy)]), cells.
      split; [rewrite <- app_assoc; reflexivity|].
      split; [rewrite length_app; simpl; lia | exact Hrun'].
    + destruct (IH done (run ++ [(cx, cy)]) (c + 1)) as (pre & blk & post & E & Hl & Hb).
      * rewrite length_app. simpl. lia.
      * exact Hrun'.
      * exact H.
      * exists pre, blk, post. rewrite <- app_assoc in E. auto.
  - destruct (IH (done ++ run ++ [(cx, cy)]) [] 0) as (pre & blk & post & E & Hl & Hb).
    + reflexivity.
    + intros p [].
    + exact H.
    + exists pre, blk, post. rewrite <- !app_assoc in E. auto.
Qed.

Hypothesis no_stone_behind : forall (st i : Z),
    st = BLACK_STONE \/ st = WHITE_STONE -> beyond i <> st.

Lemma scan_without_five (b : board) (st : Z) (a : axis) (x y : Z) :
  well_formed b -> on_board b x y ->
  st = BLACK_STONE \/ st = WHITE_STONE ->
  any_run b st 5 = false ->
  fst (count_line beyond b st NEEDED_CONNECTIONS
                  (axis_cells a (size b) x y) 0) = false.
Proof.
  intros Hwf [Hx Hy] Hst Hany.
  destruct (fst (count_line beyond b st NEEDED_CONNECTIONS
                            (axis_cells a (size b) x y) 0)) eqn:E;
    [|reflexivity].
  exfalso.
  destruct (count_line_true_block b st NEEDED_CONNECTIONS _ [] [] 0 eq_refl
              (fun p (H : In p []) => match H with end) E)
    as (pre & blk & post & Epath & Hlen & Hblk).
  simpl in Epath.
  pose proof (scan_on_axis_boards (size b) (proj1 Hwf)) as Hs.
  unfold scan_on_axis in Hs.
  rewrite List.forallb_forall in Hs. specialize (Hs x (in_seqZ _ _ Hx)).
  rewrite List.forallb_forall in Hs. specialize (Hs y (in_seqZ _ _ Hy)).
  rewrite List.forallb_forall in Hs. specialize (Hs a (in_axes a)).
  unfold scan_on_axis_at in Hs. apply andb_prop in Hs as [Hcells Hwin].
  rewrite Epath in Hcells, Hwin.
  rewrite List.forallb_forall in Hcells, Hwin.
  assert (Hon : forall p, In p blk -> on_boardb (size b) p = true).
  { intros p Hp.
    specialize (Hcells p (in_or_app _ _ _ (or_intror (in_or_app _ _ _ (or_introl Hp))))).
    apply orb_prop in Hcells as [H|H]; [exact H|]. exfalso.
    apply Z.leb_le in H.
    apply (no_stone_behind st (uchar (snd p) * size b + uchar (fst p)) Hst).
    rewrite <- (Hblk p Hp). unfold board_get, grid_at.
    destruct (grid b !! _) as [v|] eqn:El; [|reflexivity].
    apply lookup_lt_Some in El. destruct Hwf as [_ Hl]. rewrite Hl in El.
    apply Nat2Z.inj_lt in El.
    pose proof (Z.mod_pos_bound (snd p) 256 ltac:(lia)) as ?.
    pose proof (Z.mod_pos_bound (fst p) 256 ltac:(lia)) as ?.
    unfold uchar in *.
    rewrite !Z2Nat.id in El by nia. lia. }
  assert (Hn : length blk = Z.to_nat 5)
    by (unfold NEEDED_CONNECTIONS in Hlen; lia).
  specialize (Hwin blk (in_windows _ pre blk post Hn ltac:(simpl; lia))).
  replace (forallb (on_boardb (size b)) blk) with true in Hwin
    by (symmetry; apply List.forallb_forall; exact Hon).
  replace (Z.of_nat (length blk) =? 5) with true in Hwin
    by (symmetry; apply Z.eqb_eq; rewrite Hn; reflexivity).
  simpl in Hwin. apply cells_eqb_eq in Hwin.
  destruct blk as [|p0 blk']; [discriminate|].
  simpl (hd _ _) in Hwin.
  apply not_true_iff_false in Hany. apply Hany.
  unfold any_run. apply List.existsb_exists.
  exists p0. split.
  - pose proof (Hon p0 (or_introl eq_refl)) as H0. unfold on_boardb in H0.
    repeat (apply andb_prop in H0; destruct H0 as [H0 ?]).
    apply in_flat_map. exists (snd p0). split; [apply in_seqZ; lia|].
    apply in_map_iff. exists (fst p0).
    split; [destruct p0; reflexivity | apply in_seqZ; lia].
  - apply List.existsb_exists. exists a. split; [apply in_axes|].
    unfold run_at. rewrite <- Hwin. apply List.forallb_forall. intros p Hp.
    pose proof (Hon p Hp) as H1. pose proof (Hblk p Hp) as H2.
    unfold on_boardb in H1. unfold cell_is. rewrite H1. simpl.
    repeat (apply andb_prop in H1; destruct H1 as [H1 ?]).
    rewrite (board_get_lookup beyond b (fst p) (snd p) Hwf) by (split; lia).
    rewrite H2. apply Z.eqb_refl.
Qed.

(** When no byte behind the grid has the value of a stone, a
    placement that leaves no five stones of its colour in a row on the
    board is not a line win. *)
Lemma no_five_no_line_win (g : game) (x y : Z) :
  well_formed (gboard g) -> on_board (gboard g) x y ->
  stone g = BLACK_STONE \/ stone g = WHITE_STONE ->
  any_run (gboard g) (stone g) 5 = false ->
  line_win beyond g x y = false.
Proof.
  intros Hwf Hon Hst Hany.
  unfold line_win, verticalWin, horizontalWin, diagonalDownWin, diagonalUpWin.
  pose proof (scan_without_five _ _ Vertical x y Hwf Hon Hst Hany) as Hv.
  pose proof (scan_without_five _ _ Horizontal x y Hwf Hon Hst Hany) as Hh.
  pose proof (scan_without_five _ _ DiagonalDown x y Hwf Hon Hst Hany) as Hd.
  pose proof (scan_without_five _ _ DiagonalUp x y Hwf Hon Hst Hany) as Hu.
  simpl in Hv, Hh, Hd, Hu. rewrite Hv, Hh, Hd, Hu. reflexivity.
Qed.

End CleanMemory.

(** The half of C3 about four stones, under the condition that the
    code does not provide: outside the Renju rules for Black, and with
    no byte behind the grid that has the value of a stone, a placement
    that leaves no five stones of its colour in a row on the board
    does not set the winner. *)
Lemma no_five_no_winner (beyond : Z -> Z) (g : game) (x y : Z) :
  (forall st i : Z, st = BLACK_STONE \/ st = WHITE_STONE -> beyond i <> st) ->
  well_formed (gboard g) ->
  stone g = BLACK_STONE \/ stone g = WHITE_STONE ->
  type g = GAME_FREESTYLE \/ (type g = GAME_RENJU /\ stone g = WHITE_STONE) ->
  cell_is (gboard g) x y EMPTY_INTERSECTION = true ->
  any_run (gboard (stone_placed g x y)) (stone g) 5 = false ->
  exists g' : game,
    game_place_stone beyond g x y = Ret (true, g')
    /\ winner g' = winner g.
Proof.
  intros Hclean Hwf Hst Hty Hcell Hany.
  assert (Hon : on_board (gboard g) x y) by (apply (cell_is_on_board _ _ _ _ Hcell)).
  assert (Hget : board_get beyond (gboard g) x y = EMPTY_INTERSECTION)
    by (apply board_get_cell_is; assumption).
  exists (apply_rules beyond (stone_placed g x y) x y).
  split; [apply place_on_empty; assumption|].
  assert (Hl : line_win beyond (stone_placed g x y) x y = false).
  { apply no_five_no_line_win;
      [exact Hclean | apply store_well_formed; exact Hwf | exact Hon
       | exact Hst | exact Hany]. }
  unfold apply_rules. rewrite Hl.
  change (type (stone_placed g x y)) with (type g).
  change (stone (stone_placed g x y)) with (stone g).
  replace ((type g =? GAME_RENJU) && (stone g =? BLACK_STONE)) with false
    by (destruct Hty as [-> | [-> ->]]; reflexivity).
  destruct (board_is_full beyond _); reflexivity.
Qed.

(** ** The read lists follow the scans *)

(** The reads of a counting loop are the coordinates of the cells it
    visits before it leaves, and the loop over those cells alone gives
    the same result. *)
Lemma count_line_reads_prefix (beyond : Z -> Z) (b : board) (st need : Z)
      (cells : list (Z * Z)) :
  forall c : Z,
    exists n : nat,
      count_line_reads beyond b st need cells c
      = map (fun p => coord (fst p) (snd p)) (firstn n cells)
      /\ count_line beyond b st need (firstn n cells) c
         = count_line beyond b st need cells c.
Proof.
  induction cells as [|[cx cy] cells IH]; intros c.
  - exists O. split; reflexivity.
  - simpl. destruct (board_get beyond b cx cy =? st) eqn:Eg.
    + destruct (c + 1 =? need) eqn:En.
      * exists 1%nat. simpl. rewrite Eg, En. split; reflexivity.
      * destruct (IH (c + 1)) as (n & Hr & Hc). exists (S n). simpl.
        rewrite Eg, En, Hr, Hc. split; reflexivity.
    + destruct (IH 0) as (n & Hr & Hc). exists (S n). simpl.
      rewrite Eg, Hr, Hc. split; reflexivity.
Qed.

(** ** Round trips that succeed *)

Lemma c_str_idem (s : string) : c_str (c_str s) = c_str s.
Proof.
  induction s as [|c s IH]; simpl; [reflexivity|].
  destruct (ord c =? 0) eqn:E; simpl; [reflexivity|].
  rewrite E, IH. reflexivity.
Qed.

Lemma board_coord_c_str (b : board) (s : string) :
  board_coord b (c_str s) = board_coord b s.
Proof. unfold board_coord, strlen. rewrite !c_str_idem. reflexivity. Qed.

Lemma board_coord_size (b b' : board) (s : string) :
  size b = size b' -> board_coord b s = board_coord b' s.
Proof. intros H. unfold board_coord. rewrite H. reflexivity. Qed.

Lemma board_formal_coord_terminated (b : board) (x y : Z) (buf : string) :
  terminated buf -> terminated (snd (board_formal_coord b x y buf)).
Proof.
  intros (c0 & c1 & c2 & rest & ->). unfold board_formal_coord.
  destruct ((size b <=? x) || (size b <=? y) || (x <? 0) || (y <? 0));
    [simpl; repeat eexists|].
  destruct (uchar (size b - y) <? LOWEST_TWO_DIGITS); simpl;
    unfold terminated; eauto 10.
Qed.

Section RoundTrip.

Variable beyond : Z -> Z.

Lemma export_then_import (b : board) (ms : list move) :
  valid_size (size b) ->
  forall (buf : string) (g : game),
    terminated buf ->
    size (gboard g) = size b ->
    all_on_board (size b) (coords_of ms) = true ->
    import_moves beyond g (export_moves b ms buf)
    = place_all beyond g (coords_of ms).
Proof.
  intros Hsz. induction ms as [|m ms IH]; intros buf g Hbuf Hg Hon;
    [reflexivity|].
  simpl in Hon. apply andb_prop in Hon as [Hm Hon].
  assert (Hxy : on_board b (move_x m) (move_y m)).
  { unfold on_board.
    repeat (apply andb_prop in Hm; destruct Hm as [Hm ?]). simpl in *. lia. }
  pose proof (board_formal_coord_terminated b (move_x m) (move_y m) buf Hbuf)
    as Hbuf'.
  destruct Hbuf as (c0 & c1 & c2 & rest & ->).
  destruct (formal_coord_round_trip_terminated b (move_x m) (move_y m)
              c0 c1 c2 rest Hsz Hxy) as (out & Hout & Hparse).
  simpl. rewrite Hout in *. simpl in Hbuf'. cbn [import_moves].
  rewrite board_coord_c_str, (board_coord_size _ b) by exact Hg.
  rewrite Hparse.
  destruct (game_place_stone beyond g (move_x m) (move_y m)) as [r|] eqn:E;
    [|reflexivity].
  simpl. apply IH; [exact Hbuf' | | exact Hon].
  rewrite (place_keeps_size _ _ _ _ _ E). exact Hg.
Qed.

Lemma line_win_same_board (g g' : game) (x y : Z) :
  gboard g' = gboard g -> stone g' = stone g ->
  line_win beyond g' x y = line_win beyond g x y.
Proof.
  intros Hb Hs.
  unfold line_win, verticalWin, horizontalWin, diagonalDownWin, diagonalUpWin.
  rewrite Hb, Hs. reflexivity.
Qed.

Lemma open_fours_same_board (g g' : game) (x y : Z) :
  gboard g' = gboard g -> stone g' = stone g ->
  open_fours beyond g' x y = open_fours beyond g x y.
Proof. intros Hb Hs. unfold open_fours. rewrite Hb, Hs. reflexivity. Qed.

Ltac shadow_first :=
  split; [solve [unfold shadow; simpl; repeat split; auto]|].

(** One rule evaluation on a game in play and on its shadow. *)
Lemma rules_agree (g1 g2 : game) (x y : Z) :
  shadow g1 g2 ->
  state g1 = GAME_STATE_PLAYING -> winner g1 = EMPTY_INTERSECTION ->
  type g1 <> GAME_RENJU \/ winner g2 <> BLACK_STONE ->
  shadow (apply_rules beyond g1 x y) (apply_rules beyond g2 x y)
  /\ ((state (apply_rules beyond g1 x y) = GAME_STATE_PLAYING
       /\ winner (apply_rules beyond g1 x y) = EMPTY_INTERSECTION
       /\ state (apply_rules beyond g2 x y) = state g2
       /\ winner (apply_rules beyond g2 x y) = winner g2)
      \/ (state (apply_rules beyond g1 x y) <> GAME_STATE_PLAYING
          /\ state (apply_rules beyond g2 x y)
             = state (apply_rules beyond g1 x y)
          /\ (winner (apply_rules beyond g2 x y)
              = winner (apply_rules beyond g1 x y)
              \/ (winner (apply_rules beyond g1 x y) = EMPTY_INTERSECTION
                  /\ winner (apply_rules beyond g2 x y) = winner g2)))).
Proof.
  intros (Hb & Ht & Hs) Hplay Hwin Hok.
  unfold apply_rules, doubleOpenFours.
  rewrite (line_win_same_board g1 g2) by (symmetry; assumption).
  rewrite (open_fours_same_board g1 g2) by (symmetry; assumption).
  rewrite <- Hb, <- Ht, <- Hs.
  destruct (type g1 =? GAME_RENJU) eqn:Ety;
    destruct (stone g1 =? BLACK_STONE) eqn:Est; simpl.
  2,3,4: destruct (line_win beyond g1 x y); simpl;
    [| destruct (board_is_full beyond (gboard g1)); simpl];
    shadow_first;
    first [ solve [left; auto] | right; split; [discriminate|]; auto ].
  destruct (line_win beyond g1 x y); simpl.
  - rewrite ?Est. simpl.
    rewrite (overline_same_board beyond g1
               (with_state (with_winner g1 (stone g1)) GAME_STATE_FINISHED))
      by reflexivity.
    rewrite (overline_same_board beyond g1
               (with_state (with_winner g2 (stone g1)) GAME_STATE_FINISHED))
      by (simpl; congruence).
    destruct (overline beyond g1 x y); simpl;
      shadow_first; right; (split; [discriminate|]); auto.
  - destruct Hok as [Hok | Hok]; [apply Z.eqb_eq in Ety; contradiction|].
    apply Z.eqb_neq in Hok.
    destruct (ALLOWED_OPEN_FOURS <? open_fours beyond g1 x y); simpl.
    + shadow_first. right. split; [discriminate|]. auto.
    + rewrite Hwin, Hok. simpl. shadow_first. left. auto.
Qed.

End RoundTrip.

Section RoundTripHolds.

Variable beyond : Z -> Z.

Lemma place_accepted (g : game) (x y : Z) (g' : game) :
  game_place_stone beyond g x y = Ret (true, g') ->
  board_get beyond (gboard g) x y = EMPTY_INTERSECTION
  /\ (stone g = BLACK_STONE \/ stone g = WHITE_STONE)
  /\ g' = apply_rules beyond (stone_placed g x y) x y.
Proof.
  unfold game_place_stone.
  destruct (board_get beyond (gboard g) x y =? EMPTY_INTERSECTION) eqn:E;
    simpl; [|discriminate].
  apply Z.eqb_eq in E. unfold board_set. simpl.
  destruct (stone g =? BLACK_STONE) eqn:Eb; simpl.
  - apply Z.eqb_eq in Eb. intros [= <-]. auto.
  - destruct (stone g =? WHITE_STONE) eqn:Ew; simpl; [|discriminate].
    apply Z.eqb_eq in Ew. intros [= <-]. auto.
Qed.

Lemma apply_rules_sane (g : game) (x y : Z) :
  stone g = BLACK_STONE \/ stone g = WHITE_STONE ->
  state g = GAME_STATE_PLAYING -> winner g = EMPTY_INTERSECTION ->
  sane (apply_rules beyond g x y).
Proof.
  intros Hst Hplay Hwin. split; [apply apply_rules_turn; exact Hst|].
  unfold apply_rules, doubleOpenFours.
  destruct (type g =? GAME_RENJU); destruct (stone g =? BLACK_STONE) eqn:Est;
    simpl.
  2,3,4: destruct (line_win beyond g x y); simpl;
    [| destruct (board_is_full beyond (gboard g)); simpl];
    destruct Hst as [Hst | Hst]; rewrite ?Hst; auto 10.
  apply Z.eqb_eq in Est.
  destruct (line_win beyond g x y); simpl.
  - rewrite Est. simpl. destruct (overline beyond _ x y); simpl; auto 10.
  - destruct (ALLOWED_OPEN_FOURS <? open_fours beyond g x y); simpl; auto 10.
    rewrite Hwin. simpl. auto 10.
Qed.

Lemma sane_playing (g : game) :
  sane g -> state g = GAME_STATE_PLAYING -> winner g = EMPTY_INTERSECTION.
Proof.
  intros [_ [[_ H] | [[H _] | [H _]]]] Hp; [exact H | |];
    rewrite Hp in H; discriminate.
Qed.

Lemma play_facts (ps : list (Z * Z)) :
  forall g G : game,
    sane g ->
    play beyond g ps = Some G ->
    sane G
    /\ size (gboard G) = size (gboard g)
    /\ type G = type g
    /\ coords_of (moves G) = coords_of (moves g) ++ ps.
Proof.
  induction ps as [|[x y] ps IH]; intros g G Hs Hp; simpl in Hp.
  - injection Hp as <-. rewrite app_nil_r. auto.
  - destruct (state g =? GAME_STATE_PLAYING) eqn:Est; [|discriminate].
    apply Z.eqb_eq in Est.
    destruct (game_place_stone beyond g x y) as [[[] g']|] eqn:E;
      try discriminate.
    pose proof (place_keeps_size _ _ _ _ _ E) as Hsz. simpl in Hsz.
    apply place_accepted in E as (_ & Hst & ->).
    destruct (apply_rules_frame beyond (stone_placed g x y) x y)
      as (_ & Hm & Ht).
    destruct (IH _ G (apply_rules_sane (stone_placed g x y) x y Hst Est
                                       (sane_playing g Hs Est)) Hp)
      as (HsG & HszG & HtG & HmG).
    split; [exact HsG|].
    split; [congruence|].
    split; [rewrite HtG, Ht; reflexivity|].
    rewrite HmG, Hm. unfold stone_placed, coords_of. simpl.
    rewrite map_app, <- app_assoc. reflexivity.
Qed.

(** The replay of [game_import], started with the state and the winner
    of a finished or stopped game, follows the game move by move,
    unless the game is a Renju game that Black has won. *)
Lemma replay_agrees (ps : list (Z * Z)) :
  forall g1 g2 G : game,
    shadow g1 g2 ->
    sane g1 -> state g1 = GAME_STATE_PLAYING ->
    play beyond g1 ps = Some G ->
    state g2 = state (finished_or_stopped G) ->
    winner g2 = winner (finished_or_stopped G) ->
    type g1 <> GAME_RENJU \/ winner (finished_or_stopped G) <> BLACK_STONE ->
    exists G' : game,
      place_all beyond g2 ps = Ret G'
      /\ shadow G G'
      /\ state G' = state (finished_or_stopped G)
      /\ winner G' = winner (finished_or_stopped G).
Proof.
  induction ps as [|[x y] ps IH]; intros g1 g2 G Hsh Hs Hplay Hp HS HW Hok;
    simpl in Hp.
  - injection Hp as <-. exists g2. simpl. auto.
  - rewrite Hplay in Hp. simpl in Hp.
    destruct (game_place_stone beyond g1 x y) as [[[] g1']|] eqn:E;
      try discriminate.
    apply place_accepted in E as (Hget & Hst & ->).
    pose proof (sane_playing g1 Hs Hplay) as Hwin.
    destruct Hsh as (Hb & Ht & Hst2).
    assert (Hsh' : shadow (stone_placed g1 x y) (stone_placed g2 x y)).
    { unfold shadow, stone_placed. simpl. rewrite Hb, Hst2. auto. }
    assert (Hok' : type (stone_placed g1 x y) <> GAME_RENJU
                   \/ winner (stone_placed g2 x y) <> BLACK_STONE).
    { destruct Hok as [Hok | Hok]; [left; exact Hok | right].
      simpl. rewrite HW. exact Hok. }
    destruct (rules_agree beyond (stone_placed g1 x y) (stone_placed g2 x y)
                x y Hsh' Hplay Hwin Hok') as (Hsh'' & Hcase).
    simpl. rewrite place_on_empty by
        (rewrite <- ?Hb, <- ?Hst2; assumption).
    simpl.
    destruct (apply_rules_frame beyond (stone_placed g1 x y) x y)
      as (_ & _ & Ht1).
    destruct Hcase as [(Hp1 & _ & HS2 & HW2) | (Hp1 & HS2 & HW2)].
    + apply (IH _ _ G Hsh''); auto.
      * apply (apply_rules_sane (stone_placed g1 x y)); assumption.
      * rewrite HS2. exact HS.
      * rewrite HW2. exact HW.
      * rewrite Ht1. exact Hok.
    + destruct ps as [|[x' y'] ps]; simpl in Hp.
      2:{ destruct (state (apply_rules beyond (stone_placed g1 x y) x y)
                    =? GAME_STATE_PLAYING) eqn:E;
            [apply Z.eqb_eq in E; contradiction | discriminate]. }
      injection Hp as <-.
      exists (apply_rules beyond (stone_placed g2 x y) x y).
      assert (Hf : finished_or_stopped
                     (apply_rules beyond (stone_placed g1 x y) x y)
                   = apply_rules beyond (stone_placed g1 x y) x y).
      { unfold finished_or_stopped.
        destruct (state _ =? GAME_STATE_PLAYING) eqn:E;
          [apply Z.eqb_eq in E; contradiction | reflexivity]. }
      rewrite Hf in *.
      split; [reflexivity|]. split; [exact Hsh''|]. split; [exact HS2|].
      destruct HW2 as [HW2 | [HW1 HW2]]; [exact HW2|].
      rewrite HW2. exact HW.
Qed.

(** The round trip of C2 for every game that the driver can produce,
    other than the Renju games that Black has won: with a
    [formal_coord] array whose fourth byte is zero, [game_import] of
    [game_export] returns a game with the same board, type, state and
    winner. *)
Lemma round_trip_holds (stack : string) (sz ty : Z) (ps : list (Z * Z))
      (g : game) :
  valid_size sz ->
  ty = GAME_FREESTYLE \/ ty = GAME_RENJU ->
  terminated stack ->
  all_on_board sz ps = true ->
  play beyond (new_game sz ty) ps = Some g ->
  ty = GAME_FREESTYLE \/ winner g <> BLACK_STONE ->
  exists g' : game,
    game_import beyond (game_export stack (finished_or_stopped g)) = Ret g'
    /\ same_position (finished_or_stopped g) g'.
Proof.
  intros Hsz Hty Hstack Hon Hp Hok.
  assert (Hs0 : sane (new_game sz ty)) by (split; simpl; auto).
  destruct (play_facts ps _ g Hs0 Hp) as (Hs & Hsize & Htype & Hmoves).
  simpl in Hsize, Htype, Hmoves.
  assert (Hfb : gboard (finished_or_stopped g) = gboard g
                /\ type (finished_or_stopped g) = type g
                /\ moves (finished_or_stopped g) = moves g
                /\ winner (finished_or_stopped g) = winner g)
    by (unfold finished_or_stopped;
        destruct (state g =? GAME_STATE_PLAYING); simpl; auto).
  destruct Hfb as (Hfb & Hft & Hfm & Hfw).
  assert (HS : state (finished_or_stopped g) = GAME_STATE_FORBIDDEN
               \/ state (finished_or_stopped g) = GAME_STATE_STOPPED
               \/ state (finished_or_stopped g) = GAME_STATE_FINISHED).
  { unfold finished_or_stopped.
    destruct Hs as [_ [[H _] | [[H _] | [H _]]]]; rewrite H; simpl; auto. }
  assert (HW : winner g = EMPTY_INTERSECTION \/ winner g = BLACK_STONE
               \/ winner g = WHITE_STONE).
  { destruct Hs as [_ [[_ H] | [[_ H] | [_ H]]]]; auto. }
  destruct (replay_agrees ps (new_game sz ty)
              (with_winner (with_state (new_game sz ty)
                                       (state (finished_or_stopped g)))
                           (winner (finished_or_stopped g))) g)
    as (g' & Hplace & (Hb' & Ht' & _) & HS' & HW'); auto.
  { repeat split. }
  { rewrite Hfw. destruct Hok as [-> | Hok]; [left; discriminate | right; exact Hok]. }
  exists g'. split.
  - unfold game_import, game_export. cbn [sv_magic sv_size sv_type sv_state
                                           sv_winner sv_coords].
    change (String.eqb "GA" "GA") with true. cbn [negb].
    rewrite Hfb, Hft, Hfm, Hfw, Hsize, Htype.
    replace (negb (sz =? BOARD_SIZE_15) && negb (sz =? BOARD_SIZE_17)
             && negb (sz =? BOARD_SIZE_19)) with false
      by (destruct Hsz as [-> | [-> | ->]]; reflexivity).
    replace (negb (ty =? GAME_FREESTYLE) && negb (ty =? GAME_RENJU)) with false
      by (destruct Hty as [-> | ->]; reflexivity).
    replace (negb (state (finished_or_stopped g) =? GAME_STATE_FORBIDDEN)
             && negb (state (finished_or_stopped g) =? GAME_STATE_STOPPED)
             && negb (state (finished_or_stopped g) =? GAME_STATE_FINISHED))
      with false
      by (destruct HS as [-> | [-> | ->]]; reflexivity).
    replace (negb (winner g =? EMPTY_INTERSECTION)
             && negb (winner g =? BLACK_STONE) && negb (winner g =? WHITE_STONE))
      with false
      by (destruct HW as [-> | [-> | ->]]; reflexivity).
    replace (game_create sz ty) with (Ret (new_game sz ty))
      by (destruct Hsz as [-> | [-> | ->]]; reflexivity).
    cbn [obind].
    rewrite export_then_import.
    + rewrite Hmoves. simpl. rewrite <- Hfw. exact Hplace.
    + rewrite Hsize. exact Hsz.
    + exact Hstack.
    + simpl. symmetry. exact Hsize.
    + rewrite Hsize, Hmoves. exact Hon.
  - unfold same_position. rewrite Hfb, Hft. auto.
Qed.

End RoundTripHolds.

(** The round trip of the Freestyle game that Black wins on row 0. *)
Lemma round_trip_holds_example :
  exists g g' : game,
    play zero_memory (new_game 15 GAME_FREESTYLE) black_wins_row_0 = Some g
    /\ game_import zero_memory (game_export zero_stack (finished_or_stopped g))
       = Ret g'
    /\ same_position (finished_or_stopped g) g'.
Proof.
  destruct (play zero_memory (new_game 15 GAME_FREESTYLE) black_wins_row_0)
    as [g|] eqn:E; [|vm_compute in E; discriminate].
  destruct (round_trip_holds zero_memory zero_stack 15 GAME_FREESTYLE
              black_wins_row_0 g) as (g' & Hi & Hs).
  - left. reflexivity.
  - left. reflexivity.
  - unfold terminated, zero_stack. eauto.
  - reflexivity.
  - exact E.
  - left. reflexivity.
  - exists g, g'. auto.
Qed.

(** The part of C1 that holds on the code: once no line win is found,
    [doubleOpenFours] forbids the move exactly when its own count of
    open fours exceeds [ALLOWED_OPEN_FOURS]. *)
Lemma forbidden_iff_count_exceeds_one (beyond : Z -> Z) (g : game) (x y : Z) :
  line_win beyond g x y = false ->
  state g = GAME_STATE_PLAYING ->
  (state (doubleOpenFours beyond g x y) = GAME_STATE_FORBIDDEN
   /\ winner (doubleOpenFours beyond g x y) = WHITE_STONE)
  <-> ALLOWED_OPEN_FOURS < open_fours beyond g x y.
Proof.
  intros Hl Hp. unfold doubleOpenFours. rewrite Hl.
  destruct (ALLOWED_OPEN_FOURS <? open_fours beyond g x y) eqn:E; simpl.
  - apply Z.ltb_lt in E. split; auto.
  - apply Z.ltb_ge in E. rewrite Hp. split.
    + intros [H _]. discriminate.
    + lia.
Qed.

(** The part of C8 that holds on the code: a text that [board_coord]
    accepts starts with a letter of the board, the number that [%d]
    reads from the rest lies between 1 and the size, the text has at
    most three characters, and the result is the column of the letter
    and the row of the number. *)
Lemma board_coord_accepts_only (b : board) (s : string) (x y : Z) :
  valid_size (size b) ->
  board_coord b s = Some (x, y) ->
  exists (c : ascii) (row : Z),
    sscanf_c_d (c_str s) = Some (c, row)
    /\ ord "A" <= ord c < ord "A" + size b
    /\ 1 <= row <= size b
    /\ strlen (c_str s) <= MAX_STRING_LENGTH
    /\ x = ord c - ord "A"
    /\ y = size b - row.
Proof.
  intros Hsz. apply valid_size_bounds in Hsz. unfold board_coord.
  destruct (sscanf_c_d (c_str s)) as [[c row]|]; [|discriminate].
  destruct ((ord c <? ord "A") || (ord "A" + size b <=? ord c)
            || (row <? 1) || (size b <? row)
            || (MAX_STRING_LENGTH <? strlen (c_str s))) eqn:E; [discriminate|].
  repeat (apply orb_false_elim in E; destruct E as [E ?]).
  intros [= <- <-]. exists c, row.
  assert (ord "A" = 65) as HA by reflexivity.
  rewrite !uchar_small by lia.
  repeat split; lia.
Qed.

(** With [loop_bound] iterations every loop of the scans has run to
    the end, for all [unsigned char] columns and all board sizes. *)
Lemma loops_end (sz x y : Z) :
  0 <= x < 256 -> 0 <= sz <= 255 ->
  (0 <? snd (diag_down_top loop_bound x y))
  && (0 <? fst (diag_down_top loop_bound x y)) = false
  /\ (snd (diag_up_bottom loop_bound sz x y) <? sz)
     && (0 <? fst (diag_up_bottom loop_bound sz x y)) = false
  /\ diag_down_walk (S loop_bound) sz x y = diag_down_walk loop_bound sz x y
  /\ diag_up_walk (S loop_bound) sz x y = diag_up_walk loop_bound sz x y.
Proof.
  intros Hx Hsz. unfold loop_bound.
  split; [apply diag_down_top_exits; lia|].
  split; [apply diag_up_bottom_exits; lia|].
  split; [apply diag_down_walk_complete | apply diag_up_walk_complete]; lia.
Qed.

(** * Further properties of the code *)

(** ** board.c: creation, cells and fullness *)

Lemma offset_unique (sz x y x' y' : Z) :
  0 <= x < sz -> 0 <= x' < sz -> 0 <= y -> 0 <= y' ->
  y * sz + x = y' * sz + x' -> x = x' /\ y = y'.
Proof.
  intros Hx Hx' Hy Hy' H.
  destruct (Z.lt_trichotomy y y') as [Hlt | [Heq | Hgt]].
  - exfalso. assert (y + 1 <= y') by lia. nia.
  - subst. lia.
  - exfalso. assert (y' + 1 <= y) by lia. nia.
Qed.

Lemma board_get_store (beyond : Z -> Z) (b : board) (x y st x' y' : Z) :
  well_formed b -> on_board b x y -> on_board b x' y' ->
  board_get beyond (store b x y st) x' y'
  = if (x' =? x) && (y' =? y) then st else board_get beyond b x' y'.
Proof.
  intros Hwf Hon Hon'.
  destruct (offset_on_board b x y Hwf Hon) as [Hlt Hoff].
  destruct (offset_on_board b x' y' Hwf Hon') as [Hlt' Hoff'].
  unfold board_get, grid_at, store. simpl. rewrite Hoff, Hoff' in *.
  destruct ((x' =? x) && (y' =? y)) eqn:E.
  - apply andb_prop in E as [Ex Ey]. apply Z.eqb_eq in Ex, Ey. subst.
    rewrite list_lookup_insert_eq by exact Hlt. reflexivity.
  - rewrite list_lookup_insert_ne; [reflexivity|].
    intros Heq. apply Z2Nat.inj in Heq;
      [| destruct Hon as [? ?]; destruct Hwf as [Hs _];
         apply valid_size_bounds in Hs; nia
       | destruct Hon' as [? ?]; destruct Hwf as [Hs _];
         apply valid_size_bounds in Hs; nia].
    destruct Hon as [Hx Hy], Hon' as [Hx' Hy'].
    assert (Hu : x = x' /\ y = y')
      by (apply (offset_unique (size b)); lia).
    destruct Hu as [-> ->].
    rewrite !Z.eqb_refl in E. discriminate.
Qed.

(** [board_create] makes a board exactly for the sizes 15, 17 and 19;
    the board has that size, holds no stone, and every intersection
    reads as empty; any other size ends the program with
    [BOARD_SIZE_ERR]. *)
Theorem board_create_spec (sz : Z) :
  (valid_size sz ->
   exists b : board,
     board_create sz = Ret b /\ size b = sz /\ well_formed b
     /\ count_stones b = O
     /\ forall (beyond : Z -> Z) (x y : Z),
          on_board b x y -> board_get beyond b x y = EMPTY_INTERSECTION)
  /\ (~ valid_size sz -> board_create sz = Exit BOARD_SIZE_ERR).
Proof.
  split.
  - intros Hsz.
    assert (Hc : board_create sz
                 = Ret (mkBoard sz (replicate (Z.to_nat (sz * sz))
                                              EMPTY_INTERSECTION)))
      by (destruct Hsz as [-> | [-> | ->]]; reflexivity).
    eexists. split; [exact Hc|].
    destruct (board_create_well_formed _ _ Hc) as [Hwf Hcount].
    split; [reflexivity|]. split; [exact Hwf|]. split; [exact Hcount|].
    intros beyond x y Hon.
    pose proof (board_get_lookup beyond _ x y Hwf Hon) as Hl. simpl in Hl.
    apply lookup_replicate in Hl as [Hl _]. exact Hl.
  - intros Hn. unfold board_create, valid_size in *.
    unfold BOARD_SIZE_15, BOARD_SIZE_17, BOARD_SIZE_19.
    destruct (sz =? 15) eqn:E15; [apply Z.eqb_eq in E15; tauto|].
    destruct (sz =? 17) eqn:E17; [apply Z.eqb_eq in E17; tauto|].
    destruct (sz =? 19) eqn:E19; [apply Z.eqb_eq in E19; tauto|].
    reflexivity.
Qed.

(** On a board, [board_set] with a stone is followed by [board_get]
    as a store is by a load: the intersection written reads as the
    stone and every other intersection reads as before.  A value that
    is no stone ends the program with [STONE_TYPE_ERR]. *)
Theorem board_set_then_get (beyond : Z -> Z) (b : board) (x y st x' y' : Z) :
  well_formed b -> on_board b x y -> on_board b x' y' ->
  (st = BLACK_STONE \/ st = WHITE_STONE ->
   exists b' : board,
     board_set b x y st = Ret b' /\ well_formed b'
     /\ board_get beyond b' x' y'
        = if (x' =? x) && (y' =? y) then st else board_get beyond b x' y')
  /\ (st <> BLACK_STONE -> st <> WHITE_STONE ->
      board_set b x y st = Exit STONE_TYPE_ERR).
Proof.
  intros Hwf Hon Hon'. split.
  - intros Hst. exists (store b x y st).
    split; [unfold board_set; destruct Hst as [-> | ->]; reflexivity|].
    split; [apply store_well_formed; exact Hwf|].
    apply board_get_store; assumption.
  - intros Hb Hw. unfold board_set.
    apply Z.eqb_neq in Hb, Hw. rewrite Hb, Hw. reflexivity.
Qed.

Lemma board_set_then_get_witness :
  exists b' : board,
    board_set (gboard (new_game 15 GAME_FREESTYLE)) 7 7 BLACK_STONE = Ret b'
    /\ well_formed b'
    /\ board_get zero_memory b' 7 7 = BLACK_STONE.
Proof.
  assert (Hwf : well_formed (gboard (new_game 15 GAME_FREESTYLE)))
    by (split; [left; reflexivity | reflexivity]).
  assert (Hon : on_board (gboard (new_game 15 GAME_FREESTYLE)) 7 7)
    by (unfold on_board; simpl; lia).
  destruct (board_set_then_get zero_memory _ 7 7 BLACK_STONE 7 7 Hwf Hon Hon)
    as [H _].
  destruct (H (or_introl eq_refl)) as (b' & Hs & Hw & Hg).
  exists b'. auto.
Defined.

Lemma board_is_full_cells (beyond : Z -> Z) (b : board) :
  well_formed b ->
  board_is_full beyond b = true
  <-> (forall x y : Z,
         on_board b x y -> board_get beyond b x y <> EMPTY_INTERSECTION).
Proof.
  intros Hwf. unfold board_is_full. split.
  - intros H x y Hon.
    rewrite List.forallb_forall in H.
    specialize (H y (in_seqZ _ _ (proj2 Hon))).
    rewrite List.forallb_forall in H.
    specialize (H x (in_seqZ _ _ (proj1 Hon))).
    destruct (offset_on_board b x y Hwf Hon) as [_ Hoff].
    unfold board_get. rewrite Hoff.
    apply negb_true_iff, Z.eqb_neq in H. exact H.
  - intros H. apply List.forallb_forall. intros i Hi.
    apply List.forallb_forall. intros j Hj.
    apply list_elem_of_In, elem_of_seqZ in Hi, Hj.
    assert (Hon : on_board b j i) by (unfold on_board; lia).
    destruct (offset_on_board b j i Hwf Hon) as [_ Hoff].
    specialize (H j i Hon). unfold board_get in H. rewrite Hoff in H.
    apply negb_true_iff, Z.eqb_neq. exact H.
Qed.

Lemma count_all_stones (l : list Z) :
  length (List.filter (fun v => negb (v =? EMPTY_INTERSECTION)) l) = length l
  <-> (forall (i : nat) (v : Z), l !! i = Some v -> v <> EMPTY_INTERSECTION).
Proof.
  induction l as [|a l IH]; simpl.
  - split; [intros _ i v H; discriminate | reflexivity].
  - pose proof (List.filter_length_le
                  (fun v => negb (v =? EMPTY_INTERSECTION)) l) as Hle.
    destruct (a =? EMPTY_INTERSECTION) eqn:E; simpl.
    + apply Z.eqb_eq in E. split; [lia|].
      intros H. exfalso. apply (H O a); [reflexivity | exact E].
    + apply Z.eqb_neq in E. split.
      * intros H i v Hl. destruct i as [|i]; simpl in Hl.
        -- injection Hl as <-. exact E.
        -- apply (proj1 IH) with (i := i); [lia | exact Hl].
      * intros H. f_equal. apply IH. intros i v Hl. apply (H (S i) v Hl).
Qed.

Lemma board_is_full_count (beyond : Z -> Z) (b : board) :
  well_formed b ->
  board_is_full beyond b = true
  <-> Z.of_nat (count_stones b) = size b * size b.
Proof.
  intros Hwf.
  rewrite (board_is_full_cells beyond b Hwf).
  destruct Hwf as [Hsz Hlen]. pose proof (valid_size_bounds _ Hsz) as Hb.
  assert (Hwf : well_formed b) by (split; assumption).
  unfold count_stones.
  assert (Hl : Z.of_nat (length (grid b)) = size b * size b)
    by (rewrite Hlen; apply Z2Nat.id; nia).
  rewrite <- Hl, Nat2Z.inj_iff, count_all_stones.
  split.
  - intros H i v Hi.
    pose proof (lookup_lt_Some _ _ _ Hi) as Hlt.
    assert (Hi' : Z.of_nat i < size b * size b) by lia.
    assert (Hon : on_board b (Z.of_nat i mod size b) (Z.of_nat i / size b)).
    { unfold on_board. split; [apply Z.mod_pos_bound; lia|].
      split; [apply Z.div_pos; lia | apply Z.div_lt_upper_bound; lia]. }
    specialize (H _ _ Hon).
    pose proof (board_get_lookup beyond b _ _ Hwf Hon) as Hg.
    replace (Z.of_nat i / size b * size b + Z.of_nat i mod size b)
      with (Z.of_nat i) in Hg
      by (rewrite (Z.div_mod (Z.of_nat i) (size b)) at 1; lia).
    rewrite Nat2Z.id, Hi in Hg. injection Hg as ->. exact H.
  - intros H x y Hon.
    pose proof (board_get_lookup beyond b x y Hwf Hon) as Hg.
    apply (H _ _ Hg).
Qed.

(** [board_is_full] answers true exactly when no intersection of the
    board reads as empty, which is when the board holds as many stones
    as it has intersections. *)
Theorem board_is_full_spec (beyond : Z -> Z) (b : board) :
  well_formed b ->
  (board_is_full beyond b = true
   <-> forall x y : Z,
         on_board b x y -> board_get beyond b x y <> EMPTY_INTERSECTION)
  /\ (board_is_full beyond b = true
      <-> Z.of_nat (count_stones b) = size b * size b).
Proof.
  intros Hwf. split.
  - apply board_is_full_cells. exact Hwf.
  - apply board_is_full_count. exact Hwf.
Qed.

Lemma board_is_full_spec_witness :
  board_is_full zero_memory (gboard one_stone_game) = false
  /\ Z.of_nat (count_stones (gboard one_stone_game)) = 1.
Proof.
  assert (Hwf : well_formed (gboard one_stone_game))
    by (split; [left; reflexivity | reflexivity]).
  destruct (board_is_full_spec zero_memory _ Hwf) as [_ H].
  split; [|reflexivity].
  apply not_true_is_false. intros E.
  apply H in E. vm_compute in E. discriminate.
Defined.

(** ** board.c: coordinates *)

(** On a board, with a [formal_coord] array whose fourth byte is
    zero, [board_formal_coord] succeeds, leaves a text of two or three
    characters and a fourth byte that is still zero, and [board_coord]
    reads the text back as the same intersection. *)
Theorem coordinate_round_trip (b : board) (x y : Z) (buf : string) :
  valid_size (size b) -> on_board b x y -> terminated buf ->
  exists out : string,
    board_formal_coord b x y buf = (SUCCESS, out)
    /\ terminated out
    /\ 2 <= strlen out <= MAX_STRING_LENGTH
    /\ board_coord b out = Some (x, y).
Proof.
  intros Hsz Hon Hbuf.
  pose proof (board_formal_coord_terminated b x y buf Hbuf) as Hterm.
  destruct Hbuf as (c0 & c1 & c2 & rest & ->).
  destruct (formal_coord_round_trip_terminated b x y c0 c1 c2 rest Hsz Hon)
    as (out & Hout & Hparse).
  rewrite Hout in Hterm. simpl in Hterm.
  exists out. split; [exact Hout|]. split; [exact Hterm|].
  split; [|exact Hparse].
  destruct (board_coord_accepts_only b out x y Hsz Hparse)
    as (c & row & Hscan & _ & _ & Hlen & _).
  unfold strlen in *. rewrite c_str_idem in Hlen. split; [|exact Hlen].
  unfold sscanf_c_d in Hscan.
  destruct (c_str out) as [|a [|a' s']]; simpl in *; try discriminate; lia.
Qed.

Lemma coordinate_round_trip_witness :
  exists out : string,
    board_formal_coord (gboard (new_game 19 GAME_RENJU)) 3 0 zero_stack
    = (SUCCESS, out)
    /\ board_coord (gboard (new_game 19 GAME_RENJU)) out = Some (3, 0).
Proof.
  destruct (coordinate_round_trip (gboard (new_game 19 GAME_RENJU)) 3 0
              zero_stack) as (out & Ho & _ & _ & Hp).
  - right. right. reflexivity.
  - unfold on_board. simpl. lia.
  - unfold terminated, zero_stack. eauto.
  - exists out. auto.
Defined.

(** Every text that [board_coord] accepts names an intersection of
    the board; and with a [formal_coord] array whose fourth byte is
    zero, [board_formal_coord] followed by [board_coord] leads back
    to that intersection. *)
Theorem board_coord_on_board (b : board) (s : string) (x y : Z) :
  valid_size (size b) ->
  board_coord b s = Some (x, y) ->
  on_board b x y
  /\ forall buf : string,
       terminated buf ->
       exists out : string,
         board_formal_coord b x y buf = (SUCCESS, out)
         /\ board_coord b out = Some (x, y).
Proof.
  intros Hsz Hs.
  destruct (board_coord_accepts_only b s x y Hsz Hs)
    as (c & row & _ & Hc & Hrow & _ & -> & ->).
  assert (Hon : on_board b (ord c - ord "A") (size b - row))
    by (unfold on_board; lia).
  split; [exact Hon|].
  intros buf (c0 & c1 & c2 & rest & ->).
  apply formal_coord_round_trip_terminated; assumption.
Qed.

Lemma board_coord_on_board_witness :
  on_board (gboard (new_game 15 GAME_FREESTYLE)) 7 7
  /\ exists out : string,
       board_formal_coord (gboard (new_game 15 GAME_FREESTYLE)) 7 7 zero_stack
       = (SUCCESS, out)
       /\ board_coord (gboard (new_game 15 GAME_FREESTYLE)) out = Some (7, 7).
Proof.
  destruct (board_coord_on_board (gboard (new_game 15 GAME_FREESTYLE))
                                 "H8"%string 7 7) as [Hon Hback].
  - left. reflexivity.
  - reflexivity.
  - split; [exact Hon|]. apply Hback.
    unfold terminated, zero_stack. eauto.
Defined.

(** ** game.c: the counting loop and the cells it visits *)

(** Started with a count of 0, the counting loop that all scans share
    reports a hit exactly when the cells it is run over hold [need]
    stones of the colour in a row. *)
Theorem counting_loop_finds_runs (beyond : Z -> Z) (b : board) (st need : Z)
        (cells : list (Z * Z)) :
  0 < need ->
  fst (count_line beyond b st need cells 0) = true
  <-> exists pre blk post : list (Z * Z),
        cells = pre ++ blk ++ post
        /\ Z.of_nat (length blk) = need
        /\ forall p, In p blk -> board_get beyond b (fst p) (snd p) = st.
Proof.
  intros Hneed. split.
  - intros H.
    destruct (count_line_true_block beyond b st need cells [] [] 0 eq_refl
                (fun p (F : In p []) => match F with end) H)
      as (pre & blk & post & E & Hl & Hb).
    exists pre, blk, post. simpl in E. auto.
  - intros (pre & blk & post & -> & Hl & Hb).
    apply count_line_hit; [lia | exact Hb | lia].
Qed.

Lemma counting_loop_finds_runs_witness :
  fst (count_line zero_memory (gboard one_stone_game) BLACK_STONE 1
                  (column_cells 15 7) 0) = true.
Proof.
  apply (counting_loop_finds_runs zero_memory (gboard one_stone_game)
                                  BLACK_STONE 1 (column_cells 15 7)).
  - lia.
  - exists (firstn 7 (column_cells 15 7)), [(7, 7)],
           (skipn 8 (column_cells 15 7)).
    split; [reflexivity|]. split; [reflexivity|].
    intros p [<- | []]. reflexivity.
Defined.

Lemma scans_check_boards (sz : Z) : valid_size sz -> scans_check sz = true.
Proof. intros [-> | [-> | ->]]; vm_compute; reflexivity. Qed.

(** For a stone on the board, the scans of its column, its row and
    its falling diagonal read intersections of the board only.  The
    scan of its rising diagonal does so exactly when the stone lies on
    the diagonal from the bottom left to the top right corner; every
    other place that it reads has an offset behind the grid.  Each of
    the four scans passes through the stone. *)
Theorem scans_on_board (sz x y : Z) :
  valid_size sz -> 0 <= x < sz -> 0 <= y < sz ->
  (forall p, In p (column_cells sz x ++ row_cells sz y
                   ++ diag_down_cells sz x y) ->
             0 <= fst p < sz /\ 0 <= snd p < sz)
  /\ ((forall p, In p (diag_up_cells sz x y) ->
                 0 <= fst p < sz /\ 0 <= snd p < sz)
      <-> x + y = sz - 1)
  /\ (forall p, In p (diag_up_cells sz x y) ->
                (0 <= fst p < sz /\ 0 <= snd p < sz)
                \/ sz * sz <= uchar (snd p) * sz + uchar (fst p))
  /\ (forall a : axis, In (x, y) (axis_cells a sz x y)).
Proof.
  intros Hsz Hx Hy.
  pose proof (scans_check_boards sz Hsz) as H. unfold scans_check in H.
  rewrite List.forallb_forall in H. specialize (H x (in_seqZ _ _ Hx)).
  rewrite List.forallb_forall in H. specialize (H y (in_seqZ _ _ Hy)).
  unfold scans_check_at in H.
  apply andb_prop in H as [H Hthrough]. apply andb_prop in H as [H Hup].
  apply andb_prop in H as [H Hdown]. apply andb_prop in H as [Hcol Hrow].
  assert (Hb : forall l, forallb (on_boardb sz) l = true
                         <-> forall p, In p l ->
                               0 <= fst p < sz /\ 0 <= snd p < sz).
  { intros l. rewrite List.forallb_forall. unfold on_boardb.
    split; intros Hl p Hp; specialize (Hl p Hp).
    - repeat (apply andb_prop in Hl; destruct Hl as [Hl ?]). lia.
    - repeat (apply andb_true_intro; split); lia. }
  split; [|split; [|split]].
  - intros p Hp.
    apply in_app_or in Hp as [Hp | Hp];
      [apply (proj1 (Hb _) Hcol p Hp)|].
    apply in_app_or in Hp as [Hp | Hp];
      [apply (proj1 (Hb _) Hrow p Hp) | apply (proj1 (Hb _) Hdown p Hp)].
  - rewrite <- Hb. apply eqb_prop in Hup. rewrite Hup. apply Z.eqb_eq.
  - intros p Hp.
    pose proof (scan_on_axis_boards sz Hsz) as Hs. unfold scan_on_axis in Hs.
    rewrite List.forallb_forall in Hs. specialize (Hs x (in_seqZ _ _ Hx)).
    rewrite List.forallb_forall in Hs. specialize (Hs y (in_seqZ _ _ Hy)).
    rewrite List.forallb_forall in Hs.
    specialize (Hs DiagonalUp (in_axes DiagonalUp)).
    unfold scan_on_axis_at in Hs. apply andb_prop in Hs as [Hs _].
    rewrite List.forallb_forall in Hs. specialize (Hs p Hp).
    apply orb_prop in Hs as [Hs | Hs].
    + left. unfold on_boardb in Hs.
      repeat (apply andb_prop in Hs; destruct Hs as [Hs ?]). lia.
    + right. apply Z.leb_le in Hs. exact Hs.
  - intros a. rewrite List.forallb_forall in Hthrough.
    specialize (Hthrough a (in_axes a)).
    apply List.existsb_exists in Hthrough as (p & Hp & He).
    apply cell_eqb_eq in He. subst p. exact Hp.
Qed.

Lemma scans_on_board_witness :
  In (0, 15) (diag_up_cells 15 4 11)
  /\ 15 * 15 <= uchar 15 * 15 + uchar 0
  /\ In (4, 11) (diag_up_cells 15 4 11).
Proof.
  destruct (scans_on_board 15 4 11) as (_ & _ & Hoff & Hthrough);
    [left; reflexivity | lia | lia |].
  assert (Hin : In (0, 15) (diag_up_cells 15 4 11))
    by (vm_compute; left; reflexivity).
  split; [exact Hin|].
  split; [|apply (Hthrough DiagonalUp)].
  destruct (Hoff (0, 15) Hin) as [[_ H] | H]; [simpl in H; lia | exact H].
Defined.

(** ** game.c: what a placement changes *)

Ltac split_rules :=
  repeat match goal with
         | |- context [if ?c then _ else _] => destruct c eqn:?; simpl
         end.

Lemma apply_rules_capacity (beyond : Z -> Z) (g : game) (x y : Z) :
  moves_capacity (apply_rules beyond g x y) = moves_capacity g.
Proof.
  unfold apply_rules, doubleOpenFours. split_rules; reflexivity.
Qed.

Lemma apply_rules_state (beyond : Z -> Z) (g : game) (x y : Z) :
  (state (apply_rules beyond g x y) = state g
   \/ state (apply_rules beyond g x y) = GAME_STATE_FINISHED
   \/ state (apply_rules beyond g x y) = GAME_STATE_FORBIDDEN)
  /\ (state (apply_rules beyond g x y) = GAME_STATE_FORBIDDEN ->
      state g = GAME_STATE_FORBIDDEN
      \/ (type g = GAME_RENJU /\ stone g = BLACK_STONE)).
Proof.
  unfold apply_rules.
  destruct ((type g =? GAME_RENJU) && (stone g =? BLACK_STONE)) eqn:Hrb.
  - apply andb_prop in Hrb as [Ht Hb].
    apply Z.eqb_eq in Ht, Hb.
    split; [|intros _; right; split; assumption].
    unfold doubleOpenFours. split_rules; auto.
  - split_rules; (split; [auto | try discriminate; auto]).
Qed.

(** An accepted placement found the intersection empty, appends one
    move with the coordinates and the colour to move, keeps the game
    type, and changes the one intersection of the board: every other
    intersection reads as before. *)
Theorem accepted_placement_frame (beyond : Z -> Z) (g g' : game) (x y : Z) :
  well_formed (gboard g) -> on_board (gboard g) x y ->
  game_place_stone beyond g x y = Ret (true, g') ->
  board_get beyond (gboard g) x y = EMPTY_INTERSECTION
  /\ moves g' = moves g ++ [mkMove x y (stone g)]
  /\ type g' = type g
  /\ well_formed (gboard g')
  /\ (forall x' y' : Z,
        on_board (gboard g) x' y' ->
        board_get beyond (gboard g') x' y'
        = if (x' =? x) && (y' =? y) then stone g
          else board_get beyond (gboard g) x' y').
Proof.
  intros Hwf Hon Hp.
  destruct (place_accepted beyond g x y g' Hp) as (He & Hst & ->).
  destruct (apply_rules_frame beyond (stone_placed g x y) x y)
    as (Hb & Hm & Ht).
  rewrite Hb, Hm, Ht.
  split; [exact He|]. split; [reflexivity|]. split; [reflexivity|].
  split; [apply store_well_formed; exact Hwf|].
  intros x' y' Hon'.
  change (gboard (stone_placed g x y)) with (store (gboard g) x y (stone g)).
  rewrite (board_get_store beyond (gboard g) x y (stone g) x' y' Hwf Hon Hon').
  reflexivity.
Qed.

Lemma accepted_placement_frame_witness :
  exists g' : game,
    game_place_stone zero_memory (new_game 15 GAME_RENJU) 7 7 = Ret (true, g')
    /\ moves g' = [mkMove 7 7 BLACK_STONE]
    /\ board_get zero_memory (gboard g') 7 7 = BLACK_STONE
    /\ board_get zero_memory (gboard g') 8 7 = EMPTY_INTERSECTION.
Proof.
  assert (Hwf : well_formed (gboard (new_game 15 GAME_RENJU)))
    by (split; [left; reflexivity | reflexivity]).
  assert (Hon : on_board (gboard (new_game 15 GAME_RENJU)) 7 7)
    by (unfold on_board; simpl; lia).
  assert (Hon' : on_board (gboard (new_game 15 GAME_RENJU)) 8 7)
    by (unfold on_board; simpl; lia).
  eexists. split; [vm_compute; reflexivity|].
  destruct (accepted_placement_frame zero_memory (new_game 15 GAME_RENJU) _
              7 7 Hwf Hon eq_refl) as (_ & Hm & _ & _ & Hg).
  split; [exact Hm|].
  split; [exact (Hg 7 7 Hon) | exact (Hg 8 7 Hon')].
Defined.

(** No call of [game_place_stone] brings a game back into play: the
    state is left as it was or becomes Finished or Forbidden, and it
    becomes Forbidden only for Black in a Renju game. *)
Theorem place_never_reopens (beyond : Z -> Z) (g : game) (x y : Z)
        (r : bool * game) :
  game_place_stone beyond g x y = Ret r ->
  (state (snd r) = state g
   \/ state (snd r) = GAME_STATE_FINISHED
   \/ state (snd r) = GAME_STATE_FORBIDDEN)
  /\ (state (snd r) = GAME_STATE_FORBIDDEN ->
      state g = GAME_STATE_FORBIDDEN
      \/ (type g = GAME_RENJU /\ stone g = BLACK_STONE)).
Proof.
  intros Hp. destruct r as [[] g'].
  - destruct (place_accepted beyond g x y g' Hp) as (_ & _ & ->).
    exact (apply_rules_state beyond (stone_placed g x y) x y).
  - unfold game_place_stone in Hp.
    destruct (negb (board_get beyond (gboard g) x y =? EMPTY_INTERSECTION)).
    + injection Hp as <-. simpl. auto.
    + destruct (board_set _ _ _ _); simpl in Hp; discriminate.
Qed.

Lemma place_never_reopens_witness :
  state (snd (true, apply_rules zero_memory
                      (stone_placed (new_game 15 GAME_RENJU) 7 7) 7 7))
  = GAME_STATE_PLAYING.
Proof.
  destruct (place_never_reopens zero_memory (new_game 15 GAME_RENJU) 7 7
              (true, apply_rules zero_memory
                       (stone_placed (new_game 15 GAME_RENJU) 7 7) 7 7)
              eq_refl) as [[H | [H | H]] _].
  - exact H.
  - vm_compute in H. discriminate.
  - vm_compute in H. discriminate.
Defined.

(** ** game.c: what holds of every game *)

Lemma place_cases (beyond : Z -> Z) (g : game) (x y : Z) (r : bool * game) :
  game_place_stone beyond g x y = Ret r ->
  r = (false, g)
  \/ (board_get beyond (gboard g) x y = EMPTY_INTERSECTION
      /\ (stone g = BLACK_STONE \/ stone g = WHITE_STONE)
      /\ r = (true, apply_rules beyond (stone_placed g x y) x y)).
Proof.
  intros Hp. destruct r as [[] g'].
  - right. destruct (place_accepted beyond g x y g' Hp) as (He & Hst & ->).
    auto.
  - left. unfold game_place_stone in Hp.
    destruct (negb (board_get beyond (gboard g) x y =? EMPTY_INTERSECTION)).
    + injection Hp as <-. reflexivity.
    + destruct (board_set _ _ _ _); simpl in Hp; discriminate.
Qed.

Lemma played_placed (g : game) : played g -> placed g.
Proof.
  induction 1 as [sz ty g Hc | beyond g x y r _ IH _ Hon Hp].
  - exact (placed_new sz ty g Hc).
  - exact (placed_place beyond g x y r IH Hon Hp).
Qed.

Lemma place_keeps_counts (beyond : Z -> Z) (g : game) (x y : Z)
      (r : bool * game) :
  well_formed (gboard g) /\ log_counts_stones g
  /\ (stone g = BLACK_STONE \/ stone g = WHITE_STONE) ->
  on_board (gboard g) x y ->
  game_place_stone beyond g x y = Ret r ->
  well_formed (gboard (snd r)) /\ log_counts_stones (snd r)
  /\ (stone (snd r) = BLACK_STONE \/ stone (snd r) = WHITE_STONE).
Proof.
  intros (Hwf & Hcnt & Hst) Hon Hp.
  destruct (place_cases beyond g x y r Hp) as [-> | (He & _ & ->)];
    [auto|].
  simpl.
  destruct (apply_rules_frame beyond (stone_placed g x y) x y)
    as (Hb & Hm & _).
  destruct (apply_rules_turn beyond (stone_placed g x y) x y Hst)
    as (Hs1 & _).
  pose proof (board_get_lookup beyond (gboard g) x y Hwf Hon) as Hl.
  rewrite He in Hl.
  destruct (offset_on_board (gboard g) x y Hwf Hon) as [_ Hoff].
  unfold log_counts_stones. rewrite Hb, Hm.
  split; [apply store_well_formed; exact Hwf|].
  split; [|exact Hs1].
  unfold stone_placed, record_move. simpl.
  rewrite length_app. unfold count_stones, store. simpl.
  rewrite Hoff, count_stones_insert; [| exact Hl |].
  - unfold log_counts_stones, count_stones in Hcnt. simpl. lia.
  - unfold BLACK_STONE, WHITE_STONE, EMPTY_INTERSECTION in *. lia.
Qed.

Lemma log_fits_board (g : game) :
  well_formed (gboard g) -> log_counts_stones g ->
  moves_count g <= size (gboard g) * size (gboard g).
Proof.
  intros [Hsz Hlen] Hcnt. pose proof (valid_size_bounds _ Hsz) as Hb.
  unfold moves_count. rewrite Hcnt. unfold count_stones.
  pose proof (List.filter_length_le
                (fun v => negb (v =? EMPTY_INTERSECTION))
                (grid (gboard g))) as Hle.
  rewrite Hlen in Hle. nia.
Qed.

(** The move log counts the stones in every state: in every game made
    by [game_create] and calls of [game_place_stone] at intersections
    of the board, whatever the state at each call, the board is well
    formed, the log has one move per stone of the board, so never more
    moves than intersections, and the colour to move is Black or
    White. *)
Theorem placed_counts_stones (g : game) :
  placed g ->
  well_formed (gboard g)
  /\ log_counts_stones g
  /\ (stone g = BLACK_STONE \/ stone g = WHITE_STONE)
  /\ moves_count g <= size (gboard g) * size (gboard g).
Proof.
  intros Hpl.
  assert (H : well_formed (gboard g) /\ log_counts_stones g
              /\ (stone g = BLACK_STONE \/ stone g = WHITE_STONE)).
  { induction Hpl as [sz ty g Hc | beyond g x y r _ IH Hon Hp].
    - destruct (new_game_invariant sz ty g Hc) as (Hwf & Hcnt & _ & Hst & _).
      auto.
    - exact (place_keeps_counts beyond g x y r IH Hon Hp). }
  destruct H as (Hwf & Hcnt & Hst).
  split; [exact Hwf|]. split; [exact Hcnt|]. split; [exact Hst|].
  apply log_fits_board; assumption.
Qed.

Lemma placed_counts_stones_witness :
  exists g : game,
    place_all zero_memory (new_game 15 GAME_FREESTYLE) black_wins_row_8 = Ret g
    /\ state g = GAME_STATE_FINISHED
    /\ log_counts_stones g.
Proof.
  eexists. split; [vm_compute; reflexivity|].
  split; [reflexivity|].
  refine (proj1 (proj2 (placed_counts_stones _ _))).
  refine (place_all_placed zero_memory black_wins_row_8
            (new_game 15 GAME_FREESTYLE) _ _ _ _).
  - exact (placed_new 15 GAME_FREESTYLE _ eq_refl).
  - vm_compute. reflexivity.
  - vm_compute. reflexivity.
Defined.

(** States and winners of the games of the driver: a game made by
    [game_create] and placements in state Playing is Playing without a
    winner, Forbidden with White as the winner, or Finished; it is
    Forbidden in a Renju game only, and it is never Stopped. *)
Theorem played_states (g : game) :
  played g ->
  sane g
  /\ (state g = GAME_STATE_FORBIDDEN -> type g = GAME_RENJU)
  /\ state g <> GAME_STATE_STOPPED.
Proof.
  intros Hpl.
  assert (H : sane g
              /\ (state g = GAME_STATE_FORBIDDEN -> type g = GAME_RENJU)).
  { induction Hpl as [sz ty g Hc | beyond g x y r _ IH Hplay _ Hp].
    - unfold game_create in Hc.
      destruct (board_create sz) as [b|e]; simpl in Hc; [|discriminate].
      injection Hc as <-. split; [|discriminate].
      split; simpl; auto.
    - destruct IH as (Hs & Hf).
      destruct (place_cases beyond g x y r Hp) as [-> | (_ & Hst & ->)];
        [auto|].
      simpl. split.
      + apply apply_rules_sane;
          [exact Hst | exact Hplay | exact (sane_playing g Hs Hplay)].
      + intros Hforb.
        destruct (apply_rules_state beyond (stone_placed g x y) x y)
          as (_ & Hwhy).
        destruct (apply_rules_frame beyond (stone_placed g x y) x y)
          as (_ & _ & Ht).
        rewrite Ht.
        destruct (Hwhy Hforb) as [Hsame | [Hty _]]; [|exact Hty].
        change (state (stone_placed g x y)) with (state g) in Hsame.
        rewrite Hplay in Hsame. discriminate. }
  destruct H as (Hs & Hf).
  split; [exact Hs|]. split; [exact Hf|].
  destruct Hs as [_ [[E _] | [[E _] | [E _]]]]; rewrite E; discriminate.
Qed.

Lemma played_states_witness :
  sane (new_game 15 GAME_RENJU)
  /\ state (new_game 15 GAME_RENJU) <> GAME_STATE_STOPPED.
Proof.
  destruct (played_states (new_game 15 GAME_RENJU)
              (played_new 15 GAME_RENJU _ eq_refl)) as (Hs & _ & Hn).
  exact (conj Hs Hn).
Defined.

(** ** game.c: draws and diagonal double fours *)

(** Outside the Renju rules for Black, with nothing behind the grid
    that looks like a stone, the stone that fills the last empty
    intersection without making five in a row ends the game in state
    Finished and leaves the winner field as it was, so that
    [game_loop] reports a drawn game as won by White. *)
Theorem last_stone_draws (beyond : Z -> Z) (g : game) (x y : Z) :
  (forall st i : Z, st = BLACK_STONE \/ st = WHITE_STONE -> beyond i <> st) ->
  well_formed (gboard g) ->
  stone g = BLACK_STONE \/ stone g = WHITE_STONE ->
  type g = GAME_FREESTYLE \/ (type g = GAME_RENJU /\ stone g = WHITE_STONE) ->
  cell_is (gboard g) x y EMPTY_INTERSECTION = true ->
  Z.of_nat (count_stones (gboard g)) + 1 = size (gboard g) * size (gboard g) ->
  any_run (gboard (stone_placed g x y)) (stone g) 5 = false ->
  exists g' : game,
    game_place_stone beyond g x y = Ret (true, g')
    /\ state g' = GAME_STATE_FINISHED
    /\ winner g' = winner g
    /\ (winner g = EMPTY_INTERSECTION ->
        game_loop_report g' = "Game concluded, white won."%string).
Proof.
  intros Hclean Hwf Hst Hty Hcell Hcount Hrun.
  destruct (cell_is_on_board _ _ _ _ Hcell) as [Hon Hl].
  assert (Hget : board_get beyond (gboard g) x y = EMPTY_INTERSECTION)
    by (apply board_get_cell_is; assumption).
  assert (Hwf' : well_formed (gboard (stone_placed g x y)))
    by (apply store_well_formed; exact Hwf).
  assert (Hline : line_win beyond (stone_placed g x y) x y = false)
    by (apply no_five_no_line_win; assumption).
  assert (Hfull : board_is_full beyond (gboard (stone_placed g x y)) = true).
  { apply (board_is_full_count beyond _ Hwf').
    destruct (offset_on_board (gboard g) x y Hwf Hon) as [_ Hoff].
    unfold count_stones in *.
    change (gboard (stone_placed g x y)) with (store (gboard g) x y (stone g)).
    unfold store. simpl. rewrite Hoff, count_stones_insert; [lia | exact Hl |].
    unfold BLACK_STONE, WHITE_STONE, EMPTY_INTERSECTION in *. lia. }
  destruct (full_board_draw beyond g x y Hst Hty Hget Hline Hfull)
    as (g' & Hp & Hs & Hw).
  exists g'. split; [exact Hp|]. split; [exact Hs|]. split; [exact Hw|].
  intros He. unfold game_loop_report. rewrite Hs, Hw, He. reflexivity.
Qed.

Lemma last_stone_draws_witness :
  exists g g' : game,
    play zero_memory (new_game 15 GAME_FREESTYLE) drawn_game_but_last = Some g
    /\ game_place_stone zero_memory g 13 14 = Ret (true, g')
    /\ state g' = GAME_STATE_FINISHED
    /\ winner g' = winner g
    /\ (winner g = EMPTY_INTERSECTION ->
        game_loop_report g' = "Game concluded, white won."%string).
Proof.
  let r := eval vm_compute in
        (play zero_memory (new_game 15 GAME_FREESTYLE) drawn_game_but_last) in
  match r with
  | Some ?G =>
      assert (Hplay : play zero_memory (new_game 15 GAME_FREESTYLE)
                           drawn_game_but_last = Some G)
        by (vm_compute; reflexivity);
      exists G;
      destruct (last_stone_draws zero_memory G 13 14) as (g' & H)
  end.
  - intros st i [-> | ->]; discriminate.
  - split; [left; reflexivity | reflexivity].
  - left. reflexivity.
  - left. reflexivity.
  - vm_compute. reflexivity.
  - vm_compute. reflexivity.
  - vm_compute. reflexivity.
  - exists g'. split; [exact Hplay | exact H].
Defined.

Lemma count_fours_mono (beyond : Z -> Z) (b : board) (st : Z)
      (flank : Z -> Z -> Z -> (Z * Z) * (Z * Z)) (cells : list (Z * Z)) :
  forall c o : Z, o <= count_fours beyond b st flank cells c o.
Proof.
  induction cells as [|[cx cy] rest IH]; intros c o; simpl; [lia|].
  destruct (board_get beyond b cx cy =? st); [|apply IH].
  destruct (c + 1 =? NEEDED_CONNECTIONS - 1); [|apply IH].
  destruct (flank cx cy (c + 1)) as [[ax ay] [px py]].
  destruct ((board_get beyond b ax ay =? EMPTY_INTERSECTION)
            && (board_get beyond b px py =? EMPTY_INTERSECTION));
    [specialize (IH (c + 1) (o + 1)); lia | apply IH].
Qed.

(** A cell of another colour, four stones, and two empty cells where
    the scan looks for the ends: the scan counts an open four. *)
Lemma count_fours_finds (beyond : Z -> Z) (b : board) (st : Z)
      (flank : Z -> Z -> Z -> (Z * Z) * (Z * Z))
      (pb s1 s2 s3 s4 after before : Z * Z) (rest : list (Z * Z)) :
  board_get beyond b (fst pb) (snd pb) <> st ->
  board_get beyond b (fst s1) (snd s1) = st ->
  board_get beyond b (fst s2) (snd s2) = st ->
  board_get beyond b (fst s3) (snd s3) = st ->
  board_get beyond b (fst s4) (snd s4) = st ->
  flank (fst s4) (snd s4) (NEEDED_CONNECTIONS - 1) = (after, before) ->
  board_get beyond b (fst after) (snd after) = EMPTY_INTERSECTION ->
  board_get beyond b (fst before) (snd before) = EMPTY_INTERSECTION ->
  forall (pre : list (Z * Z)) (c o : Z),
    o + 1 <= count_fours beyond b st flank
               (pre ++ pb :: s1 :: s2 :: s3 :: s4 :: rest) c o.
Proof.
  intros Hb H1 H2 H3 H4 Hf Ha Hp.
  induction pre as [|[cx cy] pre IH]; intros c o.
  - destruct pb as [bx by_], s1 as [x1 y1], s2 as [x2 y2], s3 as [x3 y3],
             s4 as [x4 y4], after as [ax ay], before as [px py].
    simpl in *. change (NEEDED_CONNECTIONS - 1) with 4 in *.
    apply Z.eqb_neq in Hb.
    cbn [count_fours]. change (NEEDED_CONNECTIONS - 1) with 4.
    rewrite Hb, H1, H2, H3, H4, !Z.eqb_refl. simpl.
    change (0 + 1 + 1 + 1 + 1) with 4.
    rewrite Hf, Ha, Hp. simpl.
    apply count_fours_mono.
  - simpl.
    destruct (board_get beyond b cx cy =? st); [|apply IH].
    destruct (c + 1 =? NEEDED_CONNECTIONS - 1); [|apply IH].
    destruct (flank cx cy (c + 1)) as [[ax ay] [px py]].
    destruct ((board_get beyond b ax ay =? EMPTY_INTERSECTION)
              && (board_get beyond b px py =? EMPTY_INTERSECTION));
      [specialize (IH (c + 1) (o + 1)); lia | apply IH].
Qed.

Lemma cell_is_at (b : board) (x y x' y' v : Z) :
  cell_is b x y v = true -> x = x' -> y = y' -> cell_is b x' y' v = true.
Proof. intros H -> ->. exact H. Qed.

(** Both diagonal scans count an open four of the spec through the
    intersection they start from. *)
Lemma diagonal_four_counted (beyond : Z -> Z) (b : board) (st : Z) (a : axis)
      (flank : Z -> Z -> Z -> (Z * Z) * (Z * Z)) (x y o : Z) :
  well_formed b -> on_board b x y -> st <> EMPTY_INTERSECTION ->
  (a = DiagonalDown /\ flank = flank_diag_down)
  \/ (a = DiagonalUp /\ flank = flank_diag_up) ->
  open_four_through b st a x y = true ->
  o + 1 <= count_fours beyond b st flank (axis_cells a (size b) x y) 0 o.
Proof.
  intros Hwf Hon Hst Ha Hfour.
  unfold open_four_through in Hfour.
  apply List.existsb_exists in Hfour as (j & Hj & Hspec).
  apply list_elem_of_In, elem_of_seqZ in Hj.
  unfold spec_open_four in Hspec.
  apply andb_prop in Hspec as [Hspec Hafter].
  apply andb_prop in Hspec as [Hrun Hbefore].
  unfold run_at in Hrun. rewrite List.forallb_forall in Hrun.
  assert (Hstone : forall i : Z, 0 <= i < 4 ->
            cell_is b (x - j * fst (axis_step a) + i * fst (axis_step a))
                      (y - j * snd (axis_step a) + i * snd (axis_step a))
                      st = true).
  { intros i Hi.
    apply (Hrun (x - j * fst (axis_step a) + i * fst (axis_step a),
                 y - j * snd (axis_step a) + i * snd (axis_step a))).
    unfold segment. apply in_map_iff. exists i.
    split; [reflexivity | apply in_seqZ; exact Hi]. }
  destruct (scan_covers_boards (size b) (proj1 Hwf)) as [_ Hcov].
  destruct (scan_covers_spec (size b) 6 a x y (j + 1) Hcov
              (proj1 Hon) (proj2 Hon)) as (pre & post & Hpath).
  { lia. }
  { intros p Hp. unfold segment in Hp. apply in_map_iff in Hp as (i & <- & Hi).
    apply list_elem_of_In, elem_of_seqZ in Hi. simpl.
    assert (Hcell : exists v,
              cell_is b (x - (j + 1) * fst (axis_step a) + i * fst (axis_step a))
                        (y - (j + 1) * snd (axis_step a) + i * snd (axis_step a))
                        v = true).
    { destruct (Z.eq_dec i 0) as [-> | Hn0].
      - exists EMPTY_INTERSECTION. apply (cell_is_at _ _ _ _ _ _ Hbefore); lia.
      - destruct (Z.eq_dec i 5) as [-> | Hn5].
        + exists EMPTY_INTERSECTION.
          apply (cell_is_at _ _ _ _ _ _ Hafter); lia.
        + exists st. apply (cell_is_at _ _ _ _ _ _ (Hstone (i - 1) ltac:(lia)));
            lia. }
    destruct Hcell as [v Hv].
    destruct (cell_is_on_board _ _ _ _ Hv) as [Hb _]. exact Hb. }
  rewrite Hpath.
  unfold segment. change (seqZ 0 6) with [0; 1; 2; 3; 4; 5].
  cbn [map app fst snd segment_start].
  match goal with
  | |- context [pre ++ ?p0 :: ?p1 :: ?p2 :: ?p3 :: ?p4 :: ?p5 :: post] =>
      apply (count_fours_finds beyond b st flank p0 p1 p2 p3 p4
               (fst (flank (fst p4) (snd p4) (NEEDED_CONNECTIONS - 1)))
               (snd (flank (fst p4) (snd p4) (NEEDED_CONNECTIONS - 1)))
               (p5 :: post))
  end.
  - cbn [fst snd].
    rewrite (board_get_cell_is beyond b _ _ EMPTY_INTERSECTION Hwf);
      [auto | apply (cell_is_at _ _ _ _ _ _ Hbefore); lia].
  - cbn [fst snd]. apply board_get_cell_is; [exact Hwf|].
    apply (cell_is_at _ _ _ _ _ _ (Hstone 0 ltac:(lia))); lia.
  - cbn [fst snd]. apply board_get_cell_is; [exact Hwf|].
    apply (cell_is_at _ _ _ _ _ _ (Hstone 1 ltac:(lia))); lia.
  - cbn [fst snd]. apply board_get_cell_is; [exact Hwf|].
    apply (cell_is_at _ _ _ _ _ _ (Hstone 2 ltac:(lia))); lia.
  - cbn [fst snd]. apply board_get_cell_is; [exact Hwf|].
    apply (cell_is_at _ _ _ _ _ _ (Hstone 3 ltac:(lia))); lia.
  - apply surjective_pairing.
  - change (NEEDED_CONNECTIONS - 1) with 4.
    destruct Ha as [[-> ->] | [-> ->]]; cbn [fst snd axis_step flank_diag_down flank_diag_up] in *;
      (apply board_get_cell_is; [exact Hwf|]);
      apply (cell_is_at _ _ _ _ _ _ Hafter); lia.
  - change (NEEDED_CONNECTIONS - 1) with 4.
    destruct Ha as [[-> ->] | [-> ->]]; cbn [fst snd axis_step flank_diag_down flank_diag_up] in *;
      (apply board_get_cell_is; [exact Hwf|]);
      apply (cell_is_at _ _ _ _ _ _ Hbefore); lia.
Qed.

(** In a Renju game, a Black stone that makes no line of five and is
    one of the four stones of an open four on each of the two
    diagonals is a forbidden move: the placement is accepted, the
    state becomes Forbidden and White is the winner. *)
Theorem diagonal_double_four_forbidden (beyond : Z -> Z) (g : game) (x y : Z) :
  well_formed (gboard g) ->
  type g = GAME_RENJU -> stone g = BLACK_STONE ->
  cell_is (gboard g) x y EMPTY_INTERSECTION = true ->
  line_win beyond (stone_placed g x y) x y = false ->
  open_four_through (gboard (stone_placed g x y)) BLACK_STONE DiagonalDown x y
  = true ->
  open_four_through (gboard (stone_placed g x y)) BLACK_STONE DiagonalUp x y
  = true ->
  exists g' : game,
    game_place_stone beyond g x y = Ret (true, g')
    /\ state g' = GAME_STATE_FORBIDDEN
    /\ winner g' = WHITE_STONE.
Proof.
  intros Hwf Hty Hst Hcell Hline Hdown Hup.
  destruct (cell_is_on_board _ _ _ _ Hcell) as [Hon _].
  assert (Hget : board_get beyond (gboard g) x y = EMPTY_INTERSECTION)
    by (apply board_get_cell_is; assumption).
  assert (Hwf' : well_formed (gboard (stone_placed g x y)))
    by (apply store_well_formed; exact Hwf).
  assert (Hon' : on_board (gboard (stone_placed g x y)) x y) by exact Hon.
  assert (Hblack : BLACK_STONE <> EMPTY_INTERSECTION) by discriminate.
  exists (apply_rules beyond (stone_placed g x y) x y).
  split; [apply place_on_empty; [exact Hget | left; exact Hst]|].
  assert (Hcount : (ALLOWED_OPEN_FOURS
                    <? open_fours beyond (stone_placed g x y) x y) = true).
  { apply Z.ltb_lt. unfold open_fours, ALLOWED_OPEN_FOURS.
    change (stone (stone_placed g x y)) with (stone g). rewrite Hst.
    set (b := gboard (stone_placed g x y)) in *.
    set (v := count_fours beyond b BLACK_STONE flank_vertical _ 0 0).
    set (h := count_fours beyond b BLACK_STONE flank_horizontal _ 0 v).
    set (d := count_fours beyond b BLACK_STONE flank_diag_down _ 0 h).
    pose proof (count_fours_mono beyond b BLACK_STONE flank_vertical
                  (column_cells (size b) x) 0 0) as Hv.
    pose proof (count_fours_mono beyond b BLACK_STONE flank_horizontal
                  (row_cells (size b) y) 0 v) as Hh.
    pose proof (diagonal_four_counted beyond b BLACK_STONE DiagonalDown
                  flank_diag_down x y h Hwf' Hon' Hblack
                  (or_introl (conj eq_refl eq_refl)) Hdown) as Hd.
    pose proof (diagonal_four_counted beyond b BLACK_STONE DiagonalUp
                  flank_diag_up x y d Hwf' Hon' Hblack
                  (or_intror (conj eq_refl eq_refl)) Hup) as Hu.
    cbn [axis_cells] in Hd, Hu. fold v in Hv. fold h in Hh. fold d in Hd.
    lia. }
  unfold apply_rules, doubleOpenFours.
  change (type (stone_placed g x y)) with (type g).
  change (stone (stone_placed g x y)) with (stone g).
  rewrite Hty, Hst, Hline, Hcount. simpl. split; reflexivity.
Qed.

Lemma diagonal_double_four_forbidden_witness :
  exists g g' : game,
    play zero_memory (new_game 15 GAME_RENJU) diagonal_cross_opening = Some g
    /\ game_place_stone zero_memory g 7 7 = Ret (true, g')
    /\ state g' = GAME_STATE_FORBIDDEN
    /\ winner g' = WHITE_STONE.
Proof.
  let r := eval vm_compute in
        (play zero_memory (new_game 15 GAME_RENJU) diagonal_cross_opening) in
  match r with
  | Some ?G =>
      assert (Hplay : play zero_memory (new_game 15 GAME_RENJU)
                           diagonal_cross_opening = Some G)
        by (vm_compute; reflexivity);
      exists G;
      destruct (diagonal_double_four_forbidden zero_memory G 7 7)
        as (g' & H)
  end.
  - split; [left; reflexivity | reflexivity].
  - reflexivity.
  - reflexivity.
  - vm_compute. reflexivity.
  - vm_compute. reflexivity.
  - vm_compute. reflexivity.
  - vm_compute. reflexivity.
  - exists g'. split; [exact Hplay | exact H].
Defined.

(** ** Instances of the outcomes of a placement *)

Lemma five_in_row_wins_witness :
  exists g g' : game,
    play zero_memory (new_game 15 GAME_FREESTYLE) (removelast black_wins_row_0)
    = Some g
    /\ game_place_stone (one_then_zero 15) g 4 0 = Ret (true, g')
    /\ state g' = GAME_STATE_FINISHED /\ winner g' = stone g.
Proof.
  let r := eval vm_compute in
        (play zero_memory (new_game 15 GAME_FREESTYLE)
              (removelast black_wins_row_0)) in
  match r with
  | Some ?G =>
      assert (Hplay : play zero_memory (new_game 15 GAME_FREESTYLE)
                           (removelast black_wins_row_0) = Some G)
        by (vm_compute; reflexivity);
      exists G;
      destruct (five_in_row_wins (one_then_zero 15) G 4 0) as (g' & H)
  end.
  - split; [left; reflexivity | reflexivity].
  - left. reflexivity.
  - left. reflexivity.
  - vm_compute. reflexivity.
  - vm_compute. reflexivity.
  - exists g'. split; [exact Hplay | exact H].
Defined.

Lemma no_five_no_winner_witness :
  exists g' : game,
    game_place_stone zero_memory (new_game 15 GAME_FREESTYLE) 7 7
    = Ret (true, g')
    /\ winner g' = winner (new_game 15 GAME_FREESTYLE).
Proof.
  apply (no_five_no_winner zero_memory (new_game 15 GAME_FREESTYLE) 7 7).
  - intros st i [-> | ->]; discriminate.
  - split; [left; reflexivity | reflexivity].
  - left. reflexivity.
  - left. reflexivity.
  - vm_compute. reflexivity.
  - vm_compute. reflexivity.
Defined.

Lemma renju_black_never_draws_witness :
  exists g g' : game,
    play zero_memory (new_game 15 GAME_RENJU) gap_on_row_0 = Some g
    /\ game_place_stone zero_memory g 3 0 = Ret (true, g')
    /\ (state g' = GAME_STATE_PLAYING
        \/ (state g' = GAME_STATE_FINISHED /\ winner g' = BLACK_STONE)
        \/ (state g' = GAME_STATE_FORBIDDEN /\ winner g' = WHITE_STONE)).
Proof.
  let r := eval vm_compute in
        (play zero_memory (new_game 15 GAME_RENJU) gap_on_row_0) in
  match r with
  | Some ?G =>
      assert (Hplay : play zero_memory (new_game 15 GAME_RENJU) gap_on_row_0
                      = Some G)
        by (vm_compute; reflexivity);
      exists G;
      let r' := eval vm_compute in (game_place_stone zero_memory G 3 0) in
      match r' with
      | Ret (true, ?G') =>
          assert (Hplace : game_place_stone zero_memory G 3 0 = Ret (true, G'))
            by (vm_compute; reflexivity);
          exists G';
          pose proof (renju_black_never_draws zero_memory G 3 0 G'
                        eq_refl eq_refl eq_refl Hplace) as H
      end
  end.
  split; [exact Hplay|]. split; [exact Hplace | exact H].
Defined.

Lemma loops_end_witness :
  diag_down_walk (S loop_bound) 19 255 0 = diag_down_walk loop_bound 19 255 0
  /\ diag_up_walk (S loop_bound) 19 255 0 = diag_up_walk loop_bound 19 255 0.
Proof.
  destruct (loops_end 19 255 0) as (_ & _ & Hd & Hu); [lia | lia |].
  exact (conj Hd Hu).
Defined.

(** ** io.c: the files that [game_import] accepts *)

Lemma place_returns (beyond : Z -> Z) (g : game) (x y : Z) :
  stone g = BLACK_STONE \/ stone g = WHITE_STONE ->
  exists r : bool * game, game_place_stone beyond g x y = Ret r.
Proof.
  intros Hst.
  destruct (Z.eq_dec (board_get beyond (gboard g) x y) EMPTY_INTERSECTION)
    as [He | Hne].
  - eexists. apply place_on_empty; assumption.
  - eexists. apply place_on_occupied. exact Hne.
Qed.

Lemma place_keeps_type (beyond : Z -> Z) (g : game) (x y : Z)
      (r : bool * game) :
  game_place_stone beyond g x y = Ret r ->
  type (snd r) = type g
  /\ (length (moves (snd r)) <= S (length (moves g)))%nat.
Proof.
  intros Hp.
  destruct (place_cases beyond g x y r Hp) as [-> | (_ & _ & ->)];
    [simpl; split; [reflexivity | lia]|].
  simpl.
  destruct (apply_rules_frame beyond (stone_placed g x y) x y)
    as (_ & Hm & Ht).
  rewrite Hm, Ht. unfold stone_placed, record_move. simpl.
  rewrite length_app. simpl. split; [reflexivity | lia].
Qed.

Lemma place_never_stays_open (beyond : Z -> Z) (g : game) (x y : Z)
      (r : bool * game) :
  game_place_stone beyond g x y = Ret r ->
  state g <> GAME_STATE_PLAYING -> state (snd r) <> GAME_STATE_PLAYING.
Proof.
  intros Hp Hnp.
  destruct (place_cases beyond g x y r Hp) as [-> | (_ & _ & ->)];
    [exact Hnp|].
  simpl.
  destruct (apply_rules_state beyond (stone_placed g x y) x y)
    as ([H | [H | H]] & _); rewrite H; [exact Hnp | discriminate..].
Qed.

Lemma board_coord_hits_board (b : board) (w : string) (x y : Z) :
  valid_size (size b) -> board_coord b w = Some (x, y) -> on_board b x y.
Proof.
  intros Hsz Hw.
  destruct (board_coord_accepts_only b w x y Hsz Hw)
    as (c & row & _ & Hc & Hrow & _ & -> & ->).
  unfold on_board. lia.
Qed.

(** The loop of [game_import], from a game with a well-formed board, a
    log that counts the stones and a colour to move. *)
Lemma import_moves_spec (beyond : Z -> Z) (ws : list string) :
  forall h : game,
    well_formed (gboard h) /\ log_counts_stones h
    /\ (stone h = BLACK_STONE \/ stone h = WHITE_STONE) ->
    (Forall (fun w => board_coord (gboard h) w <> None) ws ->
     exists g : game, import_moves beyond h ws = Ret g)
    /\ (forall g : game,
          import_moves beyond h ws = Ret g ->
          Forall (fun w => board_coord (gboard h) w <> None) ws
          /\ (well_formed (gboard g) /\ log_counts_stones g
              /\ (stone g = BLACK_STONE \/ stone g = WHITE_STONE))
          /\ size (gboard g) = size (gboard h)
          /\ type g = type h
          /\ (length (moves g) <= length (moves h) + length ws)%nat
          /\ (state h <> GAME_STATE_PLAYING -> state g <> GAME_STATE_PLAYING))
    /\ (forall e : error_code,
          import_moves beyond h ws = Exit e -> e = FILE_INPUT_ERR).
Proof.
  induction ws as [|w ws IH]; intros h Hinv.
  - simpl. split; [intros _; eexists; reflexivity|].
    split; [|discriminate].
    intros g [= <-]. split; [constructor|]. split; [exact Hinv|].
    repeat split; auto. lia.
  - cbn [import_moves].
    destruct (board_coord (gboard h) w) as [[x y]|] eqn:Ew.
    2:{ split; [intros HF; inversion HF; congruence|].
        split; [discriminate | intros e [= <-]; reflexivity]. }
    assert (Hon : on_board (gboard h) x y)
      by (apply (board_coord_hits_board _ w); [apply Hinv | exact Ew]).
    destruct (place_returns beyond h x y (proj2 (proj2 Hinv))) as [r Hr].
    rewrite Hr. cbn [obind].
    pose proof (place_keeps_counts beyond h x y r Hinv Hon Hr) as Hinv'.
    pose proof (place_keeps_size beyond h x y r Hr) as Hsz.
    destruct (place_keeps_type beyond h x y r Hr) as [Hty Hlen].
    pose proof (place_never_stays_open beyond h x y r Hr) as Hstate.
    assert (Hsame : forall v : string,
              board_coord (gboard (snd r)) v = board_coord (gboard h) v)
      by (intros v; apply board_coord_size; exact Hsz).
    destruct (IH (snd r) Hinv') as (IH1 & IH2 & IH3).
    split; [|split; [|exact IH3]].
    + intros HF. inversion HF as [|? ? _ HF']; subst. apply IH1.
      eapply Forall_impl; [exact HF'|]. intros v Hv. rewrite Hsame. exact Hv.
    + intros g Hg.
      destruct (IH2 g Hg) as (HF & HI & Hs & Ht & Hl & Hst).
      split.
      { constructor; [congruence|].
        eapply Forall_impl; [exact HF|]. intros v Hv. rewrite <- Hsame.
        exact Hv. }
      split; [exact HI|]. split; [congruence|]. split; [congruence|].
      split; [simpl; lia|]. intros Hnp. apply Hst, Hstate, Hnp.
Qed.

Lemma one_of_three (v a b c : Z) :
  negb (v =? a) && negb (v =? b) && negb (v =? c) = false
  <-> v = a \/ v = b \/ v = c.
Proof.
  destruct (v =? a) eqn:Ea, (v =? b) eqn:Eb, (v =? c) eqn:Ec; simpl;
    rewrite ?Z.eqb_eq, ?Z.eqb_neq in *; split; intros H;
    try reflexivity; try discriminate; try auto; lia.
Qed.

Lemma one_of_two (v a b : Z) :
  negb (v =? a) && negb (v =? b) = false <-> v = a \/ v = b.
Proof.
  destruct (v =? a) eqn:Ea, (v =? b) eqn:Eb; simpl;
    rewrite ?Z.eqb_eq, ?Z.eqb_neq in *; split; intros H;
    try reflexivity; try discriminate; try auto; lia.
Qed.

(** The game that [game_import] hands to its loop. *)
Lemma game_import_header (beyond : Z -> Z) (f : save_file) :
  (sv_magic f = "GA"%string
   /\ valid_size (sv_size f)
   /\ (sv_type f = GAME_FREESTYLE \/ sv_type f = GAME_RENJU)
   /\ (sv_state f = GAME_STATE_FORBIDDEN \/ sv_state f = GAME_STATE_STOPPED
       \/ sv_state f = GAME_STATE_FINISHED)
   /\ (sv_winner f = EMPTY_INTERSECTION \/ sv_winner f = BLACK_STONE
       \/ sv_winner f = WHITE_STONE)
   /\ game_import beyond f
      = import_moves beyond
          (with_winner (with_state (new_game (sv_size f) (sv_type f))
                                   (sv_state f)) (sv_winner f))
          (sv_coords f))
  \/ (~ (sv_magic f = "GA"%string
         /\ valid_size (sv_size f)
         /\ (sv_type f = GAME_FREESTYLE \/ sv_type f = GAME_RENJU)
         /\ (sv_state f = GAME_STATE_FORBIDDEN
             \/ sv_state f = GAME_STATE_STOPPED
             \/ sv_state f = GAME_STATE_FINISHED)
         /\ (sv_winner f = EMPTY_INTERSECTION \/ sv_winner f = BLACK_STONE
             \/ sv_winner f = WHITE_STONE))
      /\ game_import beyond f = Exit FILE_INPUT_ERR).
Proof.
  unfold game_import.
  destruct (String.eqb_spec (sv_magic f) "GA") as [Hm | Hm]; cbn [negb];
    [|right; split; [intros (H & _); contradiction | reflexivity]].
  destruct (negb (sv_size f =? BOARD_SIZE_15)
            && negb (sv_size f =? BOARD_SIZE_17)
            && negb (sv_size f =? BOARD_SIZE_19)) eqn:Esz.
  { right. split; [|reflexivity]. intros (_ & H & _).
    apply (proj2 (one_of_three (sv_size f) BOARD_SIZE_15 BOARD_SIZE_17
                               BOARD_SIZE_19)) in H.
    congruence. }
  destruct (negb (sv_type f =? GAME_FREESTYLE)
            && negb (sv_type f =? GAME_RENJU)) eqn:Ety.
  { right. split; [|reflexivity]. intros (_ & _ & H & _).
    apply one_of_two in H. congruence. }
  destruct (negb (sv_state f =? GAME_STATE_FORBIDDEN)
            && negb (sv_state f =? GAME_STATE_STOPPED)
            && negb (sv_state f =? GAME_STATE_FINISHED)) eqn:Est.
  { right. split; [|reflexivity]. intros (_ & _ & _ & H & _).
    apply one_of_three in H. congruence. }
  destruct (negb (sv_winner f =? EMPTY_INTERSECTION)
            && negb (sv_winner f =? BLACK_STONE)
            && negb (sv_winner f =? WHITE_STONE)) eqn:Ewi.
  { right. split; [|reflexivity]. intros (_ & _ & _ & _ & H).
    apply one_of_three in H. congruence. }
  left. unfold game_create, board_create. rewrite Esz. cbn [obind].
  apply one_of_three in Esz, Est, Ewi. apply one_of_two in Ety.
  repeat (split; [assumption|]). reflexivity.
Qed.

Lemma new_game_counts (sz ty st w : Z) :
  valid_size sz ->
  well_formed (gboard (with_winner (with_state (new_game sz ty) st) w))
  /\ log_counts_stones (with_winner (with_state (new_game sz ty) st) w)
  /\ (stone (with_winner (with_state (new_game sz ty) st) w) = BLACK_STONE
      \/ stone (with_winner (with_state (new_game sz ty) st) w) = WHITE_STONE).
Proof.
  intros Hsz.
  assert (Hc : game_create sz ty = Ret (new_game sz ty))
    by (destruct Hsz as [-> | [-> | ->]]; reflexivity).
  destruct (new_game_invariant sz ty _ Hc) as (Hwf & Hcnt & _ & Hst & _).
  split; [exact Hwf|]. split; [exact Hcnt | exact Hst].
Qed.



(** The game that [game_import] returns has the size and the type of
    the file, a well-formed board, one move in the log per stone of
    the board and at most one per word of the file, a colour to move,
    and a state other than Playing. *)
Theorem imported_game (beyond : Z -> Z) (f : save_file) (g : game) :
  game_import beyond f = Ret g ->
  size (gboard g) = sv_size f
  /\ type g = sv_type f
  /\ well_formed (gboard g)
  /\ log_counts_stones g
  /\ (stone g = BLACK_STONE \/ stone g = WHITE_STONE)
  /\ moves_count g <= Z.of_nat (length (sv_coords f))
  /\ state g <> GAME_STATE_PLAYING.
Proof.
  intros Hg.
  destruct (game_import_header beyond f)
    as [(Hm & Hsz & Hty & Hst & Hwi & Heq) | (_ & Heq)];
    rewrite Heq in Hg; [|discriminate].
  destruct (import_moves_spec beyond (sv_coords f) _
              (new_game_counts (sv_size f) (sv_type f) (sv_state f)
                               (sv_winner f) Hsz)) as (_ & H2 & _).
  destruct (H2 g Hg) as (_ & (Hwf & Hcnt & Hstone) & Hs & Ht & Hl & Hnp).
  simpl in Hs, Ht, Hl.
  split; [exact Hs|]. split; [exact Ht|]. split; [exact Hwf|].
  split; [exact Hcnt|]. split; [exact Hstone|].
  split; [unfold moves_count; lia|].
  apply Hnp. simpl.
  destruct Hst as [-> | [-> | ->]]; discriminate.
Qed.

Lemma imported_game_witness :
  exists g : game,
    game_import zero_memory
      (mkSave "GA" 15 GAME_RENJU GAME_STATE_STOPPED EMPTY_INTERSECTION
              ["H8"; "H8"; "A1"]%string) = Ret g
    /\ moves_count g = 2
    /\ log_counts_stones g
    /\ state g <> GAME_STATE_PLAYING.
Proof.
  eexists. split; [vm_compute; reflexivity|].
  split; [reflexivity|].
  match goal with
  | |- log_counts_stones ?G /\ _ =>
      destruct (imported_game zero_memory
                  (mkSave "GA" 15 GAME_RENJU GAME_STATE_STOPPED
                          EMPTY_INTERSECTION ["H8"; "H8"; "A1"]%string) G)
        as (_ & _ & _ & Hc & _ & _ & Hn)
  end.
  - vm_compute. reflexivity.
  - exact (conj Hc Hn).
Defined.

(** [game_export] writes the state Playing as it writes any other,
    and [game_import] refuses the file. *)
Theorem export_in_play_not_importable (beyond : Z -> Z) (stack : string)
        (g : game) :
  state g = GAME_STATE_PLAYING ->
  game_import beyond (game_export stack g) = Exit FILE_INPUT_ERR.
Proof.
  intros Hp.
  destruct (game_import_header beyond (game_export stack g))
    as [(_ & _ & _ & Hst & _) | (_ & Heq)]; [|exact Heq].
  simpl in Hst. rewrite Hp in Hst.
  destruct Hst as [H | [H | H]]; discriminate.
Qed.

Lemma export_in_play_not_importable_witness :
  game_import zero_memory (game_export zero_stack one_stone_game)
  = Exit FILE_INPUT_ERR.
Proof.
  apply export_in_play_not_importable. reflexivity.
Defined.

(** ** io.c and game.c: a saved game comes back as it was *)

Lemma game_eq (g g' : game) :
  gboard g = gboard g' -> type g = type g' -> stone g = stone g' ->
  state g = state g' -> winner g = winner g' -> moves g = moves g' ->
  moves_capacity g = moves_capacity g' -> g = g'.
Proof.
  destruct g, g'. simpl. intros. subst. reflexivity.
Qed.

Lemma finished_or_stopped_fields (g : game) :
  gboard (finished_or_stopped g) = gboard g
  /\ type (finished_or_stopped g) = type g
  /\ stone (finished_or_stopped g) = stone g
  /\ winner (finished_or_stopped g) = winner g
  /\ moves (finished_or_stopped g) = moves g
  /\ moves_capacity (finished_or_stopped g) = moves_capacity g.
Proof.
  unfold finished_or_stopped.
  destruct (state g =? GAME_STATE_PLAYING); simpl; auto 10.
Qed.

(** The replay of [game_import] and [game_replay], started with the
    state and the winner of a finished or stopped game, ends in that
    game, log and capacity included, unless the game is a Renju game
    that Black has won. *)
Lemma replay_exact (beyond : Z -> Z) (ps : list (Z * Z)) :
  forall g1 g2 G : game,
    shadow g1 g2 ->
    moves g1 = moves g2 -> moves_capacity g1 = moves_capacity g2 ->
    sane g1 -> state g1 = GAME_STATE_PLAYING ->
    play beyond g1 ps = Some G ->
    state g2 = state (finished_or_stopped G) ->
    winner g2 = winner (finished_or_stopped G) ->
    type g1 <> GAME_RENJU \/ winner (finished_or_stopped G) <> BLACK_STONE ->
    place_all beyond g2 ps = Ret (finished_or_stopped G).
Proof.
  induction ps as [|[x y] ps IH];
    intros g1 g2 G Hsh Hmv Hcap Hs Hplay Hp HS HW Hok; simpl in Hp.
  - injection Hp as <-. simpl. f_equal.
    destruct Hsh as (Hb & Ht & Hst).
    destruct (finished_or_stopped_fields g1) as (Fb & Ft & Fs & Fw & Fm & Fc).
    apply game_eq; congruence.
  - rewrite Hplay in Hp. simpl in Hp.
    destruct (game_place_stone beyond g1 x y) as [[[] g1']|] eqn:E;
      try discriminate.
    apply place_accepted in E as (Hget & Hst & ->).
    pose proof (sane_playing g1 Hs Hplay) as Hwin.
    destruct Hsh as (Hb & Ht & Hst2).
    assert (Hsh' : shadow (stone_placed g1 x y) (stone_placed g2 x y)).
    { unfold shadow, stone_placed. simpl. rewrite Hb, Hst2. auto. }
    assert (Hok' : type (stone_placed g1 x y) <> GAME_RENJU
                   \/ winner (stone_placed g2 x y) <> BLACK_STONE).
    { destruct Hok as [Hok | Hok]; [left; exact Hok | right].
      simpl. rewrite HW. exact Hok. }
    destruct (rules_agree beyond (stone_placed g1 x y) (stone_placed g2 x y)
                x y Hsh' Hplay Hwin Hok') as (Hsh'' & Hcase).
    simpl. rewrite place_on_empty by
        (rewrite <- ?Hb, <- ?Hst2; assumption).
    simpl.
    destruct (apply_rules_frame beyond (stone_placed g1 x y) x y)
      as (_ & Hm1 & Ht1).
    destruct (apply_rules_frame beyond (stone_placed g2 x y) x y)
      as (_ & Hm2 & _).
    pose proof (apply_rules_capacity beyond (stone_placed g1 x y) x y) as Hc1.
    pose proof (apply_rules_capacity beyond (stone_placed g2 x y) x y) as Hc2.
    assert (Hmv' : moves (apply_rules beyond (stone_placed g1 x y) x y)
                   = moves (apply_rules beyond (stone_placed g2 x y) x y)).
    { rewrite Hm1, Hm2. unfold stone_placed, record_move. simpl.
      rewrite Hmv, Hst2. reflexivity. }
    assert (Hcap' : moves_capacity (apply_rules beyond (stone_placed g1 x y) x y)
                    = moves_capacity
                        (apply_rules beyond (stone_placed g2 x y) x y)).
    { rewrite Hc1, Hc2. unfold stone_placed, record_move, moves_count. simpl.
      rewrite Hmv, Hcap. reflexivity. }
    destruct Hcase as [(Hp1 & _ & HS2 & HW2) | (Hp1 & HS2 & HW2)].
    + apply (IH (apply_rules beyond (stone_placed g1 x y) x y)); auto.
      * apply (apply_rules_sane beyond (stone_placed g1 x y)); assumption.
      * rewrite HS2. exact HS.
      * rewrite HW2. exact HW.
      * rewrite Ht1. exact Hok.
    + destruct ps as [|[x' y'] ps]; simpl in Hp.
      2:{ destruct (state (apply_rules beyond (stone_placed g1 x y) x y)
                    =? GAME_STATE_PLAYING) eqn:E;
            [apply Z.eqb_eq in E; contradiction | discriminate]. }
      injection Hp as <-.
      assert (Hf : finished_or_stopped
                     (apply_rules beyond (stone_placed g1 x y) x y)
                   = apply_rules beyond (stone_placed g1 x y) x y).
      { unfold finished_or_stopped.
        destruct (state _ =? GAME_STATE_PLAYING) eqn:E;
          [apply Z.eqb_eq in E; contradiction | reflexivity]. }
      rewrite Hf in *. simpl. f_equal.
      destruct Hsh'' as (Hb'' & Ht'' & Hs'').
      apply game_eq; try congruence.
      destruct HW2 as [HW2 | [HW1 HW2]]; [exact HW2|].
      rewrite HW2. exact HW.
Qed.

Lemma round_trip_exact (beyond : Z -> Z) (stack : string) (sz ty : Z)
      (ps : list (Z * Z)) (g : game) :
  valid_size sz ->
  ty = GAME_FREESTYLE \/ ty = GAME_RENJU ->
  terminated stack ->
  all_on_board sz ps = true ->
  play beyond (new_game sz ty) ps = Some g ->
  ty = GAME_FREESTYLE \/ winner g <> BLACK_STONE ->
  game_import beyond (game_export stack (finished_or_stopped g))
  = Ret (finished_or_stopped g)
  /\ game_replay beyond (finished_or_stopped g) = Ret (finished_or_stopped g).
Proof.
  intros Hsz Hty Hstack Hon Hp Hok.
  assert (Hs0 : sane (new_game sz ty)) by (split; simpl; auto).
  destruct (play_facts beyond ps _ g Hs0 Hp) as (Hs & Hsize & Htype & Hmoves).
  simpl in Hsize, Htype, Hmoves.
  destruct (finished_or_stopped_fields g) as (Fb & Ft & Fs & Fw & Fm & Fc).
  assert (HS : state (finished_or_stopped g) = GAME_STATE_FORBIDDEN
               \/ state (finished_or_stopped g) = GAME_STATE_STOPPED
               \/ state (finished_or_stopped g) = GAME_STATE_FINISHED).
  { unfold finished_or_stopped.
    destruct Hs as [_ [[H _] | [[H _] | [H _]]]]; rewrite H; simpl; auto. }
  assert (HW : winner g = EMPTY_INTERSECTION \/ winner g = BLACK_STONE
               \/ winner g = WHITE_STONE).
  { destruct Hs as [_ [[_ H] | [[_ H] | [_ H]]]]; auto. }
  assert (Hplace :
            place_all beyond
              (with_winner (with_state (new_game sz ty)
                                       (state (finished_or_stopped g)))
                           (winner (finished_or_stopped g))) ps
            = Ret (finished_or_stopped g)).
  { apply (replay_exact beyond ps (new_game sz ty)); auto.
    - repeat split.
    - rewrite Fw.
      destruct Hok as [-> | Hok]; [left; discriminate | right; exact Hok]. }
  assert (Hcreate : game_create sz ty = Ret (new_game sz ty))
    by (destruct Hsz as [-> | [-> | ->]]; reflexivity).
  split.
  - destruct (game_import_header beyond
                (game_export stack (finished_or_stopped g)))
      as [(_ & _ & _ & _ & _ & ->) | (Hno & _)].
    + cbn [game_export sv_size sv_type sv_state sv_winner sv_coords].
      rewrite Fb, Ft, Fm, Hsize, Htype.
      rewrite export_then_import.
      * rewrite Hmoves. simpl. exact Hplace.
      * rewrite Hsize. exact Hsz.
      * exact Hstack.
      * simpl. symmetry. exact Hsize.
      * rewrite Hsize, Hmoves. exact Hon.
    + exfalso. apply Hno.
      cbn [game_export sv_magic sv_size sv_type sv_state sv_winner].
      rewrite Fb, Ft, Fw, Hsize, Htype. auto.
  - unfold game_replay. rewrite Fb, Ft, Fm, Hsize, Htype, Hcreate.
    cbn [obind]. fold (coords_of (moves g)). rewrite Hmoves. simpl.
    exact Hplace.
Qed.

(** ** The bytes behind the grid, seen by two processes *)

Lemma forallb_pointwise {A : Type} (f f' : A -> bool) (l : list A) :
  (forall a : A, f a = f' a) -> forallb f l = forallb f' l.
Proof.
  intros H. induction l as [|a l IH]; simpl; [reflexivity|].
  rewrite H, IH. reflexivity.
Qed.

Section Views.

Variables beyond beyond' : Z -> Z.

Hypothesis Hview : same_view beyond beyond'.

Lemma board_get_view (b : board) (x y v : Z) :
  v = EMPTY_INTERSECTION \/ v = BLACK_STONE \/ v = WHITE_STONE ->
  (board_get beyond b x y =? v) = (board_get beyond' b x y =? v).
Proof.
  intros Hv. unfold board_get, grid_at.
  destruct (grid b !! Z.to_nat (uchar y * size b + uchar x)); [reflexivity|].
  destruct (Hview (uchar y * size b + uchar x) v Hv) as [H1 H2].
  destruct (Z.eqb_spec (beyond (uchar y * size b + uchar x)) v) as [E | E],
           (Z.eqb_spec (beyond' (uchar y * size b + uchar x)) v) as [E' | E'];
    try reflexivity; [apply H1 in E | apply H2 in E']; contradiction.
Qed.

Lemma board_is_full_view (b : board) :
  board_is_full beyond b = board_is_full beyond' b.
Proof.
  unfold board_is_full.
  assert (H : forall i : Z,
             (grid_at beyond b i =? EMPTY_INTERSECTION)
             = (grid_at beyond' b i =? EMPTY_INTERSECTION)).
  { intros i. unfold grid_at.
    destruct (grid b !! Z.to_nat i); [reflexivity|].
    destruct (Hview i EMPTY_INTERSECTION (or_introl eq_refl)) as [H1 H2].
    destruct (Z.eqb_spec (beyond i) EMPTY_INTERSECTION) as [E | E],
             (Z.eqb_spec (beyond' i) EMPTY_INTERSECTION) as [E' | E'];
      try reflexivity; [apply H1 in E | apply H2 in E']; contradiction. }
  apply forallb_pointwise. intros i. apply forallb_pointwise. intros j.
  rewrite H. reflexivity.
Qed.

Lemma count_line_view (b : board) (st need : Z) (cells : list (Z * Z)) :
  st = BLACK_STONE \/ st = WHITE_STONE ->
  forall c : Z,
    count_line beyond b st need cells c = count_line beyond' b st need cells c.
Proof.
  intros Hst. induction cells as [|[cx cy] cells IH]; intros c; simpl;
    [reflexivity|].
  rewrite (board_get_view b cx cy st) by auto.
  destruct (board_get beyond' b cx cy =? st); [|apply IH].
  destruct (c + 1 =? need); [reflexivity | apply IH].
Qed.

Lemma count_fours_view (b : board) (st : Z)
      (flank : Z -> Z -> Z -> (Z * Z) * (Z * Z)) (cells : list (Z * Z)) :
  st = BLACK_STONE \/ st = WHITE_STONE ->
  forall c o : Z,
    count_fours beyond b st flank cells c o
    = count_fours beyond' b st flank cells c o.
Proof.
  intros Hst. induction cells as [|[cx cy] cells IH]; intros c o; simpl;
    [reflexivity|].
  rewrite (board_get_view b cx cy st) by auto.
  destruct (board_get beyond' b cx cy =? st); [|apply IH].
  destruct (c + 1 =? NEEDED_CONNECTIONS - 1); [|apply IH].
  destruct (flank cx cy (c + 1)) as [[ax ay] [px py]].
  rewrite (board_get_view b ax ay EMPTY_INTERSECTION) by auto.
  rewrite (board_get_view b px py EMPTY_INTERSECTION) by auto.
  rewrite !IH. reflexivity.
Qed.

Lemma apply_rules_view (g : game) (x y : Z) :
  stone g = BLACK_STONE \/ stone g = WHITE_STONE ->
  apply_rules beyond g x y = apply_rules beyond' g x y.
Proof.
  intros Hst.
  assert (Hline : forall h : game,
             stone h = BLACK_STONE \/ stone h = WHITE_STONE ->
             line_win beyond h x y = line_win beyond' h x y).
  { intros h Hh.
    unfold line_win, verticalWin, horizontalWin, diagonalDownWin,
      diagonalUpWin.
    rewrite !(count_line_view (gboard h) (stone h)) by exact Hh.
    reflexivity. }
  assert (Hfours : open_fours beyond g x y = open_fours beyond' g x y).
  { unfold open_fours.
    rewrite !(count_fours_view (gboard g) (stone g)) by exact Hst.
    reflexivity. }
  assert (Hover : forall h : game,
             stone h = BLACK_STONE \/ stone h = WHITE_STONE ->
             overline beyond h x y = overline beyond' h x y).
  { intros h Hh. unfold overline.
    rewrite !(count_line_view (gboard h) (stone h)) by exact Hh.
    destruct (count_line beyond' (gboard h) (stone h) (NEEDED_CONNECTIONS + 1)
                (column_cells (size (gboard h)) x) 0) as [[] c1];
      [reflexivity|].
    destruct (count_line beyond' (gboard h) (stone h) (NEEDED_CONNECTIONS + 1)
                (row_cells (size (gboard h)) y) 0) as [[] c2];
      [reflexivity|].
    rewrite !(count_line_view (gboard h) (stone h)) by exact Hh.
    destruct (count_line beyond' (gboard h) (stone h) (NEEDED_CONNECTIONS + 1)
                (diag_down_cells (size (gboard h)) x y) c2) as [[] c3];
      [reflexivity|].
    rewrite !(count_line_view (gboard h) (stone h)) by exact Hh.
    reflexivity. }
  assert (Hdof : doubleOpenFours beyond g x y = doubleOpenFours beyond' g x y).
  { unfold doubleOpenFours. rewrite (Hline g Hst), Hfours. reflexivity. }
  unfold apply_rules.
  rewrite Hdof, (Hline g Hst), board_is_full_view.
  rewrite (Hover (doubleOpenFours beyond' g x y)).
  - reflexivity.
  - destruct (doubleOpenFours_frame beyond' g x y) as (_ & _ & Hs & _).
    rewrite Hs. exact Hst.
Qed.

Lemma game_place_stone_view (g : game) (x y : Z) :
  game_place_stone beyond g x y = game_place_stone beyond' g x y.
Proof.
  unfold game_place_stone.
  rewrite (board_get_view (gboard g) x y EMPTY_INTERSECTION) by auto.
  destruct (negb (board_get beyond' (gboard g) x y =? EMPTY_INTERSECTION));
    [reflexivity|].
  unfold board_set. cbn [move_stone move_x move_y].
  destruct (negb (stone g =? BLACK_STONE) && negb (stone g =? WHITE_STONE))
    eqn:E; [reflexivity|].
  apply one_of_two in E. cbn [obind].
  rewrite apply_rules_view; [reflexivity | exact E].
Qed.

Lemma play_view (ps : list (Z * Z)) :
  forall g : game, play beyond g ps = play beyond' g ps.
Proof.
  induction ps as [|[x y] ps IH]; intros g; simpl; [reflexivity|].
  rewrite game_place_stone_view.
  destruct (state g =? GAME_STATE_PLAYING); [|reflexivity].
  destruct (game_place_stone beyond' g x y) as [[[] g']|]; auto.
Qed.

Lemma drive_view (input : list string) :
  forall g : game, drive beyond g input = drive beyond' g input.
Proof.
  induction input as [|w input IH]; intros g; simpl; [reflexivity|].
  destruct (negb (state g =? GAME_STATE_PLAYING)); [reflexivity|].
  destruct (board_coord (gboard g) w) as [[x y]|]; [|apply IH].
  rewrite game_place_stone_view.
  destruct (game_place_stone beyond' g x y) as [r|e]; simpl;
    [apply IH | reflexivity].
Qed.

End Views.

(** Every game that the driver can produce, other than the Renju
    games that Black has won, comes back from its save file as it
    was, in a process that sees behind its grid what the process that
    played saw: with a [formal_coord] array whose fourth byte is
    zero, [game_import] of [game_export] returns the game itself, log
    and capacity included, and [game_replay] ends in the same game. *)
Theorem saved_game_comes_back (beyond beyond' : Z -> Z) (stack : string)
        (sz ty : Z) (ps : list (Z * Z)) (g : game) :
  same_view beyond beyond' ->
  valid_size sz ->
  ty = GAME_FREESTYLE \/ ty = GAME_RENJU ->
  terminated stack ->
  all_on_board sz ps = true ->
  play beyond (new_game sz ty) ps = Some g ->
  ty = GAME_FREESTYLE \/ winner g <> BLACK_STONE ->
  game_import beyond' (game_export stack (finished_or_stopped g))
  = Ret (finished_or_stopped g)
  /\ game_replay beyond' (finished_or_stopped g) = Ret (finished_or_stopped g).
Proof.
  intros Hview Hsz Hty Hstack Hon Hp Hok.
  rewrite (play_view beyond beyond' Hview) in Hp.
  destruct (round_trip_exact beyond' stack sz ty ps g Hsz Hty Hstack Hon Hp Hok)
    as [Himport Hreplay].
  split; [exact Himport | exact Hreplay].
Qed.

Lemma constant_memories_same_view (v v' : Z) :
  2 < v -> 2 < v' -> same_view (constant_memory v) (constant_memory v').
Proof.
  intros Hv Hv' i w Hw. unfold constant_memory.
  unfold EMPTY_INTERSECTION, BLACK_STONE, WHITE_STONE in Hw. lia.
Qed.

Lemma saved_game_comes_back_witness :
  exists g : game,
    play (constant_memory 7) (new_game 15 GAME_RENJU) diagonal_cross_opening
    = Some g
    /\ state (finished_or_stopped g) = GAME_STATE_STOPPED
    /\ game_import (constant_memory 9)
                   (game_export zero_stack (finished_or_stopped g))
       = Ret (finished_or_stopped g)
    /\ game_replay (constant_memory 9) (finished_or_stopped g)
       = Ret (finished_or_stopped g).
Proof.
  let r := eval vm_compute in
        (play (constant_memory 7) (new_game 15 GAME_RENJU)
              diagonal_cross_opening) in
  match r with
  | Some ?G =>
      assert (Hplay : play (constant_memory 7) (new_game 15 GAME_RENJU)
                           diagonal_cross_opening = Some G)
        by (vm_compute; reflexivity);
      exists G;
      destruct (saved_game_comes_back (constant_memory 7) (constant_memory 9)
                  zero_stack 15 GAME_RENJU diagonal_cross_opening G)
        as (Hi & Hr)
  end.
  - apply constant_memories_same_view; lia.
  - left. reflexivity.
  - right. reflexivity.
  - unfold terminated, zero_stack. eauto.
  - reflexivity.
  - exact Hplay.
  - right. discriminate.
  - split; [exact Hplay|]. split; [reflexivity|].
    split; [exact Hi | exact Hr].
Defined.

(** ** game.c: the interactive loop *)

Section DriveLoop.

Variable beyond : Z -> Z.

(** One call of [game_update] on a game in play, against the single
    loop [drive]. *)
Lemma game_update_read_drive (input : list string) :
  forall g : game,
    state g = GAME_STATE_PLAYING ->
    match game_update_read beyond g input with
    | Exit e => drive beyond g input = Exit e
    | Ret (true, g', rest) =>
        (length rest < length input)%nat
        /\ drive beyond g input = drive beyond g' rest
    | Ret (false, g', rest) => drive beyond g input = Ret (g', rest)
    end.
Proof.
  induction input as [|w input IH]; intros g Hplay.
  - simpl. rewrite Hplay. reflexivity.
  - cbn [game_update_read drive]. rewrite Hplay. cbn [Z.eqb negb].
    change (GAME_STATE_PLAYING =? GAME_STATE_PLAYING) with true. cbn [negb].
    destruct (board_coord (gboard g) w) as [[x y]|].
    + destruct (game_place_stone beyond g x y) as [r|e] eqn:Hr;
        cbn [obind]; [|reflexivity].
      destruct (place_cases beyond g x y r Hr) as [-> | (_ & _ & ->)];
        cbn [fst snd].
      * specialize (IH g Hplay).
        destruct (game_update_read beyond g input) as [[[[] g'] rest]|e];
          [destruct IH as [Hl Hd]; split; [simpl; lia | exact Hd]
          | exact IH | exact IH].
      * split; [simpl; lia | reflexivity].
    + specialize (IH g Hplay).
      destruct (game_update_read beyond g input) as [[[[] g'] rest]|e];
        [destruct IH as [Hl Hd]; split; [simpl; lia | exact Hd]
        | exact IH | exact IH].
Qed.

Lemma drive_not_playing (g : game) (input : list string) :
  state g <> GAME_STATE_PLAYING -> drive beyond g input = Ret (g, input).
Proof.
  intros Hnp. apply Z.eqb_neq in Hnp.
  destruct input as [|w input]; simpl; rewrite Hnp; reflexivity.
Qed.

Lemma game_loop_run_drive (fuel : nat) :
  forall (g : game) (input : list string),
    (length input < fuel)%nat ->
    game_loop_run beyond fuel g input = drive beyond g input.
Proof.
  induction fuel as [|fuel IH]; intros g input Hlen; [lia|].
  cbn [game_loop_run]. unfold game_update.
  destruct (state g =? GAME_STATE_PLAYING) eqn:Est; cbn [negb].
  - apply Z.eqb_eq in Est.
    pose proof (game_update_read_drive input g Est) as H.
    destruct (game_update_read beyond g input) as [[[[] g'] rest]|e];
      cbn [obind fst snd].
    + destruct H as [Hl Hd]. rewrite Hd. apply IH. lia.
    + symmetry. exact H.
    + symmetry. exact H.
  - apply Z.eqb_neq in Est. cbn [obind fst snd].
    symmetry. apply drive_not_playing. exact Est.
Qed.

(** [game_loop] is the single loop. *)
Lemma game_loop_drive (g : game) (input : list string) :
  game_loop beyond g input = drive beyond g input.
Proof. unfold game_loop. apply game_loop_run_drive. lia. Qed.

Lemma place_keeps_stone (g : game) (x y : Z) (r : bool * game) :
  stone g = BLACK_STONE \/ stone g = WHITE_STONE ->
  game_place_stone beyond g x y = Ret r ->
  stone (snd r) = BLACK_STONE \/ stone (snd r) = WHITE_STONE.
Proof.
  intros Hst Hr.
  destruct (place_cases beyond g x y r Hr) as [-> | (_ & _ & ->)];
    [exact Hst|].
  apply (apply_rules_turn beyond (stone_placed g x y) x y Hst).
Qed.

Lemma finished_or_stopped_not_playing (g : game) :
  state (finished_or_stopped g) <> GAME_STATE_PLAYING.
Proof.
  unfold finished_or_stopped.
  destruct (state g =? GAME_STATE_PLAYING) eqn:E; [discriminate|].
  apply Z.eqb_neq in E. exact E.
Qed.

(** The single loop returns, and what it returns is a game of [play],
    stopped if it was still being played. *)
Lemma drive_plays (input : list string) :
  forall g : game,
    valid_size (size (gboard g)) ->
    stone g = BLACK_STONE \/ stone g = WHITE_STONE ->
    exists (g' : game) (rest : list string) (ps : list (Z * Z)) (G : game),
      drive beyond g input = Ret (g', rest)
      /\ play beyond g ps = Some G
      /\ g' = finished_or_stopped G
      /\ all_on_board (size (gboard g)) ps = true
      /\ (rest <> [] -> state G <> GAME_STATE_PLAYING)
      /\ (length ps + length rest <= length input)%nat.
Proof.
  induction input as [|w input IH]; intros g Hsz Hst.
  - exists (finished_or_stopped g), [], [], g. simpl.
    repeat split; auto.
  - destruct (state g =? GAME_STATE_PLAYING) eqn:Est.
    2:{ apply Z.eqb_neq in Est.
        exists g, (w :: input), [], g.
        split; [apply drive_not_playing; exact Est|].
        split; [reflexivity|].
        split; [unfold finished_or_stopped;
                apply Z.eqb_neq in Est; rewrite Est; reflexivity|].
        split; [reflexivity|]. split; [intros _; exact Est | simpl; lia]. }
    cbn [drive]. rewrite Est. cbn [negb].
    destruct (board_coord (gboard g) w) as [[x y]|] eqn:Ew.
    2:{ destruct (IH g Hsz Hst) as (g' & rest & ps & G & Hd & Hp & He & Hon
                                    & Hr & Hl).
        exists g', rest, ps, G. repeat (split; [assumption|]).
        simpl. lia. }
    pose proof (board_coord_hits_board _ _ _ _ Hsz Ew) as Hxy.
    destruct (place_returns beyond g x y Hst) as [r Hr].
    rewrite Hr. cbn [obind].
    pose proof (place_keeps_size beyond g x y r Hr) as Hsize.
    pose proof (place_keeps_stone g x y r Hst Hr) as Hst'.
    assert (Hsz' : valid_size (size (gboard (snd r))))
      by (rewrite Hsize; exact Hsz).
    destruct (IH (snd r) Hsz' Hst') as (g' & rest & ps & G & Hd & Hp & He
                                        & Hon & Hrest & Hl).
    destruct (place_cases beyond g x y r Hr) as [-> | (_ & _ & Hr')].
    + exists g', rest, ps, G. repeat (split; [assumption|]). simpl. lia.
    + exists g', rest, ((x, y) :: ps), G.
      split; [exact Hd|].
      split.
      { cbn [play]. rewrite Est, Hr, Hr'. rewrite Hr' in Hp. exact Hp. }
      split; [exact He|].
      split.
      { cbn [all_on_board forallb fst snd]. rewrite Hsize in Hon.
        unfold all_on_board in Hon. rewrite Hon.
        destruct Hxy as [? ?].
        replace (0 <=? x) with true by (symmetry; apply Z.leb_le; lia).
        replace (x <? size (gboard g)) with true
          by (symmetry; apply Z.ltb_lt; lia).
        replace (0 <=? y) with true by (symmetry; apply Z.leb_le; lia).
        replace (y <? size (gboard g)) with true
          by (symmetry; apply Z.ltb_lt; lia).
        reflexivity. }
      split; [exact Hrest | simpl; lia].
Qed.

(** More input after the end of the input that stopped a game: the
    loop goes on from the game as it was before it was stopped. *)
Lemma drive_app (w1 : list string) :
  forall (g g1 : game) (rest : list string),
    drive beyond g w1 = Ret (g1, rest) ->
    state g1 = GAME_STATE_STOPPED ->
    state g <> GAME_STATE_STOPPED ->
    forall w2 : list string,
      drive beyond g (w1 ++ w2)
      = drive beyond (with_state g1 GAME_STATE_PLAYING) w2.
Proof.
  induction w1 as [|w w1 IH]; intros g g1 rest Hd Hs Hns w2.
  - simpl in Hd.
    destruct (state g =? GAME_STATE_PLAYING) eqn:Est;
      injection Hd as <- <-; [|contradiction].
    apply Z.eqb_eq in Est. simpl.
    replace (with_state (with_state g GAME_STATE_STOPPED) GAME_STATE_PLAYING)
      with g; [reflexivity|].
    destruct g. simpl in *. subst. reflexivity.
  - cbn [drive app] in *.
    destruct (state g =? GAME_STATE_PLAYING) eqn:Est; cbn [negb] in *.
    2:{ injection Hd as <- <-. contradiction. }
    apply Z.eqb_eq in Est.
    destruct (board_coord (gboard g) w) as [[x y]|]; [|eapply IH; eauto].
    destruct (game_place_stone beyond g x y) as [r|e] eqn:Hr;
      cbn [obind] in *; [|discriminate].
    eapply IH; eauto.
    destruct (place_cases beyond g x y r Hr) as [-> | (_ & _ & ->)];
      [exact Hns|].
    cbn [snd].
    destruct (apply_rules_state beyond (stone_placed g x y) x y)
      as ([H | [H | H]] & _); rewrite H; [exact Hns | discriminate..].
Qed.

End DriveLoop.

(** Whatever the input, [game_loop] returns: it never exits.  The
    game it returns is a game of accepted placements made in state
    Playing, at intersections of the board, stopped if the input ended
    first; the game is no longer being played, so that a further
    call of [game_loop] does nothing, and input is left over only
    when a placement has ended the game. *)
Theorem game_loop_plays (beyond : Z -> Z) (g : game) (input : list string) :
  valid_size (size (gboard g)) ->
  stone g = BLACK_STONE \/ stone g = WHITE_STONE ->
  Forall fits input ->
  exists (g' : game) (rest : list string) (ps : list (Z * Z)) (G : game),
    game_loop beyond g input = Ret (g', rest)
    /\ play beyond g ps = Some G
    /\ g' = finished_or_stopped G
    /\ all_on_board (size (gboard g)) ps = true
    /\ (length ps + length rest <= length input)%nat
    /\ (rest <> [] -> state G <> GAME_STATE_PLAYING)
    /\ state g' <> GAME_STATE_PLAYING
    /\ game_loop beyond g' rest = Ret (g', rest).
Proof.
  intros Hsz Hst _.
  destruct (drive_plays beyond input g Hsz Hst)
    as (g' & rest & ps & G & Hd & Hp & He & Hon & Hrest & Hl).
  exists g', rest, ps, G.
  assert (Hnp : state g' <> GAME_STATE_PLAYING)
    by (rewrite He; apply finished_or_stopped_not_playing).
  rewrite !game_loop_drive.
  split; [exact Hd|]. split; [exact Hp|]. split; [exact He|].
  split; [exact Hon|]. split; [exact Hl|]. split; [exact Hrest|].
  split; [exact Hnp|]. apply drive_not_playing. exact Hnp.
Qed.

Lemma game_loop_plays_witness :
  exists (g' : game) (ps : list (Z * Z)) (G : game),
    game_loop zero_memory (new_game 15 GAME_FREESTYLE)
              ["H8"; "H8"; "Z3"; "h8"; "A15"]%string = Ret (g', [])
    /\ play zero_memory (new_game 15 GAME_FREESTYLE) ps = Some G
    /\ g' = finished_or_stopped G
    /\ state g' = GAME_STATE_STOPPED
    /\ moves_count g' = 2.
Proof.
  destruct (game_loop_plays zero_memory (new_game 15 GAME_FREESTYLE)
              ["H8"; "H8"; "Z3"; "h8"; "A15"]%string)
    as (g' & rest & ps & G & Hl & Hp & He & _).
  - left. reflexivity.
  - left. reflexivity.
  - repeat (constructor; [unfold fits, MAX_STRING_LENGTH; simpl; lia|]).
    constructor.
  - exists g', ps, G.
    let r := eval vm_compute in
          (game_loop zero_memory (new_game 15 GAME_FREESTYLE)
                     ["H8"; "H8"; "Z3"; "h8"; "A15"]%string) in
    assert (Hrun : game_loop zero_memory (new_game 15 GAME_FREESTYLE)
                             ["H8"; "H8"; "Z3"; "h8"; "A15"]%string = r)
      by (vm_compute; reflexivity).
    rewrite Hrun in Hl. injection Hl as <- <-.
    split; [exact Hrun|]. split; [exact Hp|]. split; [exact He|].
    split; reflexivity.
Defined.

(** A session that the end of the input has stopped goes on from its
    save file, in a process that sees behind its grid what the first
    process saw: for input words that fit the buffer and a
    [formal_coord] array whose fourth byte is zero, [game_import] of
    [game_export] returns the stopped game, and [game_resume] with
    further input ends where the one session with both inputs ends. *)
Theorem stopped_game_resumes (beyond beyond' : Z -> Z) (stack : string)
        (sz ty : Z) (w1 w2 rest : list string) (g1 : game) :
  same_view beyond beyond' ->
  valid_size sz ->
  ty = GAME_FREESTYLE \/ ty = GAME_RENJU ->
  terminated stack ->
  Forall fits (w1 ++ w2) ->
  game_loop beyond (new_game sz ty) w1 = Ret (g1, rest) ->
  state g1 = GAME_STATE_STOPPED ->
  game_import beyond' (game_export stack g1) = Ret g1
  /\ game_resume beyond' g1 w2 = game_loop beyond (new_game sz ty) (w1 ++ w2).
Proof.
  intros Hview Hsz Hty Hstack _ Hloop Hstop.
  rewrite !game_loop_drive, !(drive_view beyond beyond' Hview) in *.
  destruct (drive_plays beyond' w1 (new_game sz ty) Hsz (or_introl eq_refl))
    as (g' & rest' & ps & G & Hd & Hp & He & Hon & _).
  rewrite Hloop in Hd. injection Hd as <- <-.
  assert (Hs0 : sane (new_game sz ty)) by (split; simpl; auto).
  destruct (play_facts beyond' ps _ G Hs0 Hp) as (HsG & _ & HtG & _).
  simpl in HtG.
  assert (HplayG : state G = GAME_STATE_PLAYING).
  { rewrite He in Hstop. unfold finished_or_stopped in Hstop.
    destruct (state G =? GAME_STATE_PLAYING) eqn:E;
      [apply Z.eqb_eq in E; exact E|].
    destruct HsG as [_ [[H _] | [[H _] | [H _]]]];
      rewrite H in Hstop; discriminate. }
  pose proof (sane_playing G HsG HplayG) as Hwin.
  assert (Hok : ty = GAME_FREESTYLE \/ winner G <> BLACK_STONE)
    by (right; rewrite Hwin; discriminate).
  destruct (round_trip_exact beyond' stack sz ty ps G Hsz Hty Hstack Hon Hp Hok)
    as [Himport _].
  rewrite <- He in Himport.
  split; [exact Himport|].
  unfold game_resume. rewrite Hstop.
  assert (Htype : type g1 = ty).
  { destruct (finished_or_stopped_fields G) as (_ & Ft & _).
    rewrite He, Ft. exact HtG. }
  rewrite Htype.
  replace (negb (ty =? GAME_FREESTYLE) && negb (ty =? GAME_RENJU)) with false
    by (destruct Hty as [-> | ->]; reflexivity).
  cbn [Z.eqb negb orb].
  change (negb (GAME_STATE_STOPPED =? GAME_STATE_STOPPED) || false) with false.
  cbv iota.
  rewrite game_loop_drive. symmetry.
  apply (drive_app beyond' w1 (new_game sz ty) g1 rest Hloop Hstop).
  discriminate.
Qed.

Lemma stopped_game_resumes_witness :
  exists g1 : game,
    game_loop (constant_memory 7) (new_game 15 GAME_RENJU)
              ["H8"; "J9"]%string = Ret (g1, [])
    /\ game_import (constant_memory 9) (game_export zero_stack g1) = Ret g1
    /\ game_resume (constant_memory 9) g1 ["K10"; "A1"]%string
       = game_loop (constant_memory 7) (new_game 15 GAME_RENJU)
                   (["H8"%string; "J9"%string]
                    ++ ["K10"%string; "A1"%string]).
Proof.
  let r := eval vm_compute in
        (game_loop (constant_memory 7) (new_game 15 GAME_RENJU)
                   ["H8"; "J9"]%string) in
  match r with
  | Ret (?G, _) =>
      assert (Hrun : game_loop (constant_memory 7) (new_game 15 GAME_RENJU)
                               ["H8"; "J9"]%string = Ret (G, []))
        by (vm_compute; reflexivity);
      exists G; split; [exact Hrun|];
      apply (stopped_game_resumes (constant_memory 7) (constant_memory 9)
               zero_stack 15 GAME_RENJU
               ["H8"; "J9"]%string ["K10"; "A1"]%string [] G)
  end.
  - apply constant_memories_same_view; lia.
  - left. reflexivity.
  - right. reflexivity.
  - unfold terminated, zero_stack. eauto.
  - repeat (constructor; [unfold fits, MAX_STRING_LENGTH; simpl; lia|]).
    constructor.
  - vm_compute. reflexivity.
  - reflexivity.
Defined.

(** ** game.c: the move array *)

Lemma placed_capacity (g : game) :
  placed g ->
  moves_count g <= moves_capacity g
  /\ (exists k : nat, moves_capacity g = INITIAL_NUM_MOVES * 2 ^ Z.of_nat k)
  /\ (moves_capacity g = INITIAL_NUM_MOVES
      \/ moves_capacity g < 2 * moves_count g).
Proof.
  induction 1 as [sz ty g Hc | beyond g x y r _ IH _ Hp].
  - unfold game_create in Hc.
    destruct (board_create sz) as [b|e]; simpl in Hc; [|discriminate].
    injection Hc as <-. unfold moves_count, INITIAL_NUM_MOVES. simpl.
    split; [lia|]. split; [exists O; reflexivity | left; reflexivity].
  - destruct (place_cases beyond g x y r Hp) as [-> | (_ & _ & ->)];
      [exact IH|].
    simpl. rewrite apply_rules_capacity.
    destruct (apply_rules_frame beyond (stone_placed g x y) x y)
      as (_ & Hm & _).
    unfold moves_count in *. rewrite Hm.
    destruct IH as (Hle & [k Hk] & Hgrow).
    unfold stone_placed, record_move. simpl.
    rewrite length_app. simpl.
    assert (Hpos : 16 <= moves_capacity g).
    { rewrite Hk. unfold INITIAL_NUM_MOVES.
      assert (0 < 2 ^ Z.of_nat k) by (apply Z.pow_pos_nonneg; lia). lia. }
    fold (moves_count g) in *.
    destruct (moves_capacity g <=? moves_count g) eqn:E; unfold moves_count in *.
    + apply Z.leb_le in E.
      split; [lia|]. split; [|right; lia].
      exists (S k). rewrite Hk, Nat2Z.inj_succ, Z.pow_succ_r by lia. lia.
    + apply Z.leb_gt in E.
      split; [lia|]. split; [exists k; exact Hk|].
      destruct Hgrow as [Hg | Hg]; [left; exact Hg | right; lia].
Qed.

(** The move array never overflows in [game_place_stone]: in every
    game made by [game_create] and calls of [game_place_stone], the
    number of moves is at most the capacity, the capacity is 16
    doubled some number of times, and it was doubled only when the
    array was full.  The array is therefore full exactly when the
    number of moves is 16 doubled some number of times, and then the
    slot [&g->moves[ g->moves_count ]] that [game_update] stores into
    lies behind the array. *)
Theorem move_array_never_overflows (g : game) :
  placed g ->
  moves_count g <= moves_capacity g
  /\ (exists k : nat, moves_capacity g = INITIAL_NUM_MOVES * 2 ^ Z.of_nat k)
  /\ (moves_capacity g = INITIAL_NUM_MOVES
      \/ moves_capacity g < 2 * moves_count g)
  /\ (in_moves_array g (currentMove_index g) = false
      <-> exists k : nat, moves_count g = INITIAL_NUM_MOVES * 2 ^ Z.of_nat k).
Proof.
  intros Hpl. destruct (placed_capacity g Hpl) as (Hle & [k Hk] & Hgrow).
  split; [exact Hle|]. split; [exists k; exact Hk|]. split; [exact Hgrow|].
  unfold in_moves_array, currentMove_index.
  assert (H0 : 0 <= moves_count g) by (unfold moves_count; lia).
  replace (0 <=? moves_count g) with true by (symmetry; apply Z.leb_le; lia).
  cbn [andb]. rewrite Z.ltb_ge. unfold INITIAL_NUM_MOVES in *.
  split.
  - intros Hfull. exists k. lia.
  - intros [j Hj].
    assert (Hjk : 2 ^ Z.of_nat j <= 2 ^ Z.of_nat k) by lia.
    apply Z.pow_le_mono_r_iff in Hjk; [|lia|lia].
    destruct Hgrow as [Hg | Hg].
    + assert (0 < 2 ^ Z.of_nat j) by (apply Z.pow_pos_nonneg; lia). lia.
    + assert (Hkj : 2 ^ Z.of_nat k < 2 ^ (Z.of_nat j + 1))
        by (rewrite Z.pow_add_r, Z.pow_1_r by lia; lia).
      apply Z.pow_lt_mono_r_iff in Hkj; [|lia|lia].
      assert (k = j) as -> by lia. lia.
Qed.

Lemma move_array_never_overflows_witness :
  exists g : game,
    place_all zero_memory (new_game 15 GAME_FREESTYLE) (firstn 16 drawn_game)
    = Ret g
    /\ state g = GAME_STATE_PLAYING
    /\ moves_count g = 16
    /\ in_moves_array g (currentMove_index g) = false.
Proof.
  eexists. split; [vm_compute; reflexivity|].
  split; [reflexivity|]. split; [reflexivity|].
  refine (proj2 (proj2 (proj2 (proj2 (move_array_never_overflows _ _)))) _).
  - refine (place_all_placed zero_memory (firstn 16 drawn_game)
              (new_game 15 GAME_FREESTYLE) _ _ _ _).
    + exact (placed_new 15 GAME_FREESTYLE _ eq_refl).
    + vm_compute. reflexivity.
    + vm_compute. reflexivity.
  - exists O. reflexivity.
Defined.

(** ** gomoku.c: the command line *)

Lemma parse_arguments_keeps (args : list string) :
  forall a0 a : arguments,
    (boardSize a0 = 0 \/ valid_size (boardSize a0)) ->
    (importPath a0 <> None -> boardSize a0 = 0) ->
    parse_arguments args a0 = Parsed a ->
    (boardSize a = 0 \/ valid_size (boardSize a))
    /\ (importPath a <> None -> boardSize a = 0).
Proof.
  induction args as [args IH] using (induction_ltof1 _ (@length string)).
  unfold ltof in IH.
  intros a0 a Hsz Hno Hp.
  destruct args as [|key [|value args]]; simpl in Hp;
    try (injection Hp as <-; auto).
  destruct (String.eqb (c_str key) "-o").
  { apply (IH args) in Hp; [exact Hp | simpl; lia | exact Hsz | exact Hno]. }
  destruct (String.eqb (c_str key) "-r").
  { destruct (boardSize a0 =? 0) eqn:E0; simpl in Hp; [|discriminate].
    apply Z.eqb_eq in E0.
    apply (IH args) in Hp; [exact Hp | simpl; lia | exact Hsz |].
    intros _. exact E0. }
  destruct (String.eqb (c_str key) "-b"); [|discriminate].
  destruct (uchar (atoi value) =? 0); [discriminate|].
  destruct (negb (uchar (atoi value) =? BOARD_SIZE_15)
            && negb (uchar (atoi value) =? BOARD_SIZE_17)
            && negb (uchar (atoi value) =? BOARD_SIZE_19)) eqn:Esz;
    [discriminate|].
  apply one_of_three in Esz.
  destruct (importPath a0) eqn:Ei; [discriminate|].
  apply (IH args) in Hp; [exact Hp | simpl; lia | right; exact Esz |].
  simpl. intros H. contradiction.
Qed.

(** A command line that [main] accepts has one, three or five words,
    never leaves both a file to resume and a board size, and leaves
    no board size or one of 15, 17 and 19, so that the [game_create]
    of [main] never exits with [BOARD_SIZE_ERR]. *)
Theorem arguments_never_conflict (argv : list string) (a : arguments) :
  gomoku_arguments argv = Parsed a ->
  (length argv = 1 \/ length argv = 3 \/ length argv = 5)%nat
  /\ (importPath a <> None -> boardSize a = 0)
  /\ (boardSize a = 0 \/ valid_size (boardSize a))
  /\ exists g : game,
       game_create (if boardSize a =? 0 then BOARD_SIZE_15 else boardSize a)
                   GAME_FREESTYLE = Ret g.
Proof.
  unfold gomoku_arguments. intros Hp.
  destruct ((Z.of_nat (length argv) =? 1) || (Z.of_nat (length argv) =? 3)
            || (Z.of_nat (length argv) =? 5)) eqn:En; [|discriminate].
  split.
  { apply orb_prop in En as [En | En];
      [apply orb_prop in En as [En | En]|]; apply Z.eqb_eq in En; lia. }
  destruct (parse_arguments_keeps (tl argv) (mkArguments None None 0) a)
    as [Hsz Hno]; [left; reflexivity | intros _; reflexivity | exact Hp |].
  split; [exact Hno|]. split; [exact Hsz|].
  destruct Hsz as [-> | [-> | [-> | ->]]]; eexists; reflexivity.
Qed.

Lemma arguments_never_conflict_witness :
  (importPath (mkArguments (Some "out.gmk"%string) None 17) <> None ->
   boardSize (mkArguments (Some "out.gmk"%string) None 17) = 0)
  /\ valid_size 17.
Proof.
  destruct (arguments_never_conflict
              ["gomoku"%string; "-b"%string; "17"%string; "-o"%string;
               "out.gmk"%string]
              (mkArguments (Some "out.gmk"%string) None 17) eq_refl)
    as (_ & Hno & [H0 | Hsz] & _).
  - discriminate.
  - exact (conj Hno Hsz).
Defined.

(** The board size of the command line is an [unsigned char]: for a
    text whose number an [int] holds, [-b] followed by the text is
    accepted when the number is 15, 17 or 19 modulo 256, with that
    size, and it ends the program otherwise, with [ARGUMENT_ERR] when
    the number is 0 modulo 256 and with [BOARD_SIZE_ERR] when it is
    not. *)
Theorem board_size_argument (prog value : string) :
  int_holds (atoi value) ->
  (valid_size (uchar (atoi value)) ->
   gomoku_arguments [prog; "-b"%string; value]
   = Parsed (mkArguments None None (uchar (atoi value))))
  /\ (uchar (atoi value) = 0 ->
      gomoku_arguments [prog; "-b"%string; value] = Stopped ARGUMENT_ERR)
  /\ (uchar (atoi value) <> 0 -> ~ valid_size (uchar (atoi value)) ->
      gomoku_arguments [prog; "-b"%string; value]
      = Stopped (Status BOARD_SIZE_ERR)).
Proof.
  intros _.
  unfold gomoku_arguments. cbn [length Z.of_nat Z.eqb orb tl].
  change (Z.of_nat 3 =? 1) with false. change (Z.of_nat 3 =? 3) with true.
  cbn [orb parse_arguments c_str boardSize importPath exportPath].
  change (String.eqb (c_str "-b") "-o") with false.
  change (String.eqb (c_str "-b") "-r") with false.
  change (String.eqb (c_str "-b") "-b") with true.
  cbv iota.
  split; [|split].
  - intros Hv.
    pose proof (proj2 (one_of_three _ BOARD_SIZE_15 BOARD_SIZE_17
                                    BOARD_SIZE_19) Hv) as Hc.
    rewrite Hc.
    replace (uchar (atoi value) =? 0) with false; [reflexivity|].
    symmetry. apply Z.eqb_neq. unfold valid_size in Hv. lia.
  - intros ->. reflexivity.
  - intros Hn Hv. apply Z.eqb_neq in Hn. rewrite Hn.
    destruct (negb (uchar (atoi value) =? BOARD_SIZE_15)
              && negb (uchar (atoi value) =? BOARD_SIZE_17)
              && negb (uchar (atoi value) =? BOARD_SIZE_19)) eqn:E;
      [reflexivity|].
    apply one_of_three in E. contradiction.
Qed.

Lemma board_size_argument_witness :
  gomoku_arguments ["gomoku"%string; "-b"%string; "271"%string]
  = Parsed (mkArguments None None 15).
Proof.
  apply (proj1 (board_size_argument "gomoku"%string "271"%string
                  ltac:(unfold int_holds; vm_compute; split; discriminate))).
  left. reflexivity.
Defined.

(** ** board.c: the display and the coordinates agree *)

Lemma chr_ord (c : ascii) : chr (ord c) = c.
Proof.
  unfold chr, ord, uchar.
  assert (H : (N_of_ascii c < 256)%N) by apply N_ascii_bounded.
  rewrite Z.mod_small by lia.
  rewrite N2Z.id. apply ascii_N_embedding.
Qed.

(** The text that names an intersection names it on the display: when
    [board_coord] accepts a text, its number is the number that
    [board_print] puts in front of the row of the intersection, its
    letter is the letter under the column, and the display shows
    there what [board_get] returns. *)
Theorem display_agrees_with_coordinates (beyond : Z -> Z) (b : board)
        (s : string) (x y : Z) :
  well_formed b ->
  board_coord b s = Some (x, y) ->
  exists (c : ascii) (row : Z) (cells : list glyph),
    sscanf_c_d (c_str s) = Some (c, row)
    /\ board_print_rows beyond b !! Z.to_nat y = Some (row, cells)
    /\ cells !! Z.to_nat x = Some (glyph_of (board_get beyond b x y))
    /\ board_print_letters b !! Z.to_nat x = Some c.
Proof.
  intros Hwf Hs.
  destruct (board_coord_accepts_only b s x y (proj1 Hwf) Hs)
    as (c & row & Hscan & Hc & Hrow & _ & Hx & Hy).
  pose proof (valid_size_bounds _ (proj1 Hwf)) as Hb.
  assert (Hon : on_board b x y) by (unfold on_board; lia).
  destruct (offset_on_board b x y Hwf Hon) as [_ Hoff].
  exists c, row,
    (map (fun j => glyph_of (grid_at beyond b (y * size b + j)))
         (seqZ 0 (size b))).
  split; [exact Hscan|].
  split.
  { unfold board_print_rows. rewrite list_lookup_fmap.
    rewrite (proj2 (lookup_seqZ 0 (size b) (Z.to_nat y) y)) by lia.
    simpl. do 2 f_equal. lia. }
  split.
  { rewrite list_lookup_fmap.
    rewrite (proj2 (lookup_seqZ 0 (size b) (Z.to_nat x) x)) by lia.
    simpl. unfold board_get. rewrite Hoff. reflexivity. }
  unfold board_print_letters.
  destruct (Z.eq_dec x (size b - 1)) as [Hlast | Hmid].
  - rewrite lookup_app_r by (rewrite length_fmap, length_seqZ; lia).
    rewrite length_fmap, length_seqZ.
    replace (Z.to_nat x - Z.to_nat (size b - 1))%nat with O by lia.
    simpl. f_equal.
    replace (ord "A" + Z.max 0 (size b - 1)) with (ord c) by lia.
    apply chr_ord.
  - rewrite lookup_app_l by (rewrite length_fmap, length_seqZ; lia).
    rewrite list_lookup_fmap.
    rewrite (proj2 (lookup_seqZ 0 (size b - 1) (Z.to_nat x) x)) by lia.
    simpl. f_equal.
    replace (ord "A" + x) with (ord c) by lia.
    apply chr_ord.
Qed.

Lemma display_agrees_with_coordinates_witness :
  exists cells : list glyph,
    board_print_rows zero_memory (gboard one_stone_game) !! 7%nat
    = Some (8, cells)
    /\ cells !! 7%nat = Some BlackDisc
    /\ board_print_letters (gboard one_stone_game) !! 7%nat = Some "H"%char.
Proof.
  destruct (display_agrees_with_coordinates zero_memory
              (gboard one_stone_game) "H8"%string 7 7)
    as (c & row & cells & Hscan & Hrows & Hcell & Hletter).
  - split; [left; reflexivity | reflexivity].
  - reflexivity.
  - injection Hscan as <- <-. exists cells. auto.
Defined.

(** ** game.c and io.c: resuming an imported game *)

Lemma import_moves_state (beyond : Z -> Z) (ws : list string) :
  forall h g : game,
    import_moves beyond h ws = Ret g ->
    state g = state h \/ state g = GAME_STATE_FINISHED
    \/ state g = GAME_STATE_FORBIDDEN.
Proof.
  induction ws as [|w ws IH]; intros h g Hg; cbn [import_moves] in Hg.
  - injection Hg as <-. left. reflexivity.
  - destruct (board_coord (gboard h) w) as [[x y]|]; [|discriminate].
    destruct (game_place_stone beyond h x y) as [r|e] eqn:Hr;
      cbn [obind] in Hg; [|discriminate].
    specialize (IH _ _ Hg).
    destruct (place_cases beyond h x y r Hr) as [-> | (_ & _ & ->)];
      [exact IH|].
    cbn [snd] in IH.
    destruct IH as [IH | [IH | IH]]; [|auto|auto].
    rewrite IH.
    destruct (apply_rules_state beyond (stone_placed h x y) x y)
      as ([H | [H | H]] & _); rewrite H; auto.
Qed.

(** [game_resume] after [game_import]: the state of the imported game
    is the state of the file unless a move of the file has ended the
    game; a game that is not stopped makes [game_resume] exit with
    [RESUME_ERR], and a stopped game is played on without an exit,
    until it is no longer being played. *)
Theorem resume_of_import (beyond : Z -> Z) (f : save_file) (g : game)
        (input : list string) :
  game_import beyond f = Ret g ->
  Forall fits input ->
  (state g = sv_state f \/ state g = GAME_STATE_FINISHED
   \/ state g = GAME_STATE_FORBIDDEN)
  /\ (state g <> GAME_STATE_STOPPED ->
      game_resume beyond g input = Exit RESUME_ERR)
  /\ (state g = GAME_STATE_STOPPED ->
      exists (g' : game) (rest : list string),
        game_resume beyond g input = Ret (g', rest)
        /\ state g' <> GAME_STATE_PLAYING).
Proof.
  intros Hg _.
  destruct (game_import_header beyond f)
    as [(Hm & Hsz & Hty & Hst & Hwi & Heq) | (_ & Heq)];
    rewrite Heq in Hg; [|discriminate].
  pose proof (import_moves_state beyond _ _ _ Hg) as Hstate.
  simpl in Hstate.
  destruct (import_moves_spec beyond (sv_coords f) _
              (new_game_counts (sv_size f) (sv_type f) (sv_state f)
                               (sv_winner f) Hsz)) as (_ & H2 & _).
  destruct (H2 g Hg) as (_ & (Hwf & _ & Hstone) & _ & Ht & _).
  simpl in Ht.
  split; [exact Hstate|].
  unfold game_resume. split.
  - intros Hns. apply Z.eqb_neq in Hns. rewrite Hns. reflexivity.
  - intros Hs. rewrite Hs, Ht.
    replace (negb (sv_type f =? GAME_FREESTYLE)
             && negb (sv_type f =? GAME_RENJU)) with false
      by (destruct Hty as [-> | ->]; reflexivity).
    change (negb (GAME_STATE_STOPPED =? GAME_STATE_STOPPED) || false)
      with false.
    cbv iota.
    destruct (drive_plays beyond input (with_state g GAME_STATE_PLAYING)
                (proj1 Hwf) Hstone)
      as (g' & rest & ps & G & Hd & _ & He & _).
    exists g', rest. rewrite game_loop_drive.
    split; [exact Hd|].
    rewrite He. apply finished_or_stopped_not_playing.
Qed.

Lemma resume_of_import_witness :
  exists g : game,
    game_import zero_memory
      (mkSave "GA" 15 GAME_FREESTYLE GAME_STATE_STOPPED EMPTY_INTERSECTION
              ["A15"; "A14"; "B15"; "B14"; "C15"; "C14"; "D15"; "D14";
               "E15"]%string) = Ret g
    /\ state g = GAME_STATE_FINISHED
    /\ game_resume zero_memory g ["H8"%string] = Exit RESUME_ERR.
Proof.
  eexists. split; [vm_compute; reflexivity|].
  split; [reflexivity|].
  match goal with
  | |- game_resume _ ?G _ = _ =>
      destruct (resume_of_import zero_memory
                  (mkSave "GA" 15 GAME_FREESTYLE GAME_STATE_STOPPED
                          EMPTY_INTERSECTION
                          ["A15"; "A14"; "B15"; "B14"; "C15"; "C14"; "D15";
                           "D14"; "E15"]%string) G ["H8"%string])
        as (_ & Hexit & _)
  end.
  - vm_compute. reflexivity.
  - repeat (constructor; [unfold fits, MAX_STRING_LENGTH; simpl; lia|]).
    constructor.
  - apply Hexit. discriminate.
Defined.

(** ** game.c and io.c: the replay of an imported game *)

Section Logged.

Variable beyond : Z -> Z.

Lemma new_game_logged (sz ty st w : Z) :
  valid_size sz ->
  logged beyond (with_winner (with_state (new_game sz ty) st) w).
Proof.
  intros Hsz.
  destruct (new_game_counts sz ty st w Hsz) as (Hwf & _ & Hst).
  split; [exact Hwf|]. split; [exact Hst|].
  split; [constructor|]. split; [intros p []|].
  intros x y Hon. simpl. split; [|intros []].
  intros Hne. apply Hne.
  pose proof (board_get_lookup beyond _ x y Hwf Hon) as Hl.
  simpl in Hl. apply lookup_replicate in Hl as [Hv _]. exact Hv.
Qed.

Lemma place_keeps_logged (h : game) (x y : Z) (r : bool * game) :
  logged beyond h -> on_board (gboard h) x y ->
  game_place_stone beyond h x y = Ret r ->
  logged beyond (snd r)
  /\ size (gboard (snd r)) = size (gboard h)
  /\ type (snd r) = type h
  /\ (~ In (x, y) (coords_of (moves h)) ->
      coords_of (moves (snd r)) = coords_of (moves h) ++ [(x, y)])
  /\ (In (x, y) (coords_of (moves h)) ->
      coords_of (moves (snd r)) = coords_of (moves h)).
Proof.
  intros (Hwf & Hst & Hnd & Hin & Hocc) Hon Hr.
  pose proof (place_keeps_size beyond h x y r Hr) as Hsize.
  destruct (place_keeps_type beyond h x y r Hr) as [Htype _].
  destruct (Z.eq_dec (board_get beyond (gboard h) x y) EMPTY_INTERSECTION)
    as [He | Hne].
  - rewrite place_on_empty in Hr by assumption. injection Hr as <-.
    assert (Hfresh : ~ In (x, y) (coords_of (moves h)))
      by (intros Hi; apply (Hocc x y Hon) in Hi; contradiction).
    destruct (apply_rules_frame beyond (stone_placed h x y) x y)
      as (Hb & Hm & _).
    destruct (apply_rules_turn beyond (stone_placed h x y) x y Hst)
      as (Hs1 & _).
    assert (Hco : coords_of (moves (apply_rules beyond (stone_placed h x y) x y))
                  = coords_of (moves h) ++ [(x, y)]).
    { rewrite Hm. unfold stone_placed, record_move, coords_of. simpl.
      rewrite map_app. reflexivity. }
    cbn [snd]. split; [|split; [exact Hsize|split; [exact Htype|]]].
    2:{ split; [intros _; exact Hco | intros Hi; contradiction]. }
    unfold logged. rewrite Hco, Hb.
    change (gboard (stone_placed h x y)) with (store (gboard h) x y (stone h)).
    split; [apply store_well_formed; exact Hwf|]. split; [exact Hs1|].
    split.
    { apply NoDup_app. split; [exact Hnd|]. split; [|repeat constructor].
      intros p Hp Hp'. apply list_elem_of_In in Hp.
      apply list_elem_of_In in Hp'. destruct Hp' as [<- | []].
      contradiction.
      intros H. inversion H. }
    split.
    { intros p Hp. apply in_app_iff in Hp as [Hp | [<- | []]];
        [exact (Hin p Hp) | exact Hon]. }
    intros x' y' Hon'.
    rewrite (board_get_store beyond (gboard h) x y (stone h) x' y' Hwf Hon Hon').
    rewrite in_app_iff.
    destruct ((x' =? x) && (y' =? y)) eqn:E.
    + apply andb_prop in E as [Ex Ey]. apply Z.eqb_eq in Ex, Ey. subst.
      split; [intros _; right; left; reflexivity|].
      intros _. unfold BLACK_STONE, WHITE_STONE, EMPTY_INTERSECTION in *.
      destruct Hst as [-> | ->]; discriminate.
    + rewrite (Hocc x' y' Hon'). split; [auto|].
      intros [Hi | [Heq | []]]; [exact Hi|].
      injection Heq as <- <-. rewrite !Z.eqb_refl in E. discriminate.
  - rewrite place_on_occupied in Hr by exact Hne. injection Hr as <-.
    cbn [snd].
    split; [exact (conj Hwf (conj Hst (conj Hnd (conj Hin Hocc))))|].
    split; [reflexivity|]. split; [reflexivity|].
    split; [|reflexivity].
    intros Hfresh. exfalso. apply Hfresh. apply (Hocc x y Hon). exact Hne.
Qed.

Lemma import_moves_logged (ws : list string) :
  forall h g : game,
    logged beyond h ->
    import_moves beyond h ws = Ret g ->
    logged beyond g
    /\ size (gboard g) = size (gboard h) /\ type g = type h.
Proof.
  induction ws as [|w ws IH]; intros h g Hlog Hg; cbn [import_moves] in Hg.
  - injection Hg as <-. auto.
  - destruct (board_coord (gboard h) w) as [[x y]|] eqn:Ew; [|discriminate].
    pose proof (board_coord_hits_board _ _ _ _ (proj1 (proj1 Hlog)) Ew) as Hon.
    destruct (game_place_stone beyond h x y) as [r|e] eqn:Hr;
      cbn [obind] in Hg; [|discriminate].
    destruct (place_keeps_logged h x y r Hlog Hon Hr)
      as (Hlog' & Hsize & Htype & _).
    destruct (IH _ _ Hlog' Hg) as (HlogG & HsG & HtG).
    split; [exact HlogG|]. split; congruence.
Qed.

(** Placements at distinct intersections that the log does not hold
    are all accepted. *)
Lemma place_all_fresh (ms : list (Z * Z)) :
  forall r : game,
    logged beyond r ->
    NoDup ms ->
    (forall p : Z * Z,
        In p ms ->
        on_board (gboard r) (fst p) (snd p)
        /\ ~ In p (coords_of (moves r))) ->
    exists r' : game,
      place_all beyond r ms = Ret r'
      /\ logged beyond r'
      /\ coords_of (moves r') = coords_of (moves r) ++ ms
      /\ size (gboard r') = size (gboard r)
      /\ type r' = type r.
Proof.
  induction ms as [|[x y] ms IH]; intros r Hlog Hnd Hms.
  - exists r. rewrite app_nil_r. simpl. auto.
  - cbn [place_all].
    destruct (Hms (x, y) (or_introl eq_refl)) as [Hon Hfresh].
    cbn [fst snd] in Hon.
    destruct (place_returns beyond r x y (proj1 (proj2 Hlog))) as [r1 Hr].
    rewrite Hr. cbn [obind].
    destruct (place_keeps_logged r x y r1 Hlog Hon Hr)
      as (Hlog' & Hsize & Htype & Hco & _).
    specialize (Hco Hfresh).
    apply NoDup_cons in Hnd as [Hnot Hnd'].
    destruct (IH (snd r1) Hlog' Hnd') as (r' & Hp & HlogR & HcoR & HsR & HtR).
    { intros p Hp. destruct (Hms p (or_intror Hp)) as [Hon' Hfresh'].
      split; [unfold on_board in *; rewrite Hsize; exact Hon'|].
      rewrite Hco, in_app_iff. intros [Hi | [<- | []]]; [contradiction|].
      apply Hnot. apply list_elem_of_In. exact Hp. }
    exists r'. split; [exact Hp|]. split; [exact HlogR|].
    split; [rewrite HcoR, Hco, <- app_assoc; reflexivity|].
    split; congruence.
Qed.

End Logged.

(** The replay of an imported game never exits and accepts every move
    of the log: in the game that [game_import] returns, the moves of
    the log lie at distinct intersections, which are the occupied
    intersections of the board, and [game_replay] of that game ends
    in a game of the same size and type with the same intersections
    in the log, in the same order, and the same intersections
    occupied. *)
Theorem replay_of_import (beyond : Z -> Z) (f : save_file) (g : game) :
  game_import beyond f = Ret g ->
  logged beyond g
  /\ exists g' : game,
       game_replay beyond g = Ret g'
       /\ size (gboard g') = size (gboard g)
       /\ type g' = type g
       /\ coords_of (moves g') = coords_of (moves g)
       /\ (forall x y : Z,
             on_board (gboard g) x y ->
             (board_get beyond (gboard g') x y = EMPTY_INTERSECTION
              <-> board_get beyond (gboard g) x y = EMPTY_INTERSECTION)).
Proof.
  intros Hg.
  destruct (game_import_header beyond f)
    as [(_ & Hsz & _ & _ & _ & Heq) | (_ & Heq)];
    rewrite Heq in Hg; [|discriminate].
  destruct (import_moves_logged beyond _ _ _
              (new_game_logged beyond (sv_size f) (sv_type f) (sv_state f)
                               (sv_winner f) Hsz) Hg)
    as (Hlog & Hsize & Htype).
  simpl in Hsize, Htype.
  split; [exact Hlog|].
  destruct Hlog as (Hwf & Hst & Hnd & Hin & Hocc).
  unfold game_replay. rewrite Hsize.
  replace (game_create (sv_size f) (type g))
    with (Ret (new_game (sv_size f) (type g)))
    by (destruct Hsz as [-> | [-> | ->]]; reflexivity).
  cbn [obind].
  destruct (place_all_fresh beyond (coords_of (moves g))
              (with_state (with_winner (new_game (sv_size f) (type g))
                                       (winner g)) (state g)))
    as (g' & Hp & Hlog' & Hco & Hs' & Ht').
  { exact (new_game_logged beyond (sv_size f) (type g) (state g) (winner g)
                           Hsz). }
  { exact Hnd. }
  { intros p Hp. split; [|intros []].
    specialize (Hin p Hp). unfold on_board in *. rewrite Hsize in Hin.
    exact Hin. }
  exists g'. split; [exact Hp|].
  simpl in Hs', Ht', Hco.
  split; [congruence|]. split; [exact Ht'|]. split; [exact Hco|].
  intros x y Hon.
  destruct Hlog' as (_ & _ & _ & _ & Hocc').
  assert (Hon' : on_board (gboard g') x y)
    by (unfold on_board in *; rewrite Hs', <- Hsize; exact Hon).
  specialize (Hocc x y Hon). specialize (Hocc' x y Hon').
  rewrite Hco in Hocc'.
  destruct (Z.eq_dec (board_get beyond (gboard g') x y) EMPTY_INTERSECTION),
           (Z.eq_dec (board_get beyond (gboard g) x y) EMPTY_INTERSECTION);
    tauto.
Qed.

Lemma replay_of_import_witness :
  exists g g' : game,
    game_import zero_memory
      (mkSave "GA" 15 GAME_RENJU GAME_STATE_STOPPED EMPTY_INTERSECTION
              ["H8"; "H8"; "A1"]%string) = Ret g
    /\ game_replay zero_memory g = Ret g'
    /\ coords_of (moves g') = [(7, 7); (0, 14)].
Proof.
  eexists.
  match goal with
  | |- exists g', game_import _ ?F = Ret ?G /\ _ =>
      assert (Hi : game_import zero_memory F = Ret G)
        by (vm_compute; reflexivity);
      destruct (replay_of_import zero_memory F G Hi)
        as (_ & g' & Hr & _ & _ & Hco & _);
      exists g'; split; [exact Hi|]; split; [exact Hr | exact Hco]
  end.
Defined.

(** ** game.c: the count that [overline] carries from scan to scan *)

(** [overline] sets its count to zero before the vertical and the
    horizontal scan only.  When the row of the stone ends with [c]
    stones of the colour and the diagonal through the stone starts
    with [6 - c], the diagonal scan reaches six: in a Renju game a
    Black stone that wins in such a position is taken for an overline,
    and the game is Forbidden with White as the winner. *)
Theorem five_forbidden_by_carried_count (beyond : Z -> Z) (g : game)
        (x y c : Z) (blk post : list (Z * Z)) :
  type g = GAME_RENJU -> stone g = BLACK_STONE ->
  board_get beyond (gboard g) x y = EMPTY_INTERSECTION ->
  line_win beyond (stone_placed g x y) x y = true ->
  fst (count_line beyond (gboard (stone_placed g x y)) BLACK_STONE
                  (NEEDED_CONNECTIONS + 1)
                  (column_cells (size (gboard g)) x) 0) = false ->
  count_line beyond (gboard (stone_placed g x y)) BLACK_STONE
             (NEEDED_CONNECTIONS + 1) (row_cells (size (gboard g)) y) 0
  = (false, c) ->
  0 < c < NEEDED_CONNECTIONS + 1 ->
  diag_down_cells (size (gboard g)) x y = blk ++ post ->
  (forall p : Z * Z,
      In p blk ->
      board_get beyond (gboard (stone_placed g x y)) (fst p) (snd p)
      = BLACK_STONE) ->
  NEEDED_CONNECTIONS + 1 - c <= Z.of_nat (length blk) ->
  exists g' : game,
    game_place_stone beyond g x y = Ret (true, g')
    /\ state g' = GAME_STATE_FORBIDDEN
    /\ winner g' = WHITE_STONE.
Proof.
  intros Hty Hst Hget Hline Hcol Hrow Hc Hdiag Hblk Hlen.
  exists (apply_rules beyond (stone_placed g x y) x y).
  split; [apply place_on_empty; [exact Hget | left; exact Hst]|].
  assert (Hover : overline beyond (stone_placed g x y) x y = true).
  { unfold overline.
    change (stone (stone_placed g x y)) with (stone g).
    change (size (gboard (stone_placed g x y))) with (size (gboard g)).
    rewrite Hst.
    destruct (count_line beyond (gboard (stone_placed g x y)) BLACK_STONE
                (NEEDED_CONNECTIONS + 1) (column_cells (size (gboard g)) x) 0)
      as [h1 c1].
    simpl in Hcol. subst h1. rewrite Hrow, Hdiag.
    pose proof (count_line_block beyond (gboard (stone_placed g x y))
                  BLACK_STONE (NEEDED_CONNECTIONS + 1) blk post c
                  ltac:(lia) Hblk Hlen) as Hhit.
    destruct (count_line beyond (gboard (stone_placed g x y)) BLACK_STONE
                (NEEDED_CONNECTIONS + 1) (blk ++ post) c) as [h3 c3].
    simpl in Hhit. subst h3. reflexivity. }
  unfold apply_rules, doubleOpenFours.
  change (type (stone_placed g x y)) with (type g).
  change (stone (stone_placed g x y)) with (stone g).
  rewrite Hty, Hst, Hline. cbn [Z.eqb andb].
  change (GAME_RENJU =? GAME_RENJU) with true.
  change (BLACK_STONE =? BLACK_STONE) with true. cbn [andb].
  cbn [winner with_state with_winner].
  change (BLACK_STONE =? BLACK_STONE) with true. cbn [andb].
  rewrite (overline_same_board beyond (stone_placed g x y)) by reflexivity.
  rewrite Hover. split; reflexivity.
Qed.

Lemma five_forbidden_by_carried_count_witness :
  exists g g' : game,
    play zero_memory (new_game 15 GAME_RENJU) carried_count_opening = Some g
    /\ game_place_stone zero_memory g 7 4 = Ret (true, g')
    /\ state g' = GAME_STATE_FORBIDDEN
    /\ winner g' = WHITE_STONE
    /\ has_run (gboard g') BLACK_STONE 5 7 4 = true
    /\ any_run (gboard g') BLACK_STONE 6 = false.
Proof.
  let r := eval vm_compute in
        (play zero_memory (new_game 15 GAME_RENJU) carried_count_opening) in
  match r with
  | Some ?G =>
      assert (Hplay : play zero_memory (new_game 15 GAME_RENJU)
                           carried_count_opening = Some G)
        by (vm_compute; reflexivity);
      exists G;
      destruct (five_forbidden_by_carried_count zero_memory G 7 4 1
                  [(3, 0); (4, 1); (5, 2); (6, 3); (7, 4)]
                  [(8, 5); (9, 6); (10, 7); (11, 8); (12, 9); (13, 10);
                   (14, 11)])
        as (g' & Hp & Hs & Hw)
  end.
  - reflexivity.
  - reflexivity.
  - vm_compute. reflexivity.
  - vm_compute. reflexivity.
  - vm_compute. reflexivity.
  - vm_compute. reflexivity.
  - unfold NEEDED_CONNECTIONS. lia.
  - vm_compute. reflexivity.
  - intros p Hp. simpl in Hp.
    destruct Hp as [<- | [<- | [<- | [<- | [<- | []]]]]];
      vm_compute; reflexivity.
  - unfold NEEDED_CONNECTIONS. simpl. lia.
  - exists g'. split; [exact Hplay|]. split; [exact Hp|].
    split; [exact Hs|]. split; [exact Hw|].
    destruct (place_accepted _ _ _ _ _ Hp) as (_ & _ & ->).
    split; vm_compute; reflexivity.
Defined.

(** ** The move log in every session *)

Lemma placed_session (g : game) : placed g -> session any_state g.
Proof.
  induction 1 as [sz ty g Hc | beyond g x y r _ IH Hon Hp].
  - exact (session_new any_state sz ty g Hc).
  - exact (session_place any_state beyond g x y r IH I Hon Hp).
Qed.

Lemma played_session (g : game) : played g -> session undecided g.
Proof.
  induction 1 as [sz ty g Hc | beyond g x y r _ IH Hplay Hon Hp].
  - exact (session_new undecided sz ty g Hc).
  - exact (session_place undecided beyond g x y r IH (or_introl Hplay) Hon Hp).
Qed.

Lemma session_counts (gate : game -> Prop) (g : game) :
  session gate g ->
  well_formed (gboard g) /\ log_counts_stones g
  /\ (stone g = BLACK_STONE \/ stone g = WHITE_STONE).
Proof.
  induction 1 as [sz ty g Hc | sz ty st w g Hc | g _ IH _ | g _ IH _
                  | beyond g x y r _ IH _ Hon Hp].
  - destruct (new_game_invariant sz ty g Hc) as (Hwf & Hcnt & _ & Hst & _).
    auto.
  - destruct (new_game_invariant sz ty g Hc) as (Hwf & Hcnt & _ & Hst & _).
    auto.
  - exact IH.
  - exact IH.
  - exact (place_keeps_counts beyond g x y r IH Hon Hp).
Qed.

(** A placement that leaves the game undecided has passed the turn. *)
Lemma apply_rules_passes_turn (beyond : Z -> Z) (g : game) (x y : Z) :
  stone g = BLACK_STONE \/ stone g = WHITE_STONE ->
  undecided (apply_rules beyond g x y) ->
  stone (apply_rules beyond g x y) = other_stone (stone g).
Proof.
  intros Hst. unfold undecided, apply_rules.
  destruct ((type g =? GAME_RENJU) && (stone g =? BLACK_STONE)) eqn:Hrb.
  - apply andb_prop in Hrb as [_ Hb]. apply Z.eqb_eq in Hb.
    destruct ((winner (doubleOpenFours beyond g x y) =? BLACK_STONE)
              && overline beyond (doubleOpenFours beyond g x y) x y); simpl.
    + intros [H | H]; discriminate.
    + intros _. rewrite Hb. reflexivity.
  - destruct (line_win beyond g x y); simpl;
      [intros [H | H]; discriminate|].
    destruct (board_is_full beyond (gboard g)); simpl;
      [intros [H | H]; discriminate|].
    intros _. reflexivity.
Qed.

Lemma log_alternates_snoc (g : game) (x y : Z) (ms : list move) :
  log_alternates g -> in_turn g ->
  ms = moves g ++ [mkMove x y (stone g)] ->
  forall (i : nat) (m : move),
    ms !! i = Some m ->
    move_stone m = if Nat.even i then BLACK_STONE else WHITE_STONE.
Proof.
  intros Halt Hturn -> i m Hi.
  destruct (Nat.lt_ge_cases i (length (moves g))) as [Hlt | Hge].
  - rewrite lookup_app_l in Hi by exact Hlt. apply Halt. exact Hi.
  - rewrite lookup_app_r in Hi by exact Hge.
    destruct (i - length (moves g))%nat as [|n] eqn:Ei;
      [|destruct n; discriminate].
    injection Hi as <-. simpl.
    assert (i = length (moves g)) as -> by lia.
    exact Hturn.
Qed.

Lemma session_in_turn_alternates (g : game) :
  session in_turn g -> log_alternates g.
Proof.
  induction 1 as [sz ty g Hc | sz ty st w g Hc | g _ IH _ | g _ IH _
                  | beyond g x y r _ IH Hturn _ Hp].
  - destruct (new_game_invariant sz ty g Hc) as (_ & _ & Ha & _). exact Ha.
  - destruct (new_game_invariant sz ty g Hc) as (_ & _ & Ha & _). exact Ha.
  - exact IH.
  - exact IH.
  - destruct (place_cases beyond g x y r Hp) as [-> | (_ & _ & ->)];
      [exact IH|].
    cbn [snd]. unfold log_alternates.
    destruct (apply_rules_frame beyond (stone_placed g x y) x y)
      as (_ & Hm & _).
    rewrite Hm.
    apply (log_alternates_snoc g x y _ IH Hturn). reflexivity.
Qed.

Lemma session_undecided_in_turn (g : game) :
  session undecided g ->
  session in_turn g /\ (undecided g -> in_turn g).
Proof.
  induction 1 as [sz ty g Hc | sz ty st w g Hc | g _ IH Hplay | g _ IH Hstop
                  | beyond g x y r Hs IH Hgate Hon Hp].
  - split; [exact (session_new in_turn sz ty g Hc)|].
    intros _. unfold game_create in Hc.
    destruct (board_create sz) as [b|e]; simpl in Hc; [|discriminate].
    injection Hc as <-. reflexivity.
  - split; [exact (session_import in_turn sz ty st w g Hc)|].
    intros _. unfold game_create in Hc.
    destruct (board_create sz) as [b|e]; simpl in Hc; [|discriminate].
    injection Hc as <-. reflexivity.
  - destruct IH as [IHs IHt].
    split; [exact (session_stop in_turn g IHs Hplay)|].
    intros _. exact (IHt (or_introl Hplay)).
  - destruct IH as [IHs IHt].
    split; [exact (session_resume in_turn g IHs Hstop)|].
    intros _. exact (IHt (or_intror Hstop)).
  - destruct IH as [IHs IHt]. specialize (IHt Hgate).
    split; [exact (session_place in_turn beyond g x y r IHs IHt Hon Hp)|].
    destruct (session_counts undecided g Hs) as (_ & _ & Hst).
    destruct (place_cases beyond g x y r Hp) as [-> | (_ & _ & ->)];
      [intros _; exact IHt|].
    cbn [snd]. intros Hund. unfold in_turn.
    rewrite (apply_rules_passes_turn beyond (stone_placed g x y) x y Hst Hund).
    destruct (apply_rules_frame beyond (stone_placed g x y) x y)
      as (_ & Hm & _).
    rewrite Hm. unfold stone_placed, record_move. simpl.
    rewrite length_app, Nat.add_1_r. simpl.
    rewrite IHt. apply turn_of_succ.
Qed.

(** The games of [game_import] and [game_loop] are sessions. *)
Lemma import_moves_session (beyond : Z -> Z) (ws : list string) :
  forall h g : game,
    session any_state h ->
    import_moves beyond h ws = Ret g ->
    session any_state g.
Proof.
  induction ws as [|w ws IH]; intros h g Hs Hg; cbn [import_moves] in Hg.
  - injection Hg as <-. exact Hs.
  - destruct (board_coord (gboard h) w) as [[x y]|] eqn:Ew; [|discriminate].
    destruct (session_counts any_state h Hs) as (Hwf & _).
    pose proof (board_coord_hits_board _ _ _ _ (proj1 Hwf) Ew) as Hon.
    destruct (game_place_stone beyond h x y) as [r|e] eqn:Hr;
      cbn [obind] in Hg; [|discriminate].
    apply (IH (snd r) g); [|exact Hg].
    exact (session_place any_state beyond h x y r Hs I Hon Hr).
Qed.

Lemma game_import_session (beyond : Z -> Z) (f : save_file) (g : game) :
  game_import beyond f = Ret g -> session any_state g.
Proof.
  intros Hg.
  destruct (game_import_header beyond f)
    as [(_ & Hsz & _ & _ & _ & Heq) | (_ & Heq)];
    rewrite Heq in Hg; [|discriminate].
  apply (import_moves_session beyond _ _ g) in Hg; [exact Hg|].
  apply (session_import any_state (sv_size f) (sv_type f)).
  destruct Hsz as [-> | [-> | ->]]; reflexivity.
Qed.

Lemma drive_session (beyond : Z -> Z) (input : list string) :
  forall (g g' : game) (rest : list string),
    session undecided g ->
    drive beyond g input = Ret (g', rest) ->
    session undecided g'.
Proof.
  induction input as [|w input IH]; intros g g' rest Hs Hd; cbn [drive] in Hd.
  - destruct (state g =? GAME_STATE_PLAYING) eqn:E; injection Hd as <- <-;
      [|exact Hs].
    apply Z.eqb_eq in E. exact (session_stop undecided g Hs E).
  - destruct (state g =? GAME_STATE_PLAYING) eqn:E; cbn [negb] in Hd;
      [|injection Hd as <- <-; exact Hs].
    apply Z.eqb_eq in E.
    destruct (board_coord (gboard g) w) as [[x y]|] eqn:Ew;
      [|exact (IH g g' rest Hs Hd)].
    destruct (session_counts undecided g Hs) as (Hwf & _).
    pose proof (board_coord_hits_board _ _ _ _ (proj1 Hwf) Ew) as Hon.
    destruct (game_place_stone beyond g x y) as [r|e] eqn:Hr;
      cbn [obind] in Hd; [|discriminate].
    apply (IH (snd r) g' rest); [|exact Hd].
    exact (session_place undecided beyond g x y r Hs (or_introl E) Hon Hr).
Qed.

Lemma game_resume_session (beyond : Z -> Z) (g g' : game)
      (input rest : list string) :
  session undecided g ->
  game_resume beyond g input = Ret (g', rest) ->
  session undecided g'.
Proof.
  intros Hs Hr. unfold game_resume in Hr.
  destruct (state g =? GAME_STATE_STOPPED) eqn:E; cbn [negb orb] in Hr;
    [|discriminate].
  apply Z.eqb_eq in E.
  destruct (negb (type g =? GAME_FREESTYLE) && negb (type g =? GAME_RENJU));
    [discriminate|].
  rewrite game_loop_drive in Hr.
  apply (drive_session beyond input _ g' rest) in Hr; [exact Hr|].
  exact (session_resume undecided g Hs E).
Qed.

(** C9, as amended.  In every session, whatever the state in which
    the stones are placed, the move log is as long as there are stones
    on the board.  The move at index [i] was made by Black when [i] is
    even and by White when it is odd in every session in which each
    stone is placed by the colour whose turn it is by the length of
    the log, and these include the sessions in which no stone is
    placed once the game is Finished or Forbidden. *)
Theorem move_log_invariant (g : game) :
  (session any_state g -> log_counts_stones g)
  /\ (session in_turn g -> log_alternates g)
  /\ (session undecided g -> log_alternates g).
Proof.
  split; [|split].
  - intros Hs. apply (session_counts any_state g Hs).
  - apply session_in_turn_alternates.
  - intros Hs. apply session_in_turn_alternates.
    apply session_undecided_in_turn. exact Hs.
Qed.

Ltac place_in S beyond x y S' :=
  match type of S with
  | session ?gate ?G =>
      let r := eval vm_compute in (game_place_stone beyond G x y) in
      match r with
      | Ret ?R =>
          let E := fresh "E" in
          assert (E : game_place_stone beyond G x y = Ret R)
            by (vm_compute; reflexivity);
          assert (S' : session gate (snd R));
          [ apply (session_place gate beyond G x y R S);
            [ first [ exact I | left; reflexivity | right; reflexivity ]
            | unfold on_board; simpl; lia
            | exact E ]
          | cbn [snd] in S'; clear E ]
      end
  end.

Lemma move_log_invariant_witness :
  exists g1 g g2 : game,
    place_all zero_memory (new_game 15 GAME_FREESTYLE)
              (black_wins_row_0 ++ [(10, 10)]) = Ret g1
    /\ length (moves g1) = 10%nat
    /\ log_counts_stones g1
    /\ game_import zero_memory
         (mkSave "GA" 15 GAME_RENJU GAME_STATE_STOPPED EMPTY_INTERSECTION
                 ["H8"; "J9"]%string) = Ret g
    /\ game_resume zero_memory g ["K10"; "L11"]%string = Ret (g2, [])
    /\ length (moves g2) = 4%nat
    /\ log_alternates g2.
Proof.
  destruct (place_all zero_memory (new_game 15 GAME_FREESTYLE)
                      (black_wins_row_0 ++ [(10, 10)])) as [g1|] eqn:E1;
    [|vm_compute in E1; discriminate].
  assert (Sany : session any_state g1).
  { apply placed_session.
    apply (place_all_placed zero_memory (black_wins_row_0 ++ [(10, 10)])
                            (new_game 15 GAME_FREESTYLE));
      [apply (placed_new 15 GAME_FREESTYLE); reflexivity
      | vm_compute; reflexivity | exact E1]. }
  pose proof (proj1 (move_log_invariant g1) Sany) as Hcount.
  pose proof (session_import undecided 15 GAME_RENJU GAME_STATE_STOPPED
                EMPTY_INTERSECTION _ eq_refl) as S.
  place_in S zero_memory 7 7 Sa.
  place_in Sa zero_memory 9 6 Sb.
  match type of Sb with
  | session _ ?G =>
      assert (Ei : game_import zero_memory
                     (mkSave "GA" 15 GAME_RENJU GAME_STATE_STOPPED
                             EMPTY_INTERSECTION ["H8"; "J9"]%string) = Ret G)
        by (vm_compute; reflexivity);
      let r := eval vm_compute in
            (game_resume zero_memory G ["K10"; "L11"]%string) in
      match r with
      | Ret (?G2, _) =>
          assert (Er : game_resume zero_memory G ["K10"; "L11"]%string
                       = Ret (G2, []))
            by (vm_compute; reflexivity);
          pose proof (game_resume_session zero_memory G G2 _ _ Sb Er) as S3;
          pose proof (proj2 (proj2 (move_log_invariant G2)) S3) as Halt;
          exists g1, G, G2
      end
  end.
  vm_compute in E1. injection E1 as <-.
  split; [reflexivity|]. split; [reflexivity|]. split; [exact Hcount|].
  split; [exact Ei|]. split; [exact Er|]. split; [reflexivity | exact Halt].
Defined.

(** ** Overline without a line win *)

(** C4 fails on the code.  [game_place_stone] runs [overline] when
    the winner field is Black, and takes that for a line win of this
    placement; [game_import] sets the field from the file before it
    replays the moves.  Renju, 15x15, the game [black_wins_row_8]
    saved and imported: when the replay reaches Black's fifth move,
    (14,2), the stone makes no five in a row and the line-win check
    does not fire, yet [overline] runs, carries the three stones that
    end row 2 into the diagonal (12,0) (13,1) (14,2), and the
    placement ends Forbidden with White as the winner. *)
Theorem overline_runs_without_line_win :
  exists G g g' : game,
    play zero_memory (new_game 15 GAME_RENJU) black_wins_row_8 = Some G
    /\ import_moves zero_memory
         (with_winner (with_state (new_game 15 GAME_RENJU) (state G))
                      (winner G))
         (firstn 8 (sv_coords (game_export zero_stack G))) = Ret g
    /\ nth 8 (sv_coords (game_export zero_stack G)) EmptyString
       = "O13"%string
    /\ board_coord (gboard g) "O13" = Some (14, 2)
    /\ type g = GAME_RENJU
    /\ stone g = BLACK_STONE
    /\ winner g = BLACK_STONE
    /\ line_win zero_memory (stone_placed g 14 2) 14 2 = false
    /\ any_run (gboard (stone_placed g 14 2)) BLACK_STONE 5 = false
    /\ overline zero_memory (stone_placed g 14 2) 14 2 = true
    /\ game_place_stone zero_memory g 14 2 = Ret (true, g')
    /\ state g' = GAME_STATE_FORBIDDEN
    /\ winner g' = WHITE_STONE.
Proof.
  eexists. eexists. eexists.
  split; [vm_compute; reflexivity|].
  split; [vm_compute; reflexivity|].
  split; [vm_compute; reflexivity|].
  split; [vm_compute; reflexivity|].
  split; [reflexivity|]. split; [reflexivity|]. split; [reflexivity|].
  split; [vm_compute; reflexivity|].
  split; [vm_compute; reflexivity|].
  split; [vm_compute; reflexivity|].
  split; [vm_compute; reflexivity|].
  split; reflexivity.
Qed.

(** The same placement in a game that is being played: a file with
    the state Stopped and the winner Black is one that [game_import]
    accepts, [game_resume] brings the game into play, and Black's
    stone at (14,2), which makes no five, ends the game as
    Forbidden. *)
Lemma overline_runs_in_resumed_game :
  exists g g' : game,
    game_import zero_memory
      (mkSave "GA" 15 GAME_RENJU GAME_STATE_STOPPED BLACK_STONE
              ["M15"; "A3"; "N14"; "C3"; "M13"; "E3"; "N13"; "G3"]%string)
    = Ret g
    /\ game_resume zero_memory g ["O13"%string] = Ret (g', [])
    /\ line_win zero_memory
                (stone_placed (with_state g GAME_STATE_PLAYING) 14 2) 14 2
       = false
    /\ state g' = GAME_STATE_FORBIDDEN
    /\ winner g' = WHITE_STONE.
Proof.
  eexists. eexists.
  split; [vm_compute; reflexivity|].
  split; [vm_compute; reflexivity|].
  split; [vm_compute; reflexivity|].
  split; reflexivity.
Qed.
